(** * JSONSpark: the request handlers of the JSON-endpoint service

    A shallow embedding of the two complete server files of the repository

    - [src/backend/server.js]: routes [/create], [/:slug], [/], [/health]
      (module [Flat] below),
    - [src/unnamed/part_000], first file: routes under [/api], plus
      [/health] and [/] (module [Prefixed] below),

    and of the two helpers they share, [validateJSON] and [validateSlug].
    The second file of [src/unnamed/part_000] is a draft that repeats the
    [/create] handler of the first server and the [/health] handler of the
    second, and leaves the other routes out; it adds no handler of its own.

    The JavaScript built-ins the code calls ([RegExp.prototype.test],
    [JSON.parse], [JSON.stringify], truthiness, [ToString]) and the
    document store (Firestore) are modelled next to the code, each in its
    own section of the file.

    Requests are served one at a time: a handler runs from its first line
    to its response with no other request in between, and no time passes
    while it runs.  The middleware in front of the routes (helmet, CORS,
    body parser, request log, rate limiter) is not modelled. *)

From Stdlib Require Import ZArith NArith String Ascii List Bool Lia.
From stdpp Require Import base list gmap sorting.

Local Open Scope N_scope.

(** ** Strings

    A JavaScript string is a sequence of 16-bit code units; [str] turns
    a literal of the development into such a sequence. *)

Abbreviation jsstring := (list N).

Definition str (s : string) : jsstring :=
  map N_of_ascii (list_ascii_of_string s).

(** ** Regular expressions

    The part of the RegExp language the source uses: character classes made
    of ranges, sequence, alternative and repetition.  A pattern written
    between [^] and [$] (no flags) is matched against the whole subject. *)

Module Regex.

Inductive regex : Type :=
| Void
| Eps
| Class (ranges : list (N * N))
| Seq (r1 r2 : regex)
| Alt (r1 r2 : regex)
| Star (r : regex).

(** [r+] *)
Definition Plus (r : regex) : regex := Seq r (Star r).

Definition in_range (c : N) (rg : N * N) : bool :=
  (fst rg <=? c) && (c <=? snd rg).

Definition in_class (ranges : list (N * N)) (c : N) : bool :=
  existsb (in_range c) ranges.

Fixpoint nullable (r : regex) : bool :=
  match r with
  | Void => false
  | Eps => true
  | Class _ => false
  | Seq r1 r2 => nullable r1 && nullable r2
  | Alt r1 r2 => nullable r1 || nullable r2
  | Star _ => true
  end.

Fixpoint deriv (c : N) (r : regex) : regex :=
  match r with
  | Void => Void
  | Eps => Void
  | Class ranges => if in_class ranges c then Eps else Void
  | Seq r1 r2 =>
      if nullable r1
      then Alt (Seq (deriv c r1) r2) (deriv c r2)
      else Seq (deriv c r1) r2
  | Alt r1 r2 => Alt (deriv c r1) (deriv c r2)
  | Star r1 => Seq (deriv c r1) (Star r1)
  end.

(** [/^r$/.test(s)] *)
Fixpoint test_anchored (r : regex) (s : jsstring) : bool :=
  match s with
  | [] => nullable r
  | c :: s' => test_anchored (deriv c r) s'
  end.

(** The language of a pattern, as a relation. *)
Inductive matches : regex -> jsstring -> Prop :=
| m_eps : matches Eps []
| m_class ranges c : in_class ranges c = true -> matches (Class ranges) [c]
| m_seq r1 r2 s1 s2 : matches r1 s1 -> matches r2 s2 -> matches (Seq r1 r2) (s1 ++ s2)
| m_alt_l r1 r2 s : matches r1 s -> matches (Alt r1 r2) s
| m_alt_r r1 r2 s : matches r2 s -> matches (Alt r1 r2) s
| m_star_nil r : matches (Star r) []
| m_star_cons r s1 s2 : matches r s1 -> matches (Star r) s2 -> matches (Star r) (s1 ++ s2).

End Regex.

(** ** Numbers

    A number is kept as the decimal [mant * 10 ^ expo] it denotes.  The
    rounding of the significand to the 53 bits of a binary64 is outside the
    model, and so are [NaN] and the infinities, which no code path of the
    service produces from a request; the two zeros are one.  What the model
    keeps of binary64 is the underflow of a literal to zero ([underflows]),
    because the handlers branch on it. *)

Record number : Type := Num { mant : Z; expo : Z }.

Fixpoint strip_zeros (fuel : nat) (m e : Z) : number :=
  match fuel with
  | O => Num m e
  | S fuel' =>
      if (m mod 10 =? 0)%Z then strip_zeros fuel' (m / 10)%Z (e + 1)%Z
      else Num m e
  end.

(** The representative with no trailing zero in the significand. *)
Definition normalize (x : number) : number :=
  if (mant x =? 0)%Z then Num 0 0
  else strip_zeros (S (Z.to_nat (Z.log2 (Z.abs (mant x))))) (mant x) (expo x).

Definition normal (x : number) : Prop :=
  (mant x = 0 -> expo x = 0)%Z /\ (mant x <> 0 -> mant x mod 10 <> 0)%Z.

Definition of_nat_number (n : nat) : number := normalize (Num (Z.of_nat n) 0).

(** A non-zero decimal of magnitude at most [2^-1075], half the least
    positive binary64, is read as zero. *)
Definition underflows (m e : Z) : bool :=
  ((e <? 0) && (Z.abs m * 2 ^ 1075 <=? 10 ^ (- e)))%Z.

Fixpoint digits_fuel (fuel : nat) (n : N) (acc : jsstring) : jsstring :=
  match fuel with
  | O => acc
  | S fuel' =>
      let acc' := (48 + n mod 10) :: acc in
      if n / 10 =? 0 then acc' else digits_fuel fuel' (n / 10) acc'
  end.

(** The decimal digits of [n], most significant first, as code units. *)
Definition digits (n : N) : jsstring :=
  digits_fuel (S (N.to_nat (N.log2 n))) n [].

(** [Number::toString] (radix 10) of the language standard, on the digits
    [s] of the significand, their count [k] and the position [n] of the
    decimal point. *)
Definition Number_toString (x : number) : jsstring :=
  let x := normalize x in
  if (mant x =? 0)%Z then str "0"
  else
    let sign := if (mant x <? 0)%Z then str "-" else [] in
    let s := digits (Z.abs_N (mant x)) in
    let k := Z.of_nat (length s) in
    let n := (k + expo x)%Z in
    sign ++
    if ((k <=? n) && (n <=? 21))%Z then
      s ++ repeat 48 (Z.to_nat (n - k))
    else if ((0 <? n) && (n <=? 21))%Z then
      take (Z.to_nat n) s ++ str "." ++ drop (Z.to_nat n) s
    else if ((-6 <? n) && (n <=? 0))%Z then
      str "0." ++ repeat 48 (Z.to_nat (- n)) ++ s
    else
      let e := (n - 1)%Z in
      let es := (if (e <? 0)%Z then str "-" else str "+") ++ digits (Z.abs_N e) in
      match s with
      | [] => []
      | [d] => d :: str "e" ++ es
      | d :: rest => d :: str "." ++ rest ++ str "e" ++ es
      end.

(** ** Values

    The values a handler sees: what [JSON.parse] builds, and [undefined]
    for a field that is absent.  An object keeps its properties in creation
    order (the reordering of integer-like keys is left out). *)

#[local] Unset Elimination Schemes.

Inductive value : Type :=
| VUndefined
| VNull
| VBool (b : bool)
| VNumber (x : number)
| VString (s : jsstring)
| VArray (items : list value)
| VObject (props : list (jsstring * value)).

#[local] Set Elimination Schemes.

Section value_induction.
Variable P : value -> Prop.
Hypothesis P_undefined : P VUndefined.
Hypothesis P_null : P VNull.
Hypothesis P_bool : forall b, P (VBool b).
Hypothesis P_number : forall x, P (VNumber x).
Hypothesis P_string : forall s, P (VString s).
Hypothesis P_array : forall items, Forall P items -> P (VArray items).
Hypothesis P_object :
  forall props, Forall (fun kv => P (snd kv)) props -> P (VObject props).

Fixpoint value_nested_ind (v : value) : P v :=
  match v with
  | VUndefined => P_undefined
  | VNull => P_null
  | VBool b => P_bool b
  | VNumber x => P_number x
  | VString s => P_string s
  | VArray items =>
      P_array items
        ((fix go (l : list value) : Forall P l :=
            match l with
            | [] => @List.Forall_nil _ P
            | v :: l' => @List.Forall_cons _ P v l' (value_nested_ind v) (go l')
            end) items)
  | VObject props =>
      P_object props
        ((fix go (l : list (jsstring * value)) : Forall (fun kv => P (snd kv)) l :=
            match l with
            | [] => @List.Forall_nil _ _
            | kv :: l' =>
                @List.Forall_cons _ (fun kv => P (snd kv)) kv l'
                  (value_nested_ind (snd kv)) (go l')
            end) props)
  end.
End value_induction.

(** [ToBoolean]: what [!v] and [if (v)] look at. *)
Definition truthy (v : value) : bool :=
  match v with
  | VUndefined | VNull => false
  | VBool b => b
  | VNumber x => negb (mant x =? 0)%Z
  | VString s => negb (N.of_nat (length s) =? 0)
  | VArray _ | VObject _ => true
  end.

Fixpoint join (sep : jsstring) (parts : list jsstring) : jsstring :=
  match parts with
  | [] => []
  | [p] => p
  | p :: rest => p ++ sep ++ join sep rest
  end.

(** [ToString]: an array is its elements joined by commas, [null] and
    [undefined] elements giving the empty string; an object without a
    [toString] of its own is ["[object Object]"]. *)
Fixpoint ToString (v : value) : jsstring :=
  match v with
  | VUndefined => str "undefined"
  | VNull => str "null"
  | VBool true => str "true"
  | VBool false => str "false"
  | VNumber x => Number_toString x
  | VString s => s
  | VArray items =>
      join (str ",")
        (map (fun item =>
                match item with
                | VUndefined | VNull => []
                | _ => ToString item
                end) items)
  | VObject _ => str "[object Object]"
  end.

Fixpoint lookup_prop (k : jsstring) (props : list (jsstring * value)) : option value :=
  match props with
  | [] => None
  | (k', v) :: rest => if decide (k' = k) then Some v else lookup_prop k rest
  end.

(** [o.k] for the own data properties of a parsed object; a property that
    is absent, or any property of a non-object, reads [undefined]. *)
Definition get_prop (o : value) (k : string) : value :=
  match o with
  | VObject props => default VUndefined (lookup_prop (str k) props)
  | _ => VUndefined
  end.

(** [o[k] = v]: an existing property keeps its place. *)
Fixpoint set_prop (k : jsstring) (v : value) (props : list (jsstring * value))
  : list (jsstring * value) :=
  match props with
  | [] => [(k, v)]
  | (k', v') :: rest =>
      if decide (k' = k) then (k, v) :: rest else (k', v') :: set_prop k v rest
  end.

(** ** JSON texts

    [JSON.parse] and [JSON.stringify] as the language standard defines
    them, for calls with a single argument (no reviver, no replacer, no
    indentation). *)

Module JSON.

Definition is_ws (c : N) : bool :=
  (c =? 32) || (c =? 9) || (c =? 10) || (c =? 13).

Definition is_digit (c : N) : bool := (48 <=? c) && (c <=? 57).

Fixpoint skip_ws (s : jsstring) : jsstring :=
  match s with
  | c :: rest => if is_ws c then skip_ws rest else s
  | [] => []
  end.

(** The longest prefix of digits, and what follows it. *)
Fixpoint span_digits (s : jsstring) : jsstring * jsstring :=
  match s with
  | c :: rest =>
      if is_digit c
      then let '(ds, rest') := span_digits rest in (c :: ds, rest')
      else ([], s)
  | [] => ([], [])
  end.

Definition digits_value (ds : jsstring) : N :=
  fold_left (fun acc c => 10 * acc + (c - 48)) ds 0.

Definition hex_value (c : N) : option N :=
  if (48 <=? c) && (c <=? 57) then Some (c - 48)
  else if (97 <=? c) && (c <=? 102) then Some (c - 87)
  else if (65 <=? c) && (c <=? 70) then Some (c - 55)
  else None.

Definition hex4 (a b c d : N) : option N :=
  a' ← hex_value a; b' ← hex_value b; c' ← hex_value c; d' ← hex_value d;
  Some (((a' * 16 + b') * 16 + c') * 16 + d').

(** The character a backslash followed by [e] stands for, [u] apart. *)
Definition simple_escape (e : N) : option N :=
  if e =? 34 then Some 34
  else if e =? 92 then Some 92
  else if e =? 47 then Some 47
  else if e =? 98 then Some 8
  else if e =? 102 then Some 12
  else if e =? 110 then Some 10
  else if e =? 114 then Some 13
  else if e =? 116 then Some 9
  else None.

(** The characters of a string literal after its opening quote, up to and
    including the closing quote. *)
Fixpoint parse_chars (s : jsstring) : option (jsstring * jsstring) :=
  match s with
  | [] => None
  | c :: rest =>
      if c =? 34 then Some ([], rest)
      else if c =? 92 then
        match rest with
        | [] => None
        | e :: rest1 =>
            if e =? 117 then
              match rest1 with
              | h1 :: h2 :: h3 :: h4 :: rest2 =>
                  u ← hex4 h1 h2 h3 h4;
                  '(t, r) ← parse_chars rest2;
                  Some (u :: t, r)
              | _ => None
              end
            else
              u ← simple_escape e;
              '(t, r) ← parse_chars rest1;
              Some (u :: t, r)
        end
      else if c <? 32 then None
      else
        '(t, r) ← parse_chars rest;
        Some (c :: t, r)
  end.

(** The number a literal denotes: significand digits [ds] (integer and
    fraction part together), decimal exponent [e]. *)
Definition number_of_literal (neg : bool) (ds : jsstring) (e : Z) : number :=
  let m := Z.of_N (digits_value ds) in
  if (m =? 0)%Z then Num 0 0
  else if underflows m e then Num 0 0
  else normalize (Num (if neg then - m else m) e).

(** [eat c s] is the rest of [s] after its first character, when that
    character is [c]. *)
Definition eat (c : N) (s : jsstring) : option jsstring :=
  match s with
  | d :: rest => if d =? c then Some rest else None
  | [] => None
  end.

(** A number literal: an optional minus sign; an integer part, either a
    single zero or digits that do not start with zero; an optional
    fraction, a dot and at least one digit; an optional exponent, [e] or
    [E], an optional sign and at least one digit. *)
Definition parse_sign (s : jsstring) : bool * jsstring :=
  match eat 45 s with
  | Some rest => (true, rest)
  | None => (false, s)
  end.

Definition parse_int (s : jsstring) : option (jsstring * jsstring) :=
  match s with
  | c :: rest =>
      if c =? 48 then Some ([48], rest)
      else if is_digit c then Some (span_digits s)
      else None
  | [] => None
  end.

Definition parse_frac (s : jsstring) : option (jsstring * jsstring) :=
  match eat 46 s with
  | Some rest =>
      let '(ds, rest') := span_digits rest in
      match ds with
      | [] => None
      | _ => Some (ds, rest')
      end
  | None => Some ([], s)
  end.

Definition parse_exp_sign (s : jsstring) : bool * jsstring :=
  match eat 45 s with
  | Some rest => (true, rest)
  | None =>
      match eat 43 s with
      | Some rest => (false, rest)
      | None => (false, s)
      end
  end.

Definition parse_exp (s : jsstring) : option (Z * jsstring) :=
  match s with
  | c :: rest =>
      if (c =? 101) || (c =? 69) then
        let '(neg, rest1) := parse_exp_sign rest in
        let '(ds, rest2) := span_digits rest1 in
        match ds with
        | [] => None
        | _ =>
            let e := Z.of_N (digits_value ds) in
            Some (if neg then (- e)%Z else e, rest2)
        end
      else Some (0%Z, s)
  | [] => Some (0%Z, s)
  end.

(** The literal after its sign. *)
Definition parse_unsigned (neg : bool) (s : jsstring) : option (number * jsstring) :=
  '(int, s2) ← parse_int s;
  '(frac, s3) ← parse_frac s2;
  '(e, s4) ← parse_exp s3;
  Some (number_of_literal neg (int ++ frac) (e - Z.of_nat (length frac)), s4).

Definition parse_number (s : jsstring) : option (number * jsstring) :=
  let '(neg, s1) := parse_sign s in parse_unsigned neg s1.

Definition expect (lit : string) (s : jsstring) : option jsstring :=
  let l := str lit in
  if decide (take (length l) s = l) then Some (drop (length l) s) else None.

(** One value, after optional white space; the text left over is returned
    with it.  [parse_elements] reads the elements of an array after the
    first has been found to exist, [parse_members] the members of an
    object; a repeated member name overwrites. *)
Fixpoint parse_value (fuel : nat) (s : jsstring) : option (value * jsstring) :=
  match fuel with
  | O => None
  | S fuel' =>
      match skip_ws s with
      | [] => None
      | c :: rest =>
          if c =? 123 then
            match eat 125 (skip_ws rest) with
            | Some rest' => Some (VObject [], rest')
            | None => parse_members fuel' rest []
            end
          else if c =? 91 then
            match eat 93 (skip_ws rest) with
            | Some rest' => Some (VArray [], rest')
            | None => parse_elements fuel' rest []
            end
          else if c =? 34 then
            '(t, r) ← parse_chars rest; Some (VString t, r)
          else if c =? 110 then r ← expect "ull" rest; Some (VNull, r)
          else if c =? 116 then r ← expect "rue" rest; Some (VBool true, r)
          else if c =? 102 then r ← expect "alse" rest; Some (VBool false, r)
          else '(x, r) ← parse_number (c :: rest); Some (VNumber x, r)
      end
  end
with parse_elements (fuel : nat) (s : jsstring) (acc : list value)
  : option (value * jsstring) :=
  match fuel with
  | O => None
  | S fuel' =>
      '(v, r) ← parse_value fuel' s;
      match skip_ws r with
      | c :: r' =>
          if c =? 44 then parse_elements fuel' r' (acc ++ [v])
          else if c =? 93 then Some (VArray (acc ++ [v]), r')
          else None
      | [] => None
      end
  end
with parse_members (fuel : nat) (s : jsstring) (acc : list (jsstring * value))
  : option (value * jsstring) :=
  match fuel with
  | O => None
  | S fuel' =>
      s1 ← eat 34 (skip_ws s);
      '(k, s2) ← parse_chars s1;
      s3 ← eat 58 (skip_ws s2);
      '(v, r) ← parse_value fuel' s3;
      match skip_ws r with
      | c :: r' =>
          if c =? 44 then parse_members fuel' r' (set_prop k v acc)
          else if c =? 125 then Some (VObject (set_prop k v acc), r')
          else None
      | [] => None
      end
  end.

(** [JSON.parse(text)]: [None] stands for the [SyntaxError] it throws.
    Every recursive call is made on a shorter text, so the fuel given here
    is never used up. *)
Definition parse (text : jsstring) : option value :=
  '(v, rest) ← parse_value (S (2 * length text)) text;
  match skip_ws rest with
  | [] => Some v
  | _ => None
  end.


Definition hex_digit (n : N) : N := if n <? 10 then 48 + n else 87 + n.

(** [\uXXXX], lower-case digits. *)
Definition escape_u (c : N) : jsstring :=
  [92; 117; hex_digit (c / 4096 mod 16); hex_digit (c / 256 mod 16);
   hex_digit (c / 16 mod 16); hex_digit (c mod 16)].

Definition is_high_surrogate (c : N) : bool := (55296 <=? c) && (c <=? 56319).
Definition is_low_surrogate (c : N) : bool := (56320 <=? c) && (c <=? 57343).

Definition escape_char (c : N) : jsstring :=
  if c =? 8 then [92; 98]
  else if c =? 9 then [92; 116]
  else if c =? 10 then [92; 110]
  else if c =? 12 then [92; 102]
  else if c =? 13 then [92; 114]
  else if c =? 34 then [92; 34]
  else if c =? 92 then [92; 92]
  else if c <? 32 then escape_u c
  else [c].

(** The body of [QuoteJSONString]: a surrogate that is not half of a pair
    is escaped, a pair is copied. *)
Fixpoint quote_chars (s : jsstring) : jsstring :=
  match s with
  | [] => []
  | c :: rest =>
      if is_high_surrogate c then
        match rest with
        | d :: rest' =>
            if is_low_surrogate d then c :: d :: quote_chars rest'
            else escape_u c ++ quote_chars rest
        | [] => escape_u c
        end
      else if is_low_surrogate c then escape_u c ++ quote_chars rest
      else escape_char c ++ quote_chars rest
  end.

Definition quote (s : jsstring) : jsstring := 34 :: quote_chars s ++ [34].

(** [JSON.stringify(v)]: [None] stands for the result [undefined].  An
    [undefined] element of an array is written [null], a property whose
    value is [undefined] is left out. *)
Fixpoint stringify (v : value) : option jsstring :=
  match v with
  | VUndefined => None
  | VNull => Some (str "null")
  | VBool true => Some (str "true")
  | VBool false => Some (str "false")
  | VNumber x => Some (Number_toString x)
  | VString s => Some (quote s)
  | VArray items =>
      Some (91 :: join [44]
                    (map (fun item => default (str "null") (stringify item)) items)
               ++ [93])
  | VObject props =>
      Some (123 :: join [44]
                     (omap (fun kv => t ← stringify (snd kv);
                                      Some (quote (fst kv) ++ 58 :: t)) props)
                ++ [125])
  end.

End JSON.

(** ** Dates

    [new Date(t).toISOString()] for [t] milliseconds since the epoch; the
    years 0 to 9999 are written with four digits, the others with a sign
    and six. *)

Definition pad (width : nat) (n : Z) : jsstring :=
  let ds := digits (Z.to_N n) in
  repeat 48 (width - length ds) ++ ds.

Definition toISOString (t : Z) : jsstring :=
  (let days := t / 86400000 in
   let ms := t mod 86400000 in
   let z := days + 719468 in
   let era := z / 146097 in
   let doe := z - era * 146097 in
   let yoe := (doe - doe / 1460 + doe / 36524 - doe / 146096) / 365 in
   let doy := doe - (365 * yoe + yoe / 4 - yoe / 100) in
   let mp := (5 * doy + 2) / 153 in
   let d := doy - (153 * mp + 2) / 5 + 1 in
   let m := if mp <? 10 then mp + 3 else mp - 9 in
   let y := if m <=? 2 then yoe + era * 400 + 1 else yoe + era * 400 in
   let year :=
     if (0 <=? y) && (y <=? 9999) then pad 4 y
     else (if y <? 0 then str "-" else str "+") ++ pad 6 (Z.abs y) in
   year ++ str "-" ++ pad 2 m ++ str "-" ++ pad 2 d ++ str "T"
     ++ pad 2 (ms / 3600000) ++ str ":" ++ pad 2 (ms / 60000 mod 60)
     ++ str ":" ++ pad 2 (ms / 1000 mod 60) ++ str "." ++ pad 3 (ms mod 1000)
     ++ str "Z")%Z.

(** ** The helper functions of the servers *)

(** <<
const validateJSON = (jsonString) => {
  try { return JSON.parse(jsonString); } catch (e) { return null; }
};
>>
    [JSON.parse] converts its argument to a string first. *)
Definition validateJSON (jsonString : value) : value :=
  match JSON.parse (ToString jsonString) with
  | Some parsed => parsed
  | None => VNull
  end.

(** The pattern [[a-z0-9-]+], to be used between [^] and [$]. *)
Definition slug_pattern : Regex.regex :=
  Regex.Plus (Regex.Class [(97, 122); (48, 57); (45, 45)]).

(** <<
const validateSlug = (slug) => { return /^[a-z0-9-]+$/.test(slug); };
>>
    [test] converts its argument to a string first. *)
Definition validateSlug (slug : value) : bool :=
  Regex.test_anchored slug_pattern (ToString slug).

(** ** The document store

    Firestore, as far as the handlers use it: the collection [api], keyed
    by document id, and the document [healthcheck/test].  A stored
    document is what the create handler writes: five fields, the two
    timestamps being the store's own time at the write.

    The store is remote.  Whether a call fails is not decided by the
    server: the world carries a schedule with one entry per call still to
    come, [Some msg] for a call that is rejected with that message (the
    network, a quota, a value the store refuses), [None] for one that goes
    through; a schedule that has run out lets every call through.  The
    calls made are logged. *)

Record document : Type := Document {
  doc_name : value;
  doc_jsonData : value;
  doc_slug : value;
  doc_createdAt : Z;
  doc_updatedAt : Z
}.

Inductive store_call : Type :=
| CallGet (id : jsstring)
| CallSet (id : jsstring)
| CallUpdate (id : jsstring)
| CallDelete (id : jsstring)
| CallList
| CallHealthSet
| CallHealthGet.

Record world : Type := World {
  api : gmap jsstring document;
  healthcheck : option value;
  store_time : Z;              (* the clock behind [serverTimestamp()] *)
  local_time : Z;              (* the clock behind [new Date()] *)
  development : bool;          (* [NODE_ENV === 'development'] *)
  faults : list (option jsstring);
  calls : list store_call
}.

Definition set_api (f : gmap jsstring document -> gmap jsstring document)
    (w : world) : world :=
  World (f (api w)) (healthcheck w) (store_time w) (local_time w)
        (development w) (faults w) (calls w).

Definition set_healthcheck (h : option value) (w : world) : world :=
  World (api w) h (store_time w) (local_time w)
        (development w) (faults w) (calls w).

(** Time passes: both clocks move forward, by any amounts. *)
Definition advance (ds dl : N) (w : world) : world :=
  World (api w) (healthcheck w) (store_time w + Z.of_N ds) (local_time w + Z.of_N dl)
        (development w) (faults w) (calls w).

Definition set_faults (fs : list (option jsstring)) (w : world) : world :=
  World (api w) (healthcheck w) (store_time w) (local_time w)
        (development w) fs (calls w).

(** *** Computations that may throw *)

Inductive outcome (A : Type) : Type :=
| Ok (a : A)
| Throw (message : jsstring).
Arguments Ok {A} a.
Arguments Throw {A} message.

Definition M (A : Type) : Type := world -> outcome A * world.

#[global] Instance M_ret : MRet M := fun A a w => (Ok a, w).

#[global] Instance M_bind : MBind M := fun A B f m w =>
  match m w with
  | (Ok a, w') => f a w'
  | (Throw msg, w') => (Throw msg, w')
  end.

Definition throw {A} (msg : jsstring) : M A := fun w => (Throw msg, w).

Definition read_world {A} (f : world -> A) : M A := fun w => (Ok (f w), w).

(** A call to the store: it is logged, and it takes the next entry of the
    schedule. *)
Definition call_store (c : store_call) : M unit := fun w =>
  let w' := World (api w) (healthcheck w) (store_time w) (local_time w)
                  (development w) (tail (faults w)) (calls w ++ [c]) in
  match faults w with
  | Some msg :: _ => (Throw msg, w')
  | _ => (Ok tt, w')
  end.

Definition modify (f : world -> world) : M unit := fun w => (Ok tt, f w).

(** *** Document references *)

Fixpoint split_on (sep : N) (s : jsstring) : list jsstring :=
  match s with
  | [] => [[]]
  | c :: rest =>
      if c =? sep then [] :: split_on sep rest
      else match split_on sep rest with
           | seg :: segs => (c :: seg) :: segs
           | [] => [[c]]
           end
  end.

(** [db.collection('api').doc(id)]: the client library refuses, before any
    call, an argument that is not a non-empty string, one with an empty
    path segment, and one whose segments do not end on a document (an odd
    number of them under a collection).  The wording of its message is not
    modelled. *)
Definition doc (id : value) : M jsstring :=
  match id with
  | VString s =>
      let segs := split_on 47 s in
      if forallb (fun seg => negb (N.of_nat (length seg) =? 0)) segs
         && Nat.odd (length segs)
      then mret s
      else throw (str "not a valid document path")
  | _ => throw (str "not a valid document path")
  end.

(** [docRef.get()]: the snapshot, [None] when [doc.exists] is false. *)
Definition docRef_get (ref : jsstring) : M (option document) :=
  call_store (CallGet ref);; read_world (fun w => api w !! ref).

(** [docRef.set({name, jsonData, slug, createdAt: serverTimestamp(),
    updatedAt: serverTimestamp()})] *)
Definition docRef_set (ref : jsstring) (name jsonData slug : value) : M unit :=
  call_store (CallSet ref);;
  modify (fun w =>
    set_api (insert ref (Document name jsonData slug (store_time w) (store_time w))) w).

(** [docRef.update({jsonData, updatedAt: serverTimestamp()})]: the store
    rejects the update of a document that does not exist. *)
Definition docRef_update (ref : jsstring) (jsonData : value) : M unit :=
  call_store (CallUpdate ref);;
  old ← read_world (fun w => api w !! ref);
  match old with
  | None => throw (str "no document to update")
  | Some d =>
      modify (fun w =>
        set_api (insert ref (Document (doc_name d) jsonData (doc_slug d)
                                      (doc_createdAt d) (store_time w))) w)
  end.

(** [docRef.delete()] *)
Definition docRef_delete (ref : jsstring) : M unit :=
  call_store (CallDelete ref);;
  modify (set_api (delete ref)).

(** The documents directly in the collection, those whose id is a single
    path segment. *)
Definition in_collection (entry : jsstring * document) : bool :=
  forallb (fun c => negb (c =? 47)) (fst entry).

(** [db.collection('api').get()]; the order of the snapshot is the one of
    the map's enumeration. *)
Definition collection_get : M (list (jsstring * document)) :=
  call_store CallList;;
  read_world (fun w => filter (fun e => in_collection e = true) (map_to_list (api w))).

Definition newer (a b : jsstring * document) : Prop :=
  (doc_createdAt (snd b) <= doc_createdAt (snd a))%Z.

#[global] Instance newer_dec a b : Decision (newer a b).
Proof. unfold newer. apply _. Defined.

(** [db.collection('api').orderBy('createdAt', 'desc').get()] *)
Definition collection_get_ordered : M (list (jsstring * document)) :=
  snapshot ← collection_get;
  mret (merge_sort newer snapshot).

Definition health_set (data : value) : M unit :=
  call_store CallHealthSet;; modify (set_healthcheck (Some data)).

Definition health_get : M (option value) :=
  call_store CallHealthGet;; read_world healthcheck.

(** ** Requests, responses and routes

    A request is taken as it reaches the routes, past the middleware (CORS,
    body parser, rate limiter): a method, the decoded segments of its path,
    and the parsed body ([{}] when there is none). *)

Inductive http_method : Type := GET | POST | PUT | DELETE | OTHER.

#[global] Instance http_method_eq_dec : EqDecision http_method.
Proof. solve_decision. Defined.

Record request : Type := Request {
  req_method : http_method;
  req_path : list jsstring;
  req_body : value;
  req_params : list (jsstring * value)
}.

Record response : Type := Response {
  res_status : N;
  res_body : value
}.

Definition handler : Type := request -> world -> response * world.

(** An object literal is [obj [prop k1 v1; ...]]. *)
Definition obj (props : list (jsstring * value)) : value := VObject props.

Definition prop (k : string) (v : value) : jsstring * value := (str k, v).

Definition text (s : string) : value := VString (str s).

(** [req.params.name] *)
Definition param (req : request) (name : string) : value :=
  default VUndefined (lookup_prop (str name) (req_params req)).

(** [return res.status(code).json(body)] *)
Definition respond (code : N) (body : value) : world -> response * world :=
  fun w => (Response code body, w).

(** [try { ... } catch (error) { ... }] around a body that ends in a
    response; the handler of the error sees [error.message]. *)
Definition try_catch (body : M response) (on_error : jsstring -> world -> response)
  : world -> response * world :=
  fun w =>
    match body w with
    | (Ok r, w') => (r, w')
    | (Throw msg, w') => (on_error msg w', w')
    end.

(** A [Date], in the form [res.json] sends it. *)
Definition date (t : Z) : value := VString (toISOString t).

Inductive segment : Type :=
| Lit (s : string)
| Param (name : string).

Definition lower (c : N) : N := if (65 <=? c) && (c <=? 90) then c + 32 else c.

(** Routing is case-insensitive (the default); a parameter takes one
    non-empty segment. *)
Fixpoint match_path (pat : list segment) (p : list jsstring)
  : option (list (jsstring * value)) :=
  match pat, p with
  | [], [] => Some []
  | Lit s :: pat', seg :: p' =>
      if decide (map lower seg = map lower (str s)) then match_path pat' p' else None
  | Param name :: pat', seg :: p' =>
      match seg with
      | [] => None
      | _ => params ← match_path pat' p'; Some ((str name, VString seg) :: params)
      end
  | _, _ => None
  end.

Record route : Type := Route {
  route_method : http_method;
  route_path : list segment;
  route_handler : handler
}.

(** The routes are tried in the order of their registration; the first
    that matches answers. *)
Fixpoint dispatch (routes : list route) (fallback : handler) : handler :=
  fun req w =>
    match routes with
    | [] => fallback req w
    | r :: routes' =>
        match
          (if decide (route_method r = req_method req)
           then match_path (route_path r) (req_path req) else None)
        with
        | Some params =>
            route_handler r
              (Request (req_method req) (req_path req) (req_body req) params) w
        | None => dispatch routes' fallback req w
        end
    end.

(** ** [src/backend/server.js] *)

Module Flat.

Definition internal_error : jsstring -> world -> response :=
  fun _ _ => Response 500 (obj [prop "error" (text "Internal server error")]).

(** [app.post('/create', ...)] *)
Definition create : handler := fun req =>
  let name := get_prop (req_body req) "name" in
  let jsonData := get_prop (req_body req) "jsonData" in
  let slug := get_prop (req_body req) "slug" in
  if negb (truthy name) || negb (truthy jsonData) || negb (truthy slug) then
    respond 400 (obj [prop "error" (text "Missing required fields")])
  else if negb (validateSlug slug) then
    respond 400 (obj [prop "error" (text "Invalid slug format")])
  else
    let parsedJson := validateJSON jsonData in
    if negb (truthy parsedJson) then
      respond 400 (obj [prop "error" (text "Invalid JSON data")])
    else
      try_catch
        (docRef ← doc slug;
         snapshot ← docRef_get docRef;
         match snapshot with
         | Some _ => mret (Response 409 (obj [prop "error" (text "Slug already exists")]))
         | None =>
             let responseData :=
               obj [prop "result" (text "SUCCESS");
                    prop "data" parsedJson;
                    prop "message" (text "Success")] in
             docRef_set docRef name responseData slug;;
             mret (Response 201
                     (obj [prop "success" (VBool true);
                           prop "endpoint" (VString (str "/" ++ ToString slug));
                           prop "message" (text "API Created")]))
         end)
        internal_error.

(** [app.get('/:slug', ...)] *)
Definition read : handler := fun req =>
  try_catch
    (docRef ← doc (param req "slug");
     snapshot ← docRef_get docRef;
     match snapshot with
     | None => mret (Response 404 (obj [prop "error" (text "Endpoint not found")]))
     | Some data => mret (Response 200 (doc_jsonData data))
     end)
    internal_error.

(** [app.put('/:slug', ...)] *)
Definition update : handler := fun req =>
  let jsonData := get_prop (req_body req) "jsonData" in
  if negb (truthy jsonData) then
    respond 400 (obj [prop "error" (text "JSON data is required")])
  else
    let parsedJson := validateJSON jsonData in
    if negb (truthy parsedJson) then
      respond 400 (obj [prop "error" (text "Invalid JSON data")])
    else
      try_catch
        (docRef ← doc (param req "slug");
         snapshot ← docRef_get docRef;
         match snapshot with
         | None => mret (Response 404 (obj [prop "error" (text "Endpoint not found")]))
         | Some _ =>
             let responseData :=
               obj [prop "result" (text "SUCCESS");
                    prop "data" (VArray [parsedJson]);
                    prop "message" (text "Success")] in
             docRef_update docRef responseData;;
             mret (Response 200
                     (obj [prop "success" (VBool true); prop "message" (text "API Updated")]))
         end)
        internal_error.

(** [app.delete('/:slug', ...)] *)
Definition remove : handler := fun req =>
  try_catch
    (docRef ← doc (param req "slug");
     snapshot ← docRef_get docRef;
     match snapshot with
     | None => mret (Response 404 (obj [prop "error" (text "Endpoint not found")]))
     | Some _ =>
         docRef_delete docRef;;
         mret (Response 200
                 (obj [prop "success" (VBool true); prop "message" (text "API Deleted")]))
     end)
    internal_error.

(** [app.get('/', ...)] *)
Definition list_all : handler := fun req =>
  try_catch
    (snapshot ← collection_get_ordered;
     let endpoints :=
       map (fun entry =>
              obj [prop "slug" (doc_slug (snd entry));
                   prop "name" (doc_name (snd entry));
                   prop "createdAt" (date (doc_createdAt (snd entry)))]) snapshot in
     mret (Response 200 (obj [prop "endpoints" (VArray endpoints)])))
    internal_error.

(** [app.get('/health', ...)] *)
Definition health : handler := fun req w =>
  (Response 200 (obj [prop "status" (text "OK");
                      prop "timestamp" (VString (toISOString (local_time w)))]), w).

(** [app.use((req, res) => ...)], after the routes *)
Definition not_found : handler := fun req =>
  respond 404 (obj [prop "error" (text "Endpoint not found")]).

(** The routes, in the order the file registers them. *)
Definition routes : list route :=
  [ Route POST [Lit "create"] create;
    Route GET [Param "slug"] read;
    Route PUT [Param "slug"] update;
    Route DELETE [Param "slug"] remove;
    Route GET [] list_all;
    Route GET [Lit "health"] health ].

Definition app : handler := dispatch routes not_found.

End Flat.

(** ** [src/unnamed/part_000], first file *)

Module Prefixed.

(** The body of the [catch] blocks: the detail is given in development
    only. *)
Definition internal_error : jsstring -> world -> response :=
  fun message w =>
    Response 500
      (obj [prop "error" (text "Internal server error");
            prop "details" (if development w then VString message else VUndefined)]).

(** [app.get('/api/health', ...)] *)
Definition api_health : handler := fun req w =>
  (Response 200 (obj [prop "status" (text "OK");
                      prop "message" (text "API is running");
                      prop "timestamp" (VString (toISOString (local_time w)))]), w).

(** [app.post('/api/create', ...)] *)
Definition create : handler := fun req =>
  let name := get_prop (req_body req) "name" in
  let jsonData := get_prop (req_body req) "jsonData" in
  let slug := get_prop (req_body req) "slug" in
  if negb (truthy name) || negb (truthy jsonData) || negb (truthy slug) then
    respond 400 (obj [prop "error" (text "Missing required fields")])
  else if negb (validateSlug slug) then
    respond 400
      (obj [prop "error"
              (text "Invalid slug format. Only lowercase letters, numbers, and hyphens are allowed.")])
  else
    let parsedJson := validateJSON jsonData in
    if negb (truthy parsedJson) then
      respond 400 (obj [prop "error" (text "Invalid JSON data")])
    else
      try_catch
        (docRef ← doc slug;
         snapshot ← docRef_get docRef;
         match snapshot with
         | Some _ => mret (Response 409 (obj [prop "error" (text "Slug already exists")]))
         | None =>
             docRef_set docRef name parsedJson slug;;
             mret (Response 201
                     (obj [prop "success" (VBool true);
                           prop "endpoint" (VString (str "/api/" ++ ToString slug));
                           prop "message" (text "API endpoint created successfully")]))
         end)
        internal_error.

(** [app.get('/api/:slug', ...)] *)
Definition read : handler := fun req =>
  let slug := param req "slug" in
  if negb (validateSlug slug) then
    respond 400 (obj [prop "error" (text "Invalid slug format")])
  else
    try_catch
      (docRef ← doc slug;
       snapshot ← docRef_get docRef;
       match snapshot with
       | None => mret (Response 404 (obj [prop "error" (text "Endpoint not found")]))
       | Some data => mret (Response 200 (doc_jsonData data))
       end)
      internal_error.

(** [app.put('/api/:slug', ...)] *)
Definition update : handler := fun req =>
  let slug := param req "slug" in
  let jsonData := get_prop (req_body req) "jsonData" in
  if negb (validateSlug slug) then
    respond 400 (obj [prop "error" (text "Invalid slug format")])
  else
    let parsedJson := validateJSON jsonData in
    if negb (truthy parsedJson) then
      respond 400 (obj [prop "error" (text "Invalid JSON data")])
    else
      try_catch
        (docRef ← doc slug;
         snapshot ← docRef_get docRef;
         match snapshot with
         | None => mret (Response 404 (obj [prop "error" (text "Endpoint not found")]))
         | Some _ =>
             docRef_update docRef parsedJson;;
             mret (Response 200
                     (obj [prop "success" (VBool true);
                           prop "message" (text "Endpoint updated successfully")]))
         end)
        internal_error.

(** [app.delete('/api/:slug', ...)] *)
Definition remove : handler := fun req =>
  let slug := param req "slug" in
  if negb (validateSlug slug) then
    respond 400 (obj [prop "error" (text "Invalid slug format")])
  else
    try_catch
      (docRef ← doc slug;
       snapshot ← docRef_get docRef;
       match snapshot with
       | None => mret (Response 404 (obj [prop "error" (text "Endpoint not found")]))
       | Some _ =>
           docRef_delete docRef;;
           mret (Response 200
                   (obj [prop "success" (VBool true);
                         prop "message" (text "Endpoint deleted successfully")]))
       end)
      internal_error.

(** [app.get('/api', ...)] *)
Definition list_all : handler := fun req =>
  try_catch
    (snapshot ← collection_get;
     let endpoints :=
       map (fun entry =>
              obj [prop "slug" (VString (fst entry));
                   prop "name" (doc_name (snd entry));
                   prop "createdAt" (VString (toISOString (doc_createdAt (snd entry))));
                   prop "endpoint" (VString (str "/api/" ++ fst entry))]) snapshot in
     mret (Response 200
             (obj [prop "count" (VNumber (of_nat_number (length endpoints)));
                   prop "endpoints" (VArray endpoints)])))
    internal_error.

(** [app.get('/health', ...)]: a write and a read of [healthcheck/test]. *)
Definition health : handler := fun req =>
  try_catch
    (stamp ← read_world local_time;
     health_set (obj [prop "timestamp" (VString (toISOString stamp))]);;
     snapshot ← health_get;
     now ← read_world local_time;
     mret (Response 200
             (obj [prop "status" (text "OK");
                   prop "firebase" (VBool true);
                   prop "database" (VBool (bool_decide (is_Some snapshot)));
                   prop "timestamp" (VString (toISOString now))])))
    (fun message w =>
       Response 500
         (obj [prop "status" (text "ERROR");
               prop "error" (VString message);
               prop "timestamp" (VString (toISOString (local_time w)))])).

(** [app.get('/', ...)] *)
Definition root : handler := fun req =>
  respond 200
    (obj [prop "message" (text "JSONSpark API Service");
          prop "version" (text "1.0.0");
          prop "endpoints"
            (obj [prop "healthCheck" (text "/health");
                  prop "apiDocumentation" (text "Coming soon");
                  prop "availableEndpoints"
                    (VArray [text "GET /api/health"; text "POST /api/create";
                             text "GET /api/:slug"; text "PUT /api/:slug";
                             text "DELETE /api/:slug"; text "GET /api"])])]).

(** [app.all('*', ...)] *)
Definition not_found : handler := fun req =>
  respond 404
    (obj [prop "error" (text "Endpoint not found");
          prop "availableEndpoints"
            (VArray [text "GET /"; text "GET /health"; text "GET /api/health";
                     text "POST /api/create"; text "GET /api/:slug";
                     text "PUT /api/:slug"; text "DELETE /api/:slug";
                     text "GET /api"])]).

(** The routes, in the order the file registers them. *)
Definition routes : list route :=
  [ Route GET [Lit "api"; Lit "health"] api_health;
    Route POST [Lit "api"; Lit "create"] create;
    Route GET [Lit "api"; Param "slug"] read;
    Route PUT [Lit "api"; Param "slug"] update;
    Route DELETE [Lit "api"; Param "slug"] remove;
    Route GET [Lit "api"] list_all;
    Route GET [Lit "health"] health;
    Route GET [] root ].

Definition app : handler := dispatch routes not_found.

End Prefixed.

(** ** Vocabulary of the properties *)

(** The spec's wording of a slug character: a lowercase ASCII letter, a
    digit or a hyphen. *)
Definition is_lowercase_letter (c : N) : bool := (97 <=? c) && (c <=? 122).
Definition is_decimal_digit (c : N) : bool := (48 <=? c) && (c <=? 57).
Definition is_hyphen (c : N) : bool := c =? 45.

Definition is_slug_char (c : N) : bool :=
  is_lowercase_letter c || is_decimal_digit c || is_hyphen c.

(** The next call to the store goes through. *)
Definition next_call_ok (w : world) : Prop :=
  match faults w with
  | Some _ :: _ => False
  | _ => True
  end.

(** The next two calls to the store go through. *)
Definition next_calls_ok (w : world) : Prop :=
  match faults w with
  | Some _ :: _ => False
  | _ :: Some _ :: _ => False
  | _ => True
  end.


(** What the create handlers check before they turn to the store: the
    three fields are present (truthy), the slug has the slug format, and
    the JSON text parses. *)
Definition create_input_invalid (body : value) : Prop :=
  truthy (get_prop body "name") = false
  \/ truthy (get_prop body "jsonData") = false
  \/ truthy (get_prop body "slug") = false
  \/ validateSlug (get_prop body "slug") = false
  \/ JSON.parse (ToString (get_prop body "jsonData")) = None.

(** A store with no document, no fault scheduled and no call made yet. *)
Definition fresh_world : world := World ∅ None 0 0 false [] [].

(** [{name, jsonData, slug}] *)
Definition create_body (name jsonData slug : string) : value :=
  obj [prop "name" (text name); prop "jsonData" (text jsonData); prop "slug" (text slug)].

(** A create request that passes the checks made before the store. *)
Definition create_input_accepted (body : value) : Prop :=
  truthy (get_prop body "name") = true
  /\ truthy (get_prop body "jsonData") = true
  /\ truthy (get_prop body "slug") = true
  /\ validateSlug (get_prop body "slug") = true
  /\ truthy (validateJSON (get_prop body "jsonData")) = true.

(** The envelope the first server puts around the data at creation. *)
Definition flat_envelope (data : value) : value :=
  obj [prop "result" (text "SUCCESS"); prop "data" data; prop "message" (text "Success")].

(** What a successful create of server [create] leaves behind, [stored]
    being what the server makes of the parsed data. *)
Definition created (stored : value -> value) (req : request) (w w1 : world) : Prop :=
  create_input_accepted (req_body req)
  /\ exists s,
      get_prop (req_body req) "slug" = VString s
      /\ api w !! s = None
      /\ api w1 = <[s := Document (get_prop (req_body req) "name")
                           (stored (validateJSON (get_prop (req_body req) "jsonData")))
                           (VString s) (store_time w) (store_time w)]> (api w)
      /\ store_time w1 = store_time w
      /\ faults w1 = tail (tail (faults w))
      /\ calls w1 = calls w ++ [CallGet s; CallSet s].

(** The two servers, and the requests a client sends to each. *)
Inductive server : Type := FlatServer | PrefixedServer.

Definition app_of (sv : server) : handler :=
  match sv with
  | FlatServer => Flat.app
  | PrefixedServer => Prefixed.app
  end.

Definition prefix_of (sv : server) : list jsstring :=
  match sv with
  | FlatServer => []
  | PrefixedServer => [str "api"]
  end.

(** [POST /create] or [POST /api/create] *)
Definition create_request (sv : server) (body : value) : request :=
  Request POST (prefix_of sv ++ [str "create"]) body [].

(** [GET /:slug] or [GET /api/:slug] *)
Definition read_request (sv : server) (slug : jsstring) : request :=
  Request GET (prefix_of sv ++ [slug]) (obj []) [].

(** [PUT /:slug] or [PUT /api/:slug] *)
Definition update_request (sv : server) (slug : jsstring) (body : value) : request :=
  Request PUT (prefix_of sv ++ [slug]) body [].

(** [DELETE /:slug] or [DELETE /api/:slug] *)
Definition delete_request (sv : server) (slug : jsstring) : request :=
  Request DELETE (prefix_of sv ++ [slug]) (obj []) [].

(** [GET /] or [GET /api] *)
Definition list_request (sv : server) : request :=
  Request GET (prefix_of sv) (obj []) [].

(** What each server stores for parsed data: at creation, the first wraps
    it in its envelope and the second stores it as it is; at update, the
    first puts it in a one-element array inside the envelope. *)
Definition stored_at_create (sv : server) (parsed : value) : value :=
  match sv with
  | FlatServer => flat_envelope parsed
  | PrefixedServer => parsed
  end.


(** The request as the router hands it to the handler of a slug route. *)
Definition with_slug (req : request) (s : jsstring) : request :=
  Request (req_method req) (req_path req) (req_body req) [(str "slug", VString s)].


(** The worlds a server can be in: it starts on an empty collection; then
    requests are served, time passes, and the store's failures to come are
    whatever they are. *)
Inductive reachable (sv : server) : world -> Prop :=
| reach_start w : api w = ∅ -> reachable sv w
| reach_request req w : reachable sv w -> reachable sv (snd (app_of sv req w))
| reach_time ds dl w : reachable sv w -> reachable sv (advance ds dl w)
| reach_faults fs w : reachable sv w -> reachable sv (set_faults fs w).

(** What serving one request can do to the collection. *)
Inductive effect (w w' : world) : Prop :=
| effect_none :
    api w' = api w -> effect w w'
| effect_create s name jsonData slug :
    validateSlug (VString s) = true ->
    api w !! s = None ->
    api w' = <[s := Document name jsonData slug (store_time w) (store_time w)]> (api w) ->
    effect w w'
| effect_update s d jsonData :
    api w !! s = Some d ->
    api w' = <[s := Document (doc_name d) jsonData (doc_slug d)
                      (doc_createdAt d) (store_time w)]> (api w) ->
    effect w w'
| effect_delete s :
    api w' = delete s (api w) -> effect w w'.

(** Serving a request has one of the four effects and leaves the store's
    clock alone. *)
Definition has_effect (h : handler) : Prop :=
  forall req w, effect w (snd (h req w)) /\ store_time (snd (h req w)) = store_time w.

(** The documents of the collection, in the order of a snapshot. *)
Definition collection_docs (w : world) : list (jsstring * document) :=
  filter (fun e => in_collection e = true) (map_to_list (api w)).

(** The entry of a document in the listing of each server. *)
Definition flat_entry (e : jsstring * document) : value :=
  obj [prop "slug" (doc_slug (snd e));
       prop "name" (doc_name (snd e));
       prop "createdAt" (VString (toISOString (doc_createdAt (snd e))))].

Definition prefixed_entry (e : jsstring * document) : value :=
  obj [prop "slug" (VString (fst e));
       prop "name" (doc_name (snd e));
       prop "createdAt" (VString (toISOString (doc_createdAt (snd e))));
       prop "endpoint" (VString (str "/api/" ++ fst e))].

(** The names of the properties of an object. *)
Definition keys (v : value) : list jsstring :=
  match v with
  | VObject props => map fst props
  | _ => []
  end.

(** Every document is filed under a slug. *)
Definition ids_are_slugs (w : world) : Prop :=
  forall id d, api w !! id = Some d -> validateSlug (VString id) = true.

(** Two worlds used in the examples: after one create on the second
    server, and some time later. *)
Definition created_world : world :=
  snd (app_of PrefixedServer
         (create_request PrefixedServer (create_body "Widgets" "[1]" "widgets"))
         fresh_world).

Definition later_world : world := advance 7 7 created_world.

(** The answer of the create and update handlers to JSON they take for
    invalid. *)
Definition invalid_json_response : response :=
  Response 400 (obj [prop "error" (text "Invalid JSON data")]).

(** The falsy values among those [JSON.parse] can return. *)
Definition falsy_json (v : value) : Prop :=
  v = VNull \/ v = VBool false \/ (exists x, v = VNumber x /\ mant x = 0%Z) \/ v = VString [].

(** The texts after which a run of digits, and a number literal, end. *)
Definition not_digit_head (rest : jsstring) : Prop :=
  match rest with
  | [] => True
  | c :: _ => JSON.is_digit c = false
  end.

Definition head_is_not (c : N) (rest : jsstring) : Prop :=
  match rest with
  | [] => True
  | d :: _ => d <> c
  end.

Definition ends_number (rest : jsstring) : Prop :=
  match rest with
  | [] => True
  | c :: _ => JSON.is_digit c = false /\ c <> 46 /\ c <> 101 /\ c <> 69
  end.

(** The numbers JSON can represent in this model: in normal form, and not
    so small that the literal would be read as zero. *)
Definition representable_number (x : number) : Prop :=
  normal x /\ underflows (mant x) (expo x) = false.

Definition code_unit (c : N) : Prop := c < 65536.

(** The values JSON can represent: no [undefined] anywhere, numbers that
    are representable, strings made of 16-bit code units, objects whose
    property names are distinct. *)
#[local] Unset Elimination Schemes.

Inductive representable : value -> Prop :=
| rep_null : representable VNull
| rep_bool b : representable (VBool b)
| rep_number x : representable_number x -> representable (VNumber x)
| rep_string s : Forall code_unit s -> representable (VString s)
| rep_array items : Forall representable items -> representable (VArray items)
| rep_object props :
    NoDup (map fst props) ->
    Forall (fun kv => Forall code_unit (fst kv) /\ representable (snd kv)) props ->
    representable (VObject props).

#[local] Set Elimination Schemes.

(** The texts a value can start with in the output of [JSON.stringify],
    and the texts that can follow a value there. *)
Definition starts_value (t : jsstring) : Prop :=
  exists c t', t = c :: t' /\ JSON.is_ws c = false /\ c <> 93 /\ c <> 125.

Definition ends_value (rest : jsstring) : Prop :=
  match rest with
  | [] => True
  | c :: _ => c = 44 \/ c = 93 \/ c = 125
  end.

(** A value is read back from its text [t], whatever follows. *)
Definition reads_back (v : value) (t : jsstring) : Prop :=
  starts_value t
  /\ forall fuel rest,
       (length t < fuel)%nat -> ends_value rest ->
       JSON.parse_value fuel (t ++ rest) = Some (v, rest).

(** A member of an object and its text. *)
Definition member_text (kv : jsstring * value) (mt : jsstring) : Prop :=
  exists t, mt = JSON.quote (fst kv) ++ 58 :: t
            /\ Forall code_unit (fst kv) /\ reads_back (snd kv) t.


(** Three facts about the fuel of the parser, for all three functions:
    a successful call leaves less text than it was given; fuel above twice
    the length of the text is as good as any; more fuel keeps an answer. *)
Definition consumes (fuel : nat) : Prop :=
  (forall s v r, JSON.parse_value fuel s = Some (v, r) -> (length r < length s)%nat)
  /\ (forall s acc v r,
        JSON.parse_elements fuel s acc = Some (v, r) -> (length r < length s)%nat)
  /\ (forall s acc v r,
        JSON.parse_members fuel s acc = Some (v, r) -> (length r < length s)%nat).

(** If some fuel lets the parser accept a text, so does any fuel above
    twice the length of the text. *)
Definition enough (fuel' : nat) : Prop :=
  (forall s fuel res,
     JSON.parse_value fuel' s = Some res -> (2 * length s < fuel)%nat ->
     JSON.parse_value fuel s = Some res)
  /\ (forall s acc fuel res,
        JSON.parse_elements fuel' s acc = Some res -> (2 * length s + 1 < fuel)%nat ->
        JSON.parse_elements fuel s acc = Some res)
  /\ (forall s acc fuel res,
        JSON.parse_members fuel' s acc = Some res -> (2 * length s + 1 < fuel)%nat ->
        JSON.parse_members fuel s acc = Some res).

(** More fuel does not change an answer. *)
Definition stable (fuel : nat) : Prop :=
  (forall s res,
     JSON.parse_value fuel s = Some res -> JSON.parse_value (S fuel) s = Some res)
  /\ (forall s acc res,
        JSON.parse_elements fuel s acc = Some res ->
        JSON.parse_elements (S fuel) s acc = Some res)
  /\ (forall s acc res,
        JSON.parse_members fuel s acc = Some res ->
        JSON.parse_members (S fuel) s acc = Some res).


(** ** The JSON grammar

    What "syntactically valid JSON" means, written as the grammar of the
    JSON standard with the value each text denotes; it is stated on its
    own, without the parser. *)

Module Grammar.

Definition whitespace (w : jsstring) : Prop :=
  Forall (fun c => JSON.is_ws c = true) w.

Definition all_digits (ds : jsstring) : Prop :=
  Forall (fun c => JSON.is_digit c = true) ds.

(** The characters between the quotes of a string literal, and the string
    they denote. *)
Inductive string_body : jsstring -> jsstring -> Prop :=
| body_end : string_body [] []
| body_char c body s :
    c <> 34 -> c <> 92 -> 32 <= c ->
    string_body body s -> string_body (c :: body) (c :: s)
| body_escape e u body s :
    JSON.simple_escape e = Some u ->
    string_body body s -> string_body (92 :: e :: body) (u :: s)
| body_unicode h1 h2 h3 h4 u body s :
    JSON.hex4 h1 h2 h3 h4 = Some u ->
    string_body body s ->
    string_body (92 :: 117 :: h1 :: h2 :: h3 :: h4 :: body) (u :: s).

(** The integer part of a number: a zero, or digits with no leading zero. *)
Inductive int_part : jsstring -> Prop :=
| int_zero : int_part [48]
| int_digits d ds :
    JSON.is_digit d = true -> d <> 48 -> all_digits ds -> int_part (d :: ds).

(** The fraction: nothing, or a dot and digits; with its digits. *)
Inductive frac_part : jsstring -> jsstring -> Prop :=
| frac_none : frac_part [] []
| frac_some ds : ds <> [] -> all_digits ds -> frac_part (46 :: ds) ds.

(** The sign of an exponent: nothing, a plus or a minus. *)
Inductive exp_sign : jsstring -> bool -> Prop :=
| exp_sign_none : exp_sign [] false
| exp_sign_plus : exp_sign [43] false
| exp_sign_minus : exp_sign [45] true.

(** The exponent: nothing, or [e] or [E], a sign and digits; with its
    value. *)
Inductive exp_part : jsstring -> Z -> Prop :=
| exp_none : exp_part [] 0%Z
| exp_some c sign neg ds :
    c = 101 \/ c = 69 -> exp_sign sign neg -> ds <> [] -> all_digits ds ->
    exp_part (c :: sign ++ ds)
      (if neg then - Z.of_N (JSON.digits_value ds) else Z.of_N (JSON.digits_value ds)).

Inductive number_text : jsstring -> number -> Prop :=
| number_intro (neg : bool) int frac_text frac exp_text e :
    int_part int -> frac_part frac_text frac -> exp_part exp_text e ->
    number_text ((if neg then [45] else []) ++ int ++ frac_text ++ exp_text)
      (JSON.number_of_literal neg (int ++ frac) (e - Z.of_nat (length frac))).

(** A value, with no white space around it; the elements of an array and
    the members of an object, with the white space around each, after the
    elements or members [acc] read before them. *)
Inductive value_text : jsstring -> value -> Prop :=
| text_null : value_text (str "null") VNull
| text_true : value_text (str "true") (VBool true)
| text_false : value_text (str "false") (VBool false)
| text_number t x : number_text t x -> value_text t (VNumber x)
| text_string body s :
    string_body body s -> value_text (34 :: body ++ [34]) (VString s)
| text_array_empty w :
    whitespace w -> value_text (91 :: w ++ [93]) (VArray [])
| text_array t items :
    elements_text t [] items -> value_text (91 :: t ++ [93]) (VArray items)
| text_object_empty w :
    whitespace w -> value_text (123 :: w ++ [125]) (VObject [])
| text_object t props :
    members_text t [] props -> value_text (123 :: t ++ [125]) (VObject props)
with elements_text : jsstring -> list value -> list value -> Prop :=
| elements_last w1 t w2 v acc :
    whitespace w1 -> whitespace w2 -> value_text t v ->
    elements_text (w1 ++ t ++ w2) acc (acc ++ [v])
| elements_more w1 t w2 v rest acc items :
    whitespace w1 -> whitespace w2 -> value_text t v ->
    elements_text rest (acc ++ [v]) items ->
    elements_text (w1 ++ t ++ w2 ++ 44 :: rest) acc items
with members_text : jsstring -> list (jsstring * value) -> list (jsstring * value) -> Prop :=
| members_last w1 body k w2 w3 t w4 v acc :
    whitespace w1 -> whitespace w2 -> whitespace w3 -> whitespace w4 ->
    string_body body k -> value_text t v ->
    members_text (w1 ++ 34 :: body ++ 34 :: w2 ++ 58 :: w3 ++ t ++ w4) acc
      (set_prop k v acc)
| members_more w1 body k w2 w3 t w4 v rest acc props :
    whitespace w1 -> whitespace w2 -> whitespace w3 -> whitespace w4 ->
    string_body body k -> value_text t v ->
    members_text rest (set_prop k v acc) props ->
    members_text (w1 ++ 34 :: body ++ 34 :: w2 ++ 58 :: w3 ++ t ++ w4 ++ 44 :: rest)
      acc props.

Scheme value_text_mut := Minimality for value_text Sort Prop
  with elements_text_mut := Minimality for elements_text Sort Prop
  with members_text_mut := Minimality for members_text Sort Prop.

(** A JSON text: a value with white space around it. *)
Definition json_text (s : jsstring) (v : value) : Prop :=
  exists w1 t w2,
    s = w1 ++ t ++ w2 /\ whitespace w1 /\ whitespace w2 /\ value_text t v.

End Grammar.

(** ** Vocabulary of the further properties *)

(** The answer to a request for a slug that has no document. *)
Definition not_found_response : response :=
  Response 404 (obj [prop "error" (text "Endpoint not found")]).

(** The world after one more call [c] that went through. *)
Definition after_call (c : store_call) (w : world) : world :=
  World (api w) (healthcheck w) (store_time w) (local_time w) (development w)
        (tail (faults w)) (calls w ++ [c]).

(** The answers of the two servers to a delete that went through. *)
Definition deleted_response (sv : server) : response :=
  Response 200
    (obj [prop "success" (VBool true);
          prop "message"
            (match sv with
             | FlatServer => text "API Deleted"
             | PrefixedServer => text "Endpoint deleted successfully"
             end)]).

(** The answers of the two servers to a create that went through: the
    path under which the document is served, and a message. *)
Definition created_response (sv : server) (slug : jsstring) : response :=
  Response 201
    (obj [prop "success" (VBool true);
          prop "endpoint"
            (match sv with
             | FlatServer => VString (str "/" ++ slug)
             | PrefixedServer => VString (str "/api/" ++ slug)
             end);
          prop "message"
            (match sv with
             | FlatServer => text "API Created"
             | PrefixedServer => text "API endpoint created successfully"
             end)]).

(** The world after two more calls that went through. *)
Definition after_calls (c1 c2 : store_call) (w : world) : world :=
  after_call c2 (after_call c1 w).

(** A refusal: the request is turned down for what it asks, not for a
    failure of the store. *)
Definition is_refusal (status : N) : Prop :=
  status = 400 \/ status = 404 \/ status = 409.

(** A handler that refuses has at most looked a document up: the world is
    as it was, or as it is after one [get] that went through. *)
Definition refuses_without_writing (h : handler) : Prop :=
  forall req w,
    is_refusal (res_status (fst (h req w))) ->
    snd (h req w) = w \/ exists id, snd (h req w) = after_call (CallGet id) w.

(** What a handler does when the store rejects the first call that is made
    to it with message [msg]: it has made no call, or it has made that one
    call and answers [on_error], which is given the call, the message and
    the world. *)
Definition fails_with (on_error : store_call -> jsstring -> world -> response)
    (h : handler) : Prop :=
  forall req w msg fs,
    faults w = Some msg :: fs ->
    calls (snd (h req w)) = calls w
    \/ exists c,
         calls (snd (h req w)) = calls w ++ [c]
         /\ api (snd (h req w)) = api w
         /\ fst (h req w) = on_error c msg w.

(** The answers of the two servers to a failure of the store. *)
Definition flat_failure : store_call -> jsstring -> world -> response :=
  fun _ _ _ => Response 500 (obj [prop "error" (text "Internal server error")]).

Definition prefixed_failure : store_call -> jsstring -> world -> response :=
  fun c msg w =>
    match c with
    | CallHealthSet | CallHealthGet =>
        Response 500 (obj [prop "status" (text "ERROR");
                           prop "error" (VString msg);
                           prop "timestamp" (VString (toISOString (local_time w)))])
    | _ =>
        Response 500
          (obj [prop "error" (text "Internal server error");
                prop "details" (if development w then VString msg else VUndefined)])
    end.

Definition failure_of (sv : server) : store_call -> jsstring -> world -> response :=
  match sv with
  | FlatServer => flat_failure
  | PrefixedServer => prefixed_failure
  end.

(** A world whose store rejects the next call. *)
Definition failing_world : world := set_faults [Some (str "unavailable")] fresh_world.


Definition health_ok_body (w : world) : value :=
  obj [prop "status" (text "OK");
       prop "firebase" (VBool true);
       prop "database" (VBool true);
       prop "timestamp" (VString (toISOString (local_time w)))].

Definition health_error_body (msg : jsstring) (w : world) : value :=
  obj [prop "status" (text "ERROR");
       prop "error" (VString msg);
       prop "timestamp" (VString (toISOString (local_time w)))].

(** The document the health check writes. *)
Definition health_stamp (w : world) : value :=
  obj [prop "timestamp" (VString (toISOString (local_time w)))].


(** What each server keeps as the [jsonData] of a document: the first its
    envelope around data that is truthy, the second a truthy value. *)
Definition stored_data_ok (sv : server) (v : value) : Prop :=
  match sv with
  | FlatServer => exists data, v = flat_envelope data /\ truthy data = true
  | PrefixedServer => truthy v = true
  end.

(** A document as the handlers write them, filed under [id]. *)
Definition document_ok (sv : server) (id : jsstring) (d : document) : Prop :=
  validateSlug (VString id) = true
  /\ doc_slug d = VString id
  /\ truthy (doc_name d) = true
  /\ stored_data_ok sv (doc_jsonData d).

Definition documents_ok (sv : server) (w : world) : Prop :=
  forall id d, api w !! id = Some d -> document_ok sv id d.

Definition keeps_documents_ok (sv : server) (h : handler) : Prop :=
  forall req w, documents_ok sv w -> documents_ok sv (snd (h req w)).

(** The world after one create on the first server. *)
Definition flat_created_world : world :=
  snd (app_of FlatServer
         (create_request FlatServer (create_body "Widgets" "[1]" "widgets"))
         fresh_world).

(** The slugs a listing shows, in its order. *)
Definition listed_slugs (entries : list value) : list value :=
  map (fun e => get_prop e "slug") entries.

(** The form of every answer: a success, 200 or 201, or one of four error
    statuses with a body whose [error] is a string; the string is not
    empty, unless it is the message of the store in the answer of the
    health check ([status: "ERROR"]). *)
Definition well_formed_answer (r : response) : Prop :=
  res_status r = 200 \/ res_status r = 201
  \/ (is_refusal (res_status r) \/ res_status r = 500)
     /\ exists msg,
          get_prop (res_body r) "error" = VString msg
          /\ (msg <> [] \/ get_prop (res_body r) "status" = text "ERROR").

(** The properties of an object that JSON can represent: distinct names
    made of code units, representable values. *)
Definition representable_props (props : list (jsstring * value)) : Prop :=
  NoDup (map fst props)
  /\ Forall (fun kv => Forall code_unit (fst kv) /\ representable (snd kv)) props.

(** ** Indented JSON texts

    [JSON.stringify(v, null, 2)]: the text of [v] with a gap of two spaces.
    An array or object that is not empty is written one element or member
    per line, each line starting with the indentation of its level; a
    member is its quoted name, a colon, a space and its value; [None]
    stands for the result [undefined]. *)
Definition gap : jsstring := [32; 32].

Fixpoint stringify_indented (indent : jsstring) (v : value) : option jsstring :=
  match v with
  | VUndefined => None
  | VNull => Some (str "null")
  | VBool true => Some (str "true")
  | VBool false => Some (str "false")
  | VNumber x => Some (Number_toString x)
  | VString s => Some (JSON.quote s)
  | VArray items =>
      let stepback := indent in
      let indent := indent ++ gap in
      match map (fun item => default (str "null") (stringify_indented indent item)) items with
      | [] => Some (str "[]")
      | partial =>
          Some ([91; 10] ++ indent ++ join ([44; 10] ++ indent) partial
                  ++ [10] ++ stepback ++ [93])
      end
  | VObject props =>
      let stepback := indent in
      let indent := indent ++ gap in
      match omap (fun kv => t ← stringify_indented indent (snd kv);
                            Some (JSON.quote (fst kv) ++ [58; 32] ++ t)) props with
      | [] => Some (str "{}")
      | partial =>
          Some ([123; 10] ++ indent ++ join ([44; 10] ++ indent) partial
                  ++ [10] ++ stepback ++ [125])
      end
  end.


(** ** [src/frontend/src/App.jsx]

    The component's state and its handlers that talk to the service or
    treat the JSON of the editor.  The service is a parameter, the handler
    behind [API_BASE_URL]; a request made with axios reaches it as it is
    sent.  The state is taken once the requests a handler started have
    been answered.  The editor
    shows [jsonInput] and reports every change to it, so its text is
    [jsonInput].  The theme, the clipboard and the hover state are left
    out; no handler below reads or writes them. *)

(** The wording of the errors the engine raises is its own. *)
Record engine : Type := Engine {
  syntax_error_message : jsstring -> jsstring;  (* of [JSON.parse(text)] *)
  type_error_message : jsstring                 (* of reading a property of [null] *)
}.

(** The path of the URL [base/s], for an [s] made of characters a URL
    path takes as they are: letters, digits, [-], [_] and [~].  Other
    characters are escaped, split the path or end it; that is not
    modelled, and the path is [None]. *)
Definition is_path_char (c : N) : bool :=
  is_slug_char c || ((65 <=? c) && (c <=? 90)) || (c =? 95) || (c =? 126).

Definition url_path (s : jsstring) : option (list jsstring) :=
  if forallb is_path_char s
  then Some (match s with [] => [] | _ => [s] end)
  else None.

Module App.

(** axios resolves a request answered with a status from 200 to 299 and
    rejects it otherwise, with an error that holds the answer and whose
    message names the status. *)
Definition resolved (r : response) : bool :=
  (200 <=? res_status r) && (res_status r <? 300).

Definition axios_message (r : response) : jsstring :=
  str "Request failed with status code " ++ digits (res_status r).

(** [response.data], the body of an answer as axios hands it over: the
    JSON value the handler gave to [res.json]; an answer without a body
    gives the empty string.  A property whose value is [undefined], which
    [res.json] leaves out, is kept here: nothing below depends on one. *)
Definition data (r : response) : value :=
  match res_body r with
  | VUndefined => VString []
  | body => body
  end.

(** [err.response?.data?.error || err.message], for a rejected request *)
Definition error_shown (r : response) : value :=
  let e := get_prop (data r) "error" in
  if truthy e then e else VString (axios_message r).

Record state : Type := State {
  name : jsstring;
  jsonInput : jsstring;
  response : value;
  error : value;
  loading : bool;
  endpoints : value
}.

Definition setJsonInput (v : jsstring) (u : state) : state :=
  State (name u) v (response u) (error u) (loading u) (endpoints u).
Definition setResponse (v : value) (u : state) : state :=
  State (name u) (jsonInput u) v (error u) (loading u) (endpoints u).
Definition setError (v : value) (u : state) : state :=
  State (name u) (jsonInput u) (response u) v (loading u) (endpoints u).
Definition setLoading (v : bool) (u : state) : state :=
  State (name u) (jsonInput u) (response u) (error u) v (endpoints u).
Definition setEndpoints (v : value) (u : state) : state :=
  State (name u) (jsonInput u) (response u) (error u) (loading u) v.

(** <<
const fetchEndpoints = async () => {
  try {
    const response = await axios.get(`${API_BASE_URL}/`);
    setEndpoints(response.data.endpoints);
  } catch (err) { setError(err.response?.data?.error || err.message); }
};
>> *)
Definition fetchEndpoints (eng : engine) (service : handler) (u : state) (w : world)
  : state * world :=
  let '(r, w') := service (Request GET [] (obj []) []) w in
  if resolved r then
    match data r with
    | VNull => (setError (VString (type_error_message eng)) u, w')
    | body => (setEndpoints (get_prop body "endpoints") u, w')
    end
  else (setError (error_shown r) u, w').

(** [validateJson]: [None] stands for the error it throws. *)
Definition validateJson (u : state) : option value := JSON.parse (jsonInput u).

(** The message of that error: a cross mark, ["Invalid JSON: "] and the
    message of the engine. *)
Definition invalid_json (eng : engine) (u : state) : jsstring :=
  [10060; 32] ++ str "Invalid JSON: " ++ syntax_error_message eng (jsonInput u).

(** [JSON.stringify(v)] and [JSON.stringify(v, null, 2)] as values *)
Definition stringified (o : option jsstring) : value :=
  match o with
  | Some t => VString t
  | None => VUndefined
  end.

(** <<
const handleGenerate = async () => {
  setResponse(''); setError(''); setLoading(true);
  try {
    const parsedJson = validateJson();
    const result = await axios.post(`${API_BASE_URL}/create`,
      { name, jsonData: JSON.stringify(parsedJson), slug: name });
    setResponse(JSON.stringify(result.data, null, 2));
    fetchEndpoints();
  } catch (err) { setError(err.response?.data?.error || err.message); }
  finally { setLoading(false); }
};
>> *)
Definition handleGenerate (eng : engine) (service : handler) (u : state) (w : world)
  : state * world :=
  let u := setLoading true (setError (VString []) (setResponse (VString []) u)) in
  match validateJson u with
  | None => (setLoading false (setError (VString (invalid_json eng u)) u), w)
  | Some parsedJson =>
      let body :=
        obj [prop "name" (VString (name u));
             prop "jsonData" (stringified (JSON.stringify parsedJson));
             prop "slug" (VString (name u))] in
      let '(r, w1) := service (Request POST [str "create"] body []) w in
      if resolved r then
        let u := setResponse (stringified (stringify_indented [] (data r))) u in
        let '(u, w2) := fetchEndpoints eng service u w1 in
        (setLoading false u, w2)
      else (setLoading false (setError (error_shown r) u), w1)
  end.

(** The message of [handlePrettify] for any failure. *)
Definition cannot_prettify : jsstring :=
  [10060; 32] ++ str "Invalid JSON: cannot prettify".

(** <<
const handlePrettify = () => {
  try {
    const currentValue = editorRef.current.getModel().getValue();
    const formatted = JSON.stringify(JSON.parse(currentValue), null, 2);
    editorRef.current.setValue(formatted);
    setJsonInput(formatted);
    setError('');
  } catch { setError('❌ Invalid JSON: cannot prettify'); }
};
>>
    A parsed value always has a text; the case [None] of the second
    [match] does not arise. *)
Definition handlePrettify (u : state) : state :=
  match JSON.parse (jsonInput u) with
  | Some v =>
      match stringify_indented [] v with
      | Some formatted => setError (VString []) (setJsonInput formatted u)
      | None => setError (VString cannot_prettify) u
      end
  | None => setError (VString cannot_prettify) u
  end.

(** The delete button of the entry [ep] of the list:
    <<
axios.delete(`${API_BASE_URL}/${ep.slug}`).then(() => fetchEndpoints());
>>
    A rejected request is not handled: the state stays as it is. *)
Definition onDeleteClick (eng : engine) (service : handler) (ep : value)
    (u : state) (w : world) : option (state * world) :=
  path ← url_path (ToString (get_prop ep "slug"));
  let '(r, w1) := service (Request DELETE path (obj []) []) w in
  Some (if resolved r then fetchEndpoints eng service u w1 else (u, w1)).

End App.

(** The next [n] calls to the store go through. *)
Definition calls_ok (n : nat) (w : world) : Prop :=
  Forall (fun f => f = None) (take n (faults w)).

(** An engine, for the examples. *)
Definition some_engine : engine :=
  Engine (fun _ => str "Unexpected token") (str "Cannot read properties of null").

(** The state of the component with a name and a JSON text typed in. *)
Definition typed (name json : string) : App.state :=
  App.State (str name) (str json) (VString []) (VString []) false (VArray []).

(** The entry of the list for the slug [s], as far as the delete button
    reads it. *)
Definition entry_for (s : string) : value := obj [prop "slug" (text s)].

(** ** The start of the servers: the credentials

    [initializeFirebase] of [src/unnamed/part_000] and the [try] block at
    the head of [src/backend/server.js], as far as they treat the
    environment; the library that makes the credentials is a parameter. *)

(** [s.replace(/\\n/g, '\n')]: from left to right, each backslash followed
    by [n] becomes a line feed. *)
Fixpoint unescape_newlines (s : jsstring) : jsstring :=
  match s with
  | c :: rest =>
      match rest with
      | d :: rest' =>
          if (c =? 92) && (d =? 110) then 10 :: unescape_newlines rest'
          else c :: unescape_newlines rest
      | [] => [c]
      end
  | [] => []
  end.

(** The second [replace], of every double quote by nothing. *)
Definition remove_quotes (s : jsstring) : jsstring :=
  filter (fun c => c <> 34) s.

(** The white space and line terminators that [trim] removes. *)
Definition is_trimmed_char (c : N) : bool :=
  ((9 <=? c) && (c <=? 13)) || (c =? 32) || (c =? 160) || (c =? 5760)
  || ((8192 <=? c) && (c <=? 8202)) || (c =? 8232) || (c =? 8233)
  || (c =? 8239) || (c =? 8287) || (c =? 12288) || (c =? 65279).

Fixpoint trim_start (s : jsstring) : jsstring :=
  match s with
  | c :: rest => if is_trimmed_char c then trim_start rest else s
  | [] => []
  end.

(** [s.trim()] *)
Definition trim (s : jsstring) : jsstring :=
  rev (trim_start (rev (trim_start s))).

(** The private key as [initializeFirebase] hands it to the library. *)
Definition clean_private_key (raw : jsstring) : jsstring :=
  trim (remove_quotes (unescape_newlines raw)).

(** The variables of the environment the start reads; [None] is a
    variable that is not set. *)
Record environment : Type := Environment {
  FIREBASE_PROJECT_ID : option jsstring;
  FIREBASE_CLIENT_EMAIL : option jsstring;
  FIREBASE_PRIVATE_KEY : option jsstring;
  FIREBASE_DATABASE_URL : option jsstring;
  NODE_ENV : option jsstring
}.

Record credentials : Type := Credentials {
  projectId : jsstring;
  clientEmail : jsstring;
  privateKey : jsstring;
  databaseURL : jsstring
}.

(** What is written to the console. *)
Inductive log_entry : Type :=
| LogInitializing (projectId clientEmail : jsstring) (privateKeyPresent : bool)
    (databaseURL : jsstring)
| LogInitialized
| LogInitializationError (message : jsstring)
| LogPrivateKeyValue (value : option jsstring).

Inductive start : Type :=
| Initialized (c : credentials)
| Exit (code : N).

(** [!process.env.X] *)
Definition unset (x : option jsstring) : bool :=
  match x with
  | Some (_ :: _) => false
  | _ => true
  end.

(** <<
const initializeFirebase = () => {
  try {
    if (!process.env.FIREBASE_PROJECT_ID || !process.env.FIREBASE_CLIENT_EMAIL ||
        !process.env.FIREBASE_PRIVATE_KEY || !process.env.FIREBASE_DATABASE_URL) {
      throw new Error('Missing required Firebase environment variables');
    }
    const privateKey = process.env.FIREBASE_PRIVATE_KEY
      .replace(/\\n/g, '\n')  // Convert escaped newlines to actual newlines
      .replace(..., '')       // Remove any quotes
      .trim();                // Remove whitespace
    console.log('Initializing Firebase with:', { projectId, clientEmail,
      privateKeyPresent: !!privateKey, databaseURL });
    const firebaseApp = admin.initializeApp({ credential: admin.credential.cert({
        projectId, clientEmail, privateKey }), databaseURL }, uuidv4());
    console.log('Firebase Admin initialized successfully');
    return firebaseApp;
  } catch (error) {
    console.error('Firebase initialization error:', error);
    if (process.env.NODE_ENV !== 'production') {
      console.error('Private key value:', process.env.FIREBASE_PRIVATE_KEY);
    }
    process.exit(1);
  }
};
>>
    [library c] is [Some message] when the library throws an error with
    that message for the credentials [c]. *)
Definition initializeFirebase (library : credentials -> option jsstring)
    (env : environment) : list log_entry * start :=
  let failed (log : list log_entry) (message : jsstring) :=
    (log ++ [LogInitializationError message]
       ++ (if decide (NODE_ENV env = Some (str "production")) then []
           else [LogPrivateKeyValue (FIREBASE_PRIVATE_KEY env)]),
     Exit 1) in
  if unset (FIREBASE_PROJECT_ID env) || unset (FIREBASE_CLIENT_EMAIL env)
     || unset (FIREBASE_PRIVATE_KEY env) || unset (FIREBASE_DATABASE_URL env)
  then failed [] (str "Missing required Firebase environment variables")
  else
    let c :=
      Credentials (default [] (FIREBASE_PROJECT_ID env))
        (default [] (FIREBASE_CLIENT_EMAIL env))
        (clean_private_key (default [] (FIREBASE_PRIVATE_KEY env)))
        (default [] (FIREBASE_DATABASE_URL env)) in
    let log :=
      [LogInitializing (projectId c) (clientEmail c)
         (negb (N.of_nat (length (privateKey c)) =? 0)) (databaseURL c)] in
    match library c with
    | Some message => failed log message
    | None => (log ++ [LogInitialized], Initialized c)
    end.

(** No backslash is followed by [n]. *)
Fixpoint no_escaped_newline (s : jsstring) : bool :=
  match s with
  | c :: rest =>
      match rest with
      | d :: _ => negb ((c =? 92) && (d =? 110)) && no_escaped_newline rest
      | [] => true
      end
  | [] => true
  end.

(** A backslash followed by [n], somewhere in a string. *)
Definition has_escaped_newline (s : jsstring) : Prop :=
  exists before after, s = before ++ 92 :: 110 :: after.

(** An environment for the examples: the key is quoted and its new lines
    are escaped. *)
Definition some_environment : environment :=
  Environment (Some (str "project")) (Some (str "service@project"))
    (Some ([34] ++ str "-----BEGIN-----\nkey\n-----END-----\n" ++ [34]))
    (Some (str "https://project.example")) None.

(** * Properties *)

(** ** Regular expressions *)

Module RegexFacts.
Import Regex.

Lemma nullable_matches r : nullable r = true <-> matches r [].
Proof.
  split.
  - induction r; simpl; intros H; try discriminate.
    + constructor.
    + apply andb_true_iff in H as [H1 H2].
      change (@nil N) with (@nil N ++ []). constructor; auto.
    + apply orb_true_iff in H as [H|H]; [apply m_alt_l | apply m_alt_r]; auto.
    + constructor.
  - intros H. remember [] as s eqn:Hs.
    induction H; simpl; subst; try discriminate; auto.
    + apply app_eq_nil in Hs as [-> ->]. rewrite IHmatches1, IHmatches2; auto.
    + rewrite IHmatches; auto.
    + rewrite IHmatches; auto. apply orb_true_r.
Qed.

Lemma star_cons_inv r c s :
  matches (Star r) (c :: s) ->
  exists s1 s2, s = s1 ++ s2 /\ matches r (c :: s1) /\ matches (Star r) s2.
Proof.
  intros H. remember (Star r) as r' eqn:Hr. remember (c :: s) as cs eqn:Hcs.
  revert c s Hcs.
  induction H; intros c' s' Hcs; try discriminate.
  injection Hr as ->.
  destruct s1 as [|d s1].
  - simpl in Hcs. apply IHmatches2; auto.
  - simpl in Hcs. injection Hcs as -> <-. eauto.
Qed.

Lemma seq_inv r1 r2 s :
  matches (Seq r1 r2) s ->
  exists s1 s2, s = s1 ++ s2 /\ matches r1 s1 /\ matches r2 s2.
Proof. intros H. inversion H; subst; eauto. Qed.

Lemma alt_inv r1 r2 s : matches (Alt r1 r2) s -> matches r1 s \/ matches r2 s.
Proof. intros H. inversion H; subst; auto. Qed.

Lemma seq_cons r1 r2 c s1 s2 :
  matches r1 (c :: s1) -> matches r2 s2 -> matches (Seq r1 r2) (c :: s1 ++ s2).
Proof. intros H1 H2. apply (m_seq r1 r2 (c :: s1) s2 H1 H2). Qed.

Lemma deriv_matches r c s : matches (deriv c r) s <-> matches r (c :: s).
Proof.
  revert s. induction r as [| |ranges|r1 IH1 r2 IH2|r1 IH1 r2 IH2|r IH]; intros s; simpl.
  - split; intros H; inversion H.
  - split; intros H; inversion H.
  - destruct (in_class ranges c) eqn:E; split; intros H; inversion H; subst.
    + now constructor.
    + constructor.
    + congruence.
  - destruct (nullable r1) eqn:E.
    + split; intros H.
      * apply alt_inv in H as [H|H].
        -- apply seq_inv in H as (s1 & s2 & -> & H1 & H2).
           apply seq_cons; auto. now apply IH1.
        -- apply (m_seq r1 r2 [] (c :: s)).
           ++ now apply nullable_matches.
           ++ now apply IH2.
      * apply seq_inv in H as (s1 & s2 & Hs & H1 & H2).
        destruct s1 as [|d s1]; simpl in Hs.
        -- subst s2. apply m_alt_r. now apply IH2.
        -- injection Hs as <- ->. apply m_alt_l. constructor; auto. now apply IH1.
    + split; intros H.
      * apply seq_inv in H as (s1 & s2 & -> & H1 & H2).
        apply seq_cons; auto. now apply IH1.
      * apply seq_inv in H as (s1 & s2 & Hs & H1 & H2).
        destruct s1 as [|d s1]; simpl in Hs.
        -- apply nullable_matches in H1. congruence.
        -- injection Hs as <- ->. constructor; auto. now apply IH1.
  - split; intros H; apply alt_inv in H as [H|H].
    + apply m_alt_l. now apply IH1.
    + apply m_alt_r. now apply IH2.
    + apply m_alt_l. now apply IH1.
    + apply m_alt_r. now apply IH2.
  - split; intros H.
    + apply seq_inv in H as (s1 & s2 & -> & H1 & H2).
      apply (m_star_cons r (c :: s1) s2); auto. now apply IH.
    + apply star_cons_inv in H as (s1 & s2 & -> & H1 & H2).
      constructor; auto. now apply IH.
Qed.

(** The matcher decides the language. *)
Lemma test_anchored_matches r s : test_anchored r s = true <-> matches r s.
Proof.
  revert r. induction s as [|c s IH]; intros r; simpl.
  - apply nullable_matches.
  - rewrite IH. apply deriv_matches.
Qed.

Lemma matches_star_class ranges s :
  matches (Star (Class ranges)) s <-> Forall (fun c => in_class ranges c = true) s.
Proof.
  split.
  - intros H. remember (Star (Class ranges)) as r eqn:Hr.
    induction H; try discriminate.
    + constructor.
    + injection Hr as ->. inversion H; subst. simpl. constructor; auto.
  - induction 1 as [|c s Hc _ IH].
    + constructor.
    + change (c :: s) with ([c] ++ s). constructor; auto. now constructor.
Qed.

Lemma matches_plus_class ranges s :
  matches (Plus (Class ranges)) s <->
  s <> [] /\ Forall (fun c => in_class ranges c = true) s.
Proof.
  unfold Plus. split.
  - intros H. inversion H as [| |? ? s1 s2 H1 H2| | | |]; subst.
    inversion H1; subst. simpl. split; [discriminate|].
    constructor; auto. now apply matches_star_class.
  - intros [Hne Hall]. destruct Hall as [|c s Hc Hs]; [congruence|].
    change (c :: s) with ([c] ++ s). constructor.
    + now constructor.
    + now apply matches_star_class.
Qed.

End RegexFacts.


(** ** The slug validator *)

Lemma slug_class_spec c :
  Regex.in_class [(97, 122); (48, 57); (45, 45)] c = is_slug_char c.
Proof.
  unfold Regex.in_class, Regex.in_range, is_slug_char, is_lowercase_letter,
    is_decimal_digit, is_hyphen. simpl.
  destruct (97 <=? c) eqn:E1, (c <=? 122) eqn:E2, (48 <=? c) eqn:E3,
    (c <=? 57) eqn:E4, (45 <=? c) eqn:E5, (c <=? 45) eqn:E6, (c =? 45) eqn:E7;
    simpl; try reflexivity;
    repeat match goal with
      | H : (_ <=? _) = true |- _ => apply N.leb_le in H
      | H : (_ <=? _) = false |- _ => apply N.leb_gt in H
      | H : (_ =? _) = true |- _ => apply N.eqb_eq in H
      | H : (_ =? _) = false |- _ => apply N.eqb_neq in H
      end; lia.
Qed.

Lemma validateSlug_matches (s : jsstring) :
  validateSlug (VString s) = true <-> Regex.matches slug_pattern s.
Proof. unfold validateSlug. simpl. apply RegexFacts.test_anchored_matches. Qed.

Lemma validateSlug_chars (s : jsstring) :
  validateSlug (VString s) = true <->
  s <> [] /\ Forall (fun c => is_slug_char c = true) s.
Proof.
  rewrite validateSlug_matches. unfold slug_pattern.
  rewrite RegexFacts.matches_plus_class.
  split; intros [Hne Hall]; split; auto.
  - eapply Forall_impl; [exact Hall|]. intros c Hc. simpl in Hc.
    now rewrite <- slug_class_spec.
  - eapply Forall_impl; [exact Hall|]. intros c Hc. simpl in Hc.
    now rewrite slug_class_spec.
Qed.

(** C7. For every string [s], [validateSlug(s)] is true exactly when [s]
    is not empty and each of its characters is a lowercase ASCII letter, a
    digit or a hyphen, that is when [s] matches [^[a-z0-9-]+$]; [s] is
    tested as it is, neither case-folded nor trimmed. *)
Theorem validateSlug_spec (s : jsstring) :
  (validateSlug (VString s) = true <->
     s <> [] /\ Forall (fun c => is_slug_char c = true) s)
  /\ (validateSlug (VString s) = true <-> Regex.matches slug_pattern s).
Proof. split; [apply validateSlug_chars|apply validateSlug_matches]. Qed.

Example validateSlug_no_case_folding : validateSlug (text "Widgets") = false.
Proof. reflexivity. Qed.

Example validateSlug_no_trimming : validateSlug (text " widgets ") = false.
Proof. reflexivity. Qed.

Example validateSlug_line_end : validateSlug (VString (str "widgets" ++ [10])) = false.
Proof. reflexivity. Qed.

Example validateSlug_accepts : validateSlug (text "my-slug-2") = true.
Proof. reflexivity. Qed.

(** ** The store and the monad *)

Lemma split_on_absent sep s :
  Forall (fun c => (c =? sep) = false) s -> split_on sep s = [s].
Proof.
  induction 1 as [|c s Hc _ IH]; simpl; [reflexivity|].
  now rewrite Hc, IH.
Qed.

Lemma doc_world id w o w' : doc id w = (o, w') -> w' = w.
Proof.
  unfold doc, throw. destruct id; try (intros [= _ <-]; reflexivity).
  destruct (_ && _); intros [= _ <-]; reflexivity.
Qed.

Lemma doc_Ok id w ref w' : doc id w = (Ok ref, w') -> id = VString ref /\ w' = w.
Proof.
  unfold doc, throw. destruct id; try discriminate.
  destruct (_ && _); [|discriminate]. now intros [= <- <-].
Qed.

Lemma slug_chars_no_slash s :
  Forall (fun c => is_slug_char c = true) s -> Forall (fun c => (c =? 47) = false) s.
Proof.
  intros H. eapply Forall_impl; [exact H|]. intros c Hc. simpl in Hc.
  apply N.eqb_neq. intros ->. discriminate.
Qed.

(** A valid slug names a document of the collection. *)
Lemma valid_slug_doc s w :
  validateSlug (VString s) = true -> doc (VString s) w = (Ok s, w).
Proof.
  intros H. apply validateSlug_chars in H as [Hne Hall].
  unfold doc. rewrite (split_on_absent 47 s (slug_chars_no_slash s Hall)).
  destruct s; [congruence|]. reflexivity.
Qed.

Lemma valid_slug_in_collection s d :
  validateSlug (VString s) = true -> in_collection (s, d) = true.
Proof.
  intros H. apply validateSlug_chars in H as [_ Hall].
  apply slug_chars_no_slash in Hall. unfold in_collection. simpl.
  apply forallb_forall. intros c Hc. rewrite Forall_forall in Hall.
  rewrite (Hall c); [reflexivity|]. now apply list_elem_of_In.
Qed.

Ltac unfold_store :=
  unfold try_catch, respond, docRef_get, docRef_set, docRef_update, docRef_delete,
    collection_get_ordered, collection_get, health_set, health_get,
    call_store, read_world, modify, throw, set_api, set_healthcheck,
    mbind, M_bind, mret, M_ret in *.

Ltac case_match_goal :=
  match goal with
  | |- context [match ?x with _ => _ end] => destruct x eqn:?
  end.

(** ** Validation comes before the store *)


Ltac store_cases :=
  unfold_store;
  repeat match goal with
    | |- context [doc ?v ?w] =>
        let H := fresh "Hdoc" in
        destruct (doc v w) as [[?ref|?msg] ?w] eqn:H;
        [apply doc_Ok in H as [? ->] | apply doc_world in H as ->]
    | |- context [match faults ?w with _ => _ end] =>
        destruct (faults w) as [|[?|] ?] eqn:?
    | |- context [match api ?w !! ?k with _ => _ end] =>
        destruct (api w !! k) eqn:?
    | |- context [match healthcheck ?w with _ => _ end] =>
        destruct (healthcheck w) eqn:?
    | _ => progress cbn [fst snd res_status res_body api faults calls healthcheck
                         store_time local_time development tail] in *
    end.















Lemma create_invalid_cases body :
  create_input_invalid body ->
  negb (truthy (get_prop body "name")) || negb (truthy (get_prop body "jsonData"))
    || negb (truthy (get_prop body "slug")) = true
  \/ negb (validateSlug (get_prop body "slug")) = true
  \/ negb (truthy (validateJSON (get_prop body "jsonData"))) = true.
Proof.
  intros [H|[H|[H|[H|H]]]].
  - left. rewrite H. reflexivity.
  - left. rewrite H. simpl. now rewrite orb_true_r.
  - left. rewrite H. simpl. now rewrite orb_true_r.
  - right; left. now rewrite H.
  - right; right. unfold validateJSON. now rewrite H.
Qed.

Lemma create_rejects_invalid (req : request) (w : world) :
  create_input_invalid (req_body req) ->
  (exists body, Flat.create req w = (Response 400 body, w))
  /\ (exists body, Prefixed.create req w = (Response 400 body, w)).
Proof.
  intros H. apply create_invalid_cases in H. split.
  - unfold Flat.create, respond.
    destruct H as [H|[H|H]].
    + rewrite H. eauto.
    + rewrite H. destruct (_ || _); eauto.
    + rewrite H. destruct (_ || _); [eauto|]. destruct (negb (validateSlug _)); eauto.
  - unfold Prefixed.create, respond.
    destruct H as [H|[H|H]].
    + rewrite H. eauto.
    + rewrite H. destruct (_ || _); eauto.
    + rewrite H. destruct (_ || _); [eauto|]. destruct (negb (validateSlug _)); eauto.
Qed.



(** ** The slug format on the routes that take a slug *)

Lemma invalid_slug_negb slug :
  validateSlug slug = false -> negb (validateSlug slug) = true.
Proof. now intros ->. Qed.

(** In the second server the four handlers answer 400 to a slug that is
    not in the slug format, and leave the store alone. *)
Lemma prefixed_enforces_slug_format (req : request) (w : world) :
  (validateSlug (get_prop (req_body req) "slug") = false ->
     exists body, Prefixed.create req w = (Response 400 body, w))
  /\ (validateSlug (param req "slug") = false ->
        Prefixed.read req w
          = (Response 400 (obj [prop "error" (text "Invalid slug format")]), w)
        /\ Prefixed.update req w
          = (Response 400 (obj [prop "error" (text "Invalid slug format")]), w)
        /\ Prefixed.remove req w
          = (Response 400 (obj [prop "error" (text "Invalid slug format")]), w)).
Proof.
  split.
  - intros H. apply create_rejects_invalid. right; right; right; now left.
  - intros H. apply invalid_slug_negb in H.
    unfold Prefixed.read, Prefixed.update, Prefixed.remove, respond.
    rewrite H. auto.
Qed.

Lemma flat_read_never_400 req w : res_status (fst (Flat.read req w)) <> 400.
Proof. unfold Flat.read, Flat.internal_error. store_cases; discriminate. Qed.

Lemma flat_remove_never_400 req w : res_status (fst (Flat.remove req w)) <> 400.
Proof. unfold Flat.remove, Flat.internal_error. store_cases; discriminate. Qed.

(** C2. In the first server the routes [GET], [PUT] and [DELETE /:slug] do
    not test the slug: for the slug ["My_Slug"], which [validateSlug]
    refuses, each of them asks the store for the document and answers 404,
    where the create route of the same file answers 400 without a call;
    its read and delete handlers have no answer 400 at all. *)
Theorem flat_slug_routes_skip_validation :
  validateSlug (text "My_Slug") = false
  /\ (let '(r, w) := Flat.app (Request GET [str "My_Slug"] (obj []) []) fresh_world in
      res_status r = 404 /\ calls w = [CallGet (str "My_Slug")])
  /\ (let '(r, w) :=
        Flat.app (Request PUT [str "My_Slug"]
                    (obj [prop "jsonData" (text "{}")]) []) fresh_world in
      res_status r = 404 /\ calls w = [CallGet (str "My_Slug")])
  /\ (let '(r, w) := Flat.app (Request DELETE [str "My_Slug"] (obj []) []) fresh_world in
      res_status r = 404 /\ calls w = [CallGet (str "My_Slug")])
  /\ (let '(r, w) :=
        Flat.app (Request POST [str "create"]
                    (create_body "Widgets" "{}" "My_Slug") []) fresh_world in
      res_status r = 400 /\ calls w = [])
  /\ (forall req w,
        res_status (fst (Flat.read req w)) <> 400
        /\ res_status (fst (Flat.remove req w)) <> 400).
Proof.
  split; [reflexivity|].
  do 4 (split; [vm_compute; split; reflexivity|]).
  intros req w. split; [apply flat_read_never_400|apply flat_remove_never_400].
Qed.

(** ** The health routes *)

(** The second server answers [GET /api/health] with 200 whatever the
    store holds. *)
Lemma prefixed_api_health_available body params w :
  Prefixed.app (Request GET [str "api"; str "health"] body params) w
  = (Response 200 (obj [prop "status" (text "OK");
                        prop "message" (text "API is running");
                        prop "timestamp" (VString (toISOString (local_time w)))]), w).
Proof. reflexivity. Qed.

(** Its [GET /health] writes and reads [healthcheck/test]; it answers 200
    when both calls go through, whatever the collection holds, and 500
    only when one of them fails. *)
Lemma prefixed_health_available body params w :
  let '(r, w') := Prefixed.app (Request GET [str "health"] body params) w in
  api w' = api w
  /\ (next_calls_ok w ->
        r = Response 200 (obj [prop "status" (text "OK");
                               prop "firebase" (VBool true);
                               prop "database" (VBool true);
                               prop "timestamp" (VString (toISOString (local_time w)))])
        /\ calls w' = calls w ++ [CallHealthSet; CallHealthGet])
  /\ (res_status r = 200 \/ res_status r = 500 /\ ~ next_calls_ok w).
Proof.
  change (Prefixed.app (Request GET [str "health"] body params) w)
    with (Prefixed.health (Request GET [str "health"] body []) w).
  unfold Prefixed.health, next_calls_ok. unfold_store. simpl.
  destruct (faults w) as [|[m|] [|[m'|] fs]]; simpl;
    repeat split; auto; try tauto; try (now rewrite <- app_assoc).
Qed.

(** C5. In the first server [/health] is registered after [/:slug], which
    matches it: a [GET /health] is answered by the read handler for the
    slug ["health"], so with 404 on a store that has no such document and
    with that document's data on one that has; the health handler is never
    reached. *)
Theorem flat_health_shadowed_by_slug_route :
  (forall body params w,
     Flat.app (Request GET [str "health"] body params) w
     = Flat.read (Request GET [str "health"] body [(str "slug", text "health")]) w)
  /\ fst (Flat.app (Request GET [str "health"] (obj []) []) fresh_world)
     = Response 404 (obj [prop "error" (text "Endpoint not found")])
  /\ Flat.health (Request GET [str "health"] (obj []) []) fresh_world
     = (Response 200 (obj [prop "status" (text "OK");
                           prop "timestamp" (text "1970-01-01T00:00:00.000Z")]),
        fresh_world).
Proof. repeat split. Qed.

(** ** Create *)

Ltac create_checks E1a E1b E1c E2 E3 :=
  let E1 := fresh "E" in
  destruct (negb _ || negb _ || negb _) eqn:E1; [intros [= <- <-]; discriminate|];
  destruct (negb (validateSlug _)) eqn:E2; [intros [= <- <-]; discriminate|];
  destruct (negb (truthy (validateJSON _))) eqn:E3; [intros [= <- <-]; discriminate|];
  apply orb_false_iff in E1 as [E1 E1c]; apply orb_false_iff in E1 as [E1a E1b];
  apply negb_false_iff in E1a, E1b, E1c, E2, E3.

Ltac solve_created :=
  let E1a := fresh "Hname" in
  let E1b := fresh "Hjson" in
  let E1c := fresh "Hslug" in
  let E2 := fresh "Hvalid" in
  let E3 := fresh "Hparsed" in
  create_checks E1a E1b E1c E2 E3;
  store_cases; intros [= <- <-]; try discriminate; intros _;
  (split; [repeat split; assumption|]);
  eexists; repeat split; eauto; simpl; try (now rewrite <- app_assoc);
  try (match goal with H : _ = VString _ |- _ => now rewrite H end);
  now subst.

(** A create answered 201 has passed the checks, found the slug free and
    written the document. *)
Lemma flat_create_success req w r w1 :
  Flat.create req w = (r, w1) -> res_status r = 201 ->
  created flat_envelope req w w1.
Proof. unfold Flat.create, Flat.internal_error, created, create_input_accepted. solve_created. Qed.

Lemma prefixed_create_success req w r w1 :
  Prefixed.create req w = (r, w1) -> res_status r = 201 ->
  created (fun parsed => parsed) req w w1.
Proof.
  unfold Prefixed.create, Prefixed.internal_error, created, create_input_accepted.
  solve_created.
Qed.

Lemma accepted_checks body :
  create_input_accepted body ->
  negb (truthy (get_prop body "name")) || negb (truthy (get_prop body "jsonData"))
    || negb (truthy (get_prop body "slug")) = false
  /\ negb (validateSlug (get_prop body "slug")) = false
  /\ negb (truthy (validateJSON (get_prop body "jsonData"))) = false.
Proof. intros (-> & -> & -> & -> & ->). auto. Qed.

Ltac solve_conflict :=
  match goal with
  | Hacc : create_input_accepted _, Hslug : get_prop _ "slug" = VString ?s,
    Hdoc : api ?w !! ?s = Some _, Hok : next_call_ok ?w |- _ =>
      let Hv := fresh "Hv" in
      pose proof Hacc as (_ & _ & _ & Hv & _);
      apply accepted_checks in Hacc as (-> & -> & ->);
      rewrite Hslug in Hv |- *;
      unfold_store; rewrite (valid_slug_doc s w Hv);
      unfold next_call_ok in Hok;
      destruct (faults w) as [|[?|] ?]; try contradiction;
      cbn [api]; rewrite Hdoc; simpl; auto
  end.

(** A create for a slug that has a document is answered 409 when the
    look-up goes through; the collection is as it was. *)
Lemma flat_create_conflict req w s d :
  create_input_accepted (req_body req) ->
  get_prop (req_body req) "slug" = VString s ->
  api w !! s = Some d ->
  next_call_ok w ->
  res_status (fst (Flat.create req w)) = 409
  /\ res_body (fst (Flat.create req w)) = obj [prop "error" (text "Slug already exists")]
  /\ api (snd (Flat.create req w)) = api w
  /\ calls (snd (Flat.create req w)) = calls w ++ [CallGet s].
Proof. intros Hacc Hslug Hdoc Hok. unfold Flat.create. solve_conflict. Qed.

Lemma prefixed_create_conflict req w s d :
  create_input_accepted (req_body req) ->
  get_prop (req_body req) "slug" = VString s ->
  api w !! s = Some d ->
  next_call_ok w ->
  res_status (fst (Prefixed.create req w)) = 409
  /\ res_body (fst (Prefixed.create req w)) = obj [prop "error" (text "Slug already exists")]
  /\ api (snd (Prefixed.create req w)) = api w
  /\ calls (snd (Prefixed.create req w)) = calls w ++ [CallGet s].
Proof. intros Hacc Hslug Hdoc Hok. unfold Prefixed.create. solve_conflict. Qed.

Lemma app_create sv body w :
  app_of sv (create_request sv body) w
  = match sv with
    | FlatServer => Flat.create
    | PrefixedServer => Prefixed.create
    end (create_request sv body) w.
Proof. destruct sv; reflexivity. Qed.

Lemma create_success sv body w r w1 :
  app_of sv (create_request sv body) w = (r, w1) -> res_status r = 201 ->
  created (stored_at_create sv) (create_request sv body) w w1.
Proof.
  rewrite app_create. destruct sv; simpl.
  - apply flat_create_success.
  - apply prefixed_create_success.
Qed.

Lemma create_conflict sv body w s d :
  create_input_accepted body ->
  get_prop body "slug" = VString s ->
  api w !! s = Some d ->
  next_call_ok w ->
  let '(r, w') := app_of sv (create_request sv body) w in
  r = Response 409 (obj [prop "error" (text "Slug already exists")])
  /\ api w' = api w
  /\ calls w' = calls w ++ [CallGet s].
Proof.
  intros Hacc Hslug Hdoc Hok. rewrite app_create.
  destruct sv.
  - destruct (flat_create_conflict (create_request FlatServer body) w s d)
      as (H1 & H2 & H3 & H4); auto.
    destruct (Flat.create _ w) as [[st b] w']. simpl in *. subst. auto.
  - destruct (prefixed_create_conflict (create_request PrefixedServer body) w s d)
      as (H1 & H2 & H3 & H4); auto.
    destruct (Prefixed.create _ w) as [[st b] w']. simpl in *. subst. auto.
Qed.

(** C3. When a create has been answered 201 for a slug, a second create
    for that slug (any name and JSON that pass validation, sent any time
    later, the look-up in the store going through) is answered 409
    Conflict; the collection is unchanged by it, and the document under the
    slug is still the one the first create wrote. *)
Theorem duplicate_create_rejected (sv : server) (body1 body2 : value)
    (w w1 : world) (r1 : response) (ds dl : N) :
  app_of sv (create_request sv body1) w = (r1, w1) ->
  res_status r1 = 201 ->
  create_input_accepted body2 ->
  get_prop body2 "slug" = get_prop body1 "slug" ->
  next_call_ok w1 ->
  let '(r2, w2) := app_of sv (create_request sv body2) (advance ds dl w1) in
  res_status r2 = 409
  /\ api w2 = api w1
  /\ exists s,
       get_prop body1 "slug" = VString s
       /\ api w2 !! s
          = Some (Document (get_prop body1 "name")
                    (stored_at_create sv (validateJSON (get_prop body1 "jsonData")))
                    (VString s) (store_time w) (store_time w)).
Proof.
  intros Hc H201 Hacc Hslug Hok.
  destruct (create_success sv body1 w r1 w1 Hc H201)
    as (_ & s & Hs & Hfree & Hapi & _).
  simpl in Hs, Hapi.
  assert (Hdoc : api (advance ds dl w1) !! s
                 = Some (Document (get_prop body1 "name")
                           (stored_at_create sv (validateJSON (get_prop body1 "jsonData")))
                           (VString s) (store_time w) (store_time w))).
  { simpl. rewrite Hapi. apply lookup_insert_eq. }
  rewrite Hs in Hslug.
  pose proof (create_conflict sv body2 (advance ds dl w1) s _ Hacc Hslug Hdoc Hok) as H.
  destruct (app_of sv (create_request sv body2) (advance ds dl w1)) as [r2 w2].
  destruct H as (-> & H2 & _). simpl in H2.
  split; [reflexivity|]. split; [exact H2|].
  exists s. split; [exact Hs|]. rewrite H2, Hapi. apply lookup_insert_eq.
Qed.

Lemma duplicate_create_rejected_witness :
  let '(r2, w2) :=
    app_of PrefixedServer
      (create_request PrefixedServer (create_body "Other" "[2]" "x"))
      (advance 5 5
         (snd (app_of PrefixedServer
                 (create_request PrefixedServer (create_body "First" "[1]" "x"))
                 fresh_world))) in
  res_status r2 = 409
  /\ api w2 = api (snd (app_of PrefixedServer
                         (create_request PrefixedServer (create_body "First" "[1]" "x"))
                         fresh_world))
  /\ exists s,
       get_prop (create_body "First" "[1]" "x") "slug" = VString s
       /\ api w2 !! s
          = Some (Document (get_prop (create_body "First" "[1]" "x") "name")
                    (stored_at_create PrefixedServer
                       (validateJSON (get_prop (create_body "First" "[1]" "x") "jsonData")))
                    (VString s) (store_time fresh_world) (store_time fresh_world)).
Proof.
  apply (duplicate_create_rejected PrefixedServer
           (create_body "First" "[1]" "x") (create_body "Other" "[2]" "x")
           fresh_world _ (fst (app_of PrefixedServer
                                 (create_request PrefixedServer (create_body "First" "[1]" "x"))
                                 fresh_world)) 5 5).
  - reflexivity.
  - reflexivity.
  - repeat split.
  - reflexivity.
  - exact I.
Defined.

(** ** Routing of the slug routes *)



Lemma valid_slug_nonempty s : validateSlug (VString s) = true -> s <> [].
Proof. intros H. now apply validateSlug_chars in H as [Hne _]. Qed.

Lemma param_with_slug req s : param (with_slug req s) "slug" = VString s.
Proof. reflexivity. Qed.


Lemma flat_app_update s body w :
  s <> [] ->
  Flat.app (update_request FlatServer s body) w
  = Flat.update (with_slug (update_request FlatServer s body) s) w.
Proof. intros Hne. destruct s; [congruence|]. reflexivity. Qed.

Lemma flat_app_delete s w :
  s <> [] ->
  Flat.app (delete_request FlatServer s) w
  = Flat.remove (with_slug (delete_request FlatServer s) s) w.
Proof. intros Hne. destruct s; [congruence|]. reflexivity. Qed.


Lemma prefixed_app_update s body w :
  s <> [] ->
  Prefixed.app (update_request PrefixedServer s body) w
  = Prefixed.update (with_slug (update_request PrefixedServer s body) s) w.
Proof. intros Hne. destruct s; [congruence|]. reflexivity. Qed.


(** ** Read *)






(** On the second server the slug ["health"] can be created but not read:
    its path is the one of the health route. *)
Lemma prefixed_read_health_shadowed :
  let w1 := snd (Prefixed.app (create_request PrefixedServer (create_body "N" "[1]" "health"))
                   fresh_world) in
  res_status (fst (Prefixed.app (create_request PrefixedServer (create_body "N" "[1]" "health"))
                     fresh_world)) = 201
  /\ res_body (fst (Prefixed.app (read_request PrefixedServer (str "health")) w1))
     = obj [prop "status" (text "OK");
            prop "message" (text "API is running");
            prop "timestamp" (text "1970-01-01T00:00:00.000Z")].
Proof. vm_compute. repeat split. Qed.

(** ** The effects of the handlers on the collection *)

Lemma dispatch_has_effect routes fallback :
  Forall (fun r => has_effect (route_handler r)) routes ->
  has_effect fallback ->
  has_effect (dispatch routes fallback).
Proof.
  intros Hr Hf. induction Hr as [|r routes Hh _ IH]; intros req w; simpl.
  - apply Hf.
  - destruct (if decide (route_method r = req_method req) then _ else None).
    + apply Hh.
    + apply IH.
Qed.

Ltac solve_effect :=
  intros req w;
  repeat (case_match_goal; [split; [now apply effect_none|reflexivity]|]);
  store_cases; (split; [|reflexivity]);
  first [ now apply effect_none
        | eapply effect_create; cycle 2;
          [ reflexivity
          | match goal with
            | H : _ = VString ?s |- validateSlug (VString ?s) = true =>
                rewrite <- H; now apply negb_false_iff
            end
          | eassumption ]
        | eapply effect_update; [eassumption|reflexivity]
        | eapply effect_delete; reflexivity ].

Lemma flat_create_effect : has_effect Flat.create.
Proof. unfold Flat.create, Flat.internal_error. solve_effect. Qed.

Lemma flat_read_effect : has_effect Flat.read.
Proof. unfold Flat.read, Flat.internal_error. solve_effect. Qed.

Lemma flat_update_effect : has_effect Flat.update.
Proof. unfold Flat.update, Flat.internal_error. solve_effect. Qed.

Lemma flat_remove_effect : has_effect Flat.remove.
Proof. unfold Flat.remove, Flat.internal_error. solve_effect. Qed.

Lemma flat_list_effect : has_effect Flat.list_all.
Proof. unfold Flat.list_all, Flat.internal_error. solve_effect. Qed.

Lemma prefixed_create_effect : has_effect Prefixed.create.
Proof. unfold Prefixed.create, Prefixed.internal_error. solve_effect. Qed.

Lemma prefixed_read_effect : has_effect Prefixed.read.
Proof. unfold Prefixed.read, Prefixed.internal_error. solve_effect. Qed.

Lemma prefixed_update_effect : has_effect Prefixed.update.
Proof. unfold Prefixed.update, Prefixed.internal_error. solve_effect. Qed.

Lemma prefixed_remove_effect : has_effect Prefixed.remove.
Proof. unfold Prefixed.remove, Prefixed.internal_error. solve_effect. Qed.

Lemma prefixed_list_effect : has_effect Prefixed.list_all.
Proof. unfold Prefixed.list_all, Prefixed.internal_error. solve_effect. Qed.

Lemma prefixed_health_effect : has_effect Prefixed.health.
Proof. unfold Prefixed.health. solve_effect. Qed.

Lemma static_effect (h : handler) :
  (forall req w, snd (h req w) = w) -> has_effect h.
Proof. intros H req w. rewrite H. split; [now apply effect_none|reflexivity]. Qed.

Lemma app_has_effect sv : has_effect (app_of sv).
Proof.
  destruct sv; apply dispatch_has_effect;
    try (now apply static_effect);
    repeat apply List.Forall_cons; try apply List.Forall_nil; simpl;
    auto using flat_create_effect, flat_read_effect, flat_update_effect,
      flat_remove_effect, flat_list_effect,
      prefixed_create_effect, prefixed_read_effect, prefixed_update_effect,
      prefixed_remove_effect, prefixed_list_effect, prefixed_health_effect;
    now apply static_effect.
Qed.



(** ** Update *)

Ltac solve_updated :=
  store_cases; intros [= <- <-]; try discriminate; intros _;
  eexists; repeat split; eauto.





Example update_stamps_later_time :
  api (snd (app_of PrefixedServer
              (update_request PrefixedServer (str "widgets")
                 (obj [prop "jsonData" (text "[2]")])) later_world)) !! str "widgets"
  = Some (Document (text "Widgets") (VArray [VNumber (Num 2 0)]) (text "widgets") 0 7).
Proof. vm_compute. reflexivity. Qed.

(** ** List *)

Lemma effect_preserves_slugs w w' :
  effect w w' -> ids_are_slugs w -> ids_are_slugs w'.
Proof.
  intros He Hinv id d.
  destruct He as [Hapi|s n j sl Hv Hfree Hapi|s d0 j Hd0 Hapi|s Hapi]; rewrite Hapi.
  - apply Hinv.
  - destruct (decide (s = id)) as [->|Hne].
    + intros _. exact Hv.
    + rewrite lookup_insert_ne by exact Hne. apply Hinv.
  - destruct (decide (s = id)) as [->|Hne].
    + intros _. exact (Hinv _ _ Hd0).
    + rewrite lookup_insert_ne by exact Hne. apply Hinv.
  - destruct (decide (s = id)) as [->|Hne].
    + rewrite lookup_delete_eq. discriminate.
    + rewrite lookup_delete_ne by exact Hne. apply Hinv.
Qed.

Lemma reachable_ids_are_slugs sv w : reachable sv w -> ids_are_slugs w.
Proof.
  induction 1 as [w Hempty|req w _ IH|ds dl w _ IH|fs w _ IH].
  - intros id d. rewrite Hempty, lookup_empty. discriminate.
  - destruct (app_has_effect sv req w) as [He _].
    eapply effect_preserves_slugs; eauto.
  - exact IH.
  - exact IH.
Qed.

Lemma filter_all {A} (P : A -> Prop) `{forall x, Decision (P x)} (l : list A) :
  Forall P l -> filter P l = l.
Proof.
  induction 1 as [|x l Hx _ IH]; [reflexivity|].
  rewrite filter_cons_True by exact Hx. now rewrite IH.
Qed.

(** When every document is filed under a slug, the collection holds all
    of them. *)
Lemma collection_docs_all w :
  ids_are_slugs w -> length (collection_docs w) = size (api w).
Proof.
  intros Hinv. unfold collection_docs. rewrite filter_all.
  - apply length_map_to_list.
  - apply Forall_forall. intros [id d] Hin.
    apply elem_of_map_to_list in Hin.
    eapply valid_slug_in_collection, Hinv, Hin.
Qed.

Lemma prefixed_list_ok w :
  next_call_ok w ->
  Prefixed.app (list_request PrefixedServer) w
  = (Response 200
       (obj [prop "count" (VNumber (of_nat_number (length (collection_docs w))));
             prop "endpoints" (VArray (map prefixed_entry (collection_docs w)))]),
     World (api w) (healthcheck w) (store_time w) (local_time w) (development w)
           (tail (faults w)) (calls w ++ [CallList])).
Proof.
  intros Hok. unfold next_call_ok in Hok.
  change (Prefixed.app (list_request PrefixedServer) w)
    with (Prefixed.list_all (Request GET [str "api"] (obj []) []) w).
  unfold Prefixed.list_all. unfold_store.
  destruct (faults w) as [|[?|] ?]; try contradiction;
    cbn [api]; fold (collection_docs w); now rewrite length_map.
Qed.

Lemma flat_list_ok w :
  next_call_ok w ->
  Flat.app (list_request FlatServer) w
  = (Response 200
       (obj [prop "endpoints"
               (VArray (map flat_entry (merge_sort newer (collection_docs w))))]),
     World (api w) (healthcheck w) (store_time w) (local_time w) (development w)
           (tail (faults w)) (calls w ++ [CallList])).
Proof.
  intros Hok. unfold next_call_ok in Hok.
  change (Flat.app (list_request FlatServer) w)
    with (Flat.list_all (Request GET [] (obj []) []) w).
  unfold Flat.list_all. unfold_store.
  destruct (faults w) as [|[?|] ?]; try contradiction; reflexivity.
Qed.

Lemma collection_docs_empty w : api w = ∅ -> collection_docs w = [].
Proof. intros H. unfold collection_docs. now rewrite H, map_to_list_empty. Qed.

(** C9, as the code has it. When the call to the store goes through, the
    list route answers 200. The second server sends a [count] equal to the
    number of documents of the collection and an [endpoints] array with
    one entry per document, of properties [slug], [name], [createdAt] and
    [endpoint]; the first server sends the [endpoints] array alone, newest
    first, its entries having [slug], [name] and [createdAt]. No entry has
    a [jsonData]. On an empty collection the bodies are
    [{count: 0, endpoints: []}] and [{endpoints: []}]. *)
Theorem list_shape (w : world) :
  next_call_ok w ->
  fst (app_of PrefixedServer (list_request PrefixedServer) w)
    = Response 200
        (obj [prop "count" (VNumber (of_nat_number (length (collection_docs w))));
              prop "endpoints" (VArray (map prefixed_entry (collection_docs w)))])
  /\ (exists ordered,
        ordered ≡ₚ collection_docs w
        /\ Sorted newer ordered
        /\ fst (app_of FlatServer (list_request FlatServer) w)
           = Response 200 (obj [prop "endpoints" (VArray (map flat_entry ordered))]))
  /\ (forall e,
        keys (prefixed_entry e)
          = [str "slug"; str "name"; str "createdAt"; str "endpoint"]
        /\ keys (flat_entry e) = [str "slug"; str "name"; str "createdAt"]
        /\ get_prop (prefixed_entry e) "jsonData" = VUndefined
        /\ get_prop (flat_entry e) "jsonData" = VUndefined)
  /\ (api w = ∅ ->
        res_body (fst (app_of PrefixedServer (list_request PrefixedServer) w))
          = obj [prop "count" (VNumber (Num 0 0)); prop "endpoints" (VArray [])]
        /\ res_body (fst (app_of FlatServer (list_request FlatServer) w))
          = obj [prop "endpoints" (VArray [])])
  /\ (forall sv, reachable sv w -> length (collection_docs w) = size (api w)).
Proof.
  intros Hok. simpl app_of.
  rewrite (prefixed_list_ok w Hok), (flat_list_ok w Hok). simpl fst.
  split; [reflexivity|]. split; [|split; [|split]].
  - exists (merge_sort newer (collection_docs w)).
    split; [apply merge_sort_Permutation|]. split; [|reflexivity].
    apply Sorted_merge_sort. intros a b. unfold newer. lia.
  - intros e. repeat split.
  - intros Hempty. rewrite (collection_docs_empty w Hempty). split; reflexivity.
  - intros sv Hr. apply collection_docs_all. eapply reachable_ids_are_slugs, Hr.
Qed.

Lemma list_shape_witness :
  fst (app_of PrefixedServer (list_request PrefixedServer) created_world)
    = Response 200
        (obj [prop "count" (VNumber (of_nat_number (length (collection_docs created_world))));
              prop "endpoints" (VArray (map prefixed_entry (collection_docs created_world)))]).
Proof. apply (list_shape created_world). exact I. Defined.

Example list_after_one_create :
  fst (app_of PrefixedServer (list_request PrefixedServer) created_world)
  = Response 200
      (obj [prop "count" (VNumber (Num 1 0));
            prop "endpoints"
              (VArray [obj [prop "slug" (text "widgets");
                            prop "name" (text "Widgets");
                            prop "createdAt" (text "1970-01-01T00:00:00.000Z");
                            prop "endpoint" (text "/api/widgets")]])]).
Proof. vm_compute. reflexivity. Qed.

(** The claim C9 as the spec words it fails on the first server, whose
    listing has no [count]. *)
Lemma flat_list_has_no_count :
  res_body (fst (app_of FlatServer (list_request FlatServer) fresh_world))
    = obj [prop "endpoints" (VArray [])]
  /\ get_prop (res_body (fst (app_of FlatServer (list_request FlatServer) fresh_world)))
       "count" <> VNumber (Num 0 0).
Proof. vm_compute. split; [reflexivity|discriminate]. Qed.


(** ** JSON that parses to a falsy value *)

Lemma parse_elements_array fuel : forall s acc v r,
  JSON.parse_elements fuel s acc = Some (v, r) -> exists items, v = VArray items.
Proof.
  induction fuel as [|fuel IH]; intros s acc v r; simpl; [discriminate|].
  destruct (JSON.parse_value fuel s) as [[v' r']|]; simpl; [|discriminate].
  destruct (JSON.skip_ws r') as [|c r'']; [discriminate|].
  destruct (c =? 44); [apply IH|].
  destruct (c =? 93); [|discriminate].
  intros [= <- <-]. eauto.
Qed.

Lemma parse_members_object fuel : forall s acc v r,
  JSON.parse_members fuel s acc = Some (v, r) -> exists props, v = VObject props.
Proof.
  induction fuel as [|fuel IH]; intros s acc v r; simpl; [discriminate|].
  destruct (JSON.eat 34 (JSON.skip_ws s)) as [s1|]; simpl; [|discriminate].
  destruct (JSON.parse_chars s1) as [[k s2]|]; simpl; [|discriminate].
  destruct (JSON.eat 58 (JSON.skip_ws s2)) as [s3|]; simpl; [|discriminate].
  destruct (JSON.parse_value fuel s3) as [[v' r']|]; simpl; [|discriminate].
  destruct (JSON.skip_ws r') as [|c r'']; [discriminate|].
  destruct (c =? 44); [apply IH|].
  destruct (c =? 125); [|discriminate].
  intros [= <- <-]. eauto.
Qed.

Lemma parse_value_defined fuel s v r :
  JSON.parse_value fuel s = Some (v, r) -> v <> VUndefined.
Proof.
  destruct fuel as [|fuel]; simpl; [discriminate|].
  destruct (JSON.skip_ws s) as [|c rest]; [discriminate|].
  destruct (c =? 123).
  { destruct (JSON.eat 125 _); [intros [= <- <-]; discriminate|].
    intros H. apply parse_members_object in H as [props ->]. discriminate. }
  destruct (c =? 91).
  { destruct (JSON.eat 93 _); [intros [= <- <-]; discriminate|].
    intros H. apply parse_elements_array in H as [items ->]. discriminate. }
  destruct (c =? 34).
  { destruct (JSON.parse_chars rest) as [[t r']|]; simpl; [|discriminate].
    intros [= <- <-]. discriminate. }
  destruct (c =? 110).
  { destruct (JSON.expect _ rest); simpl; [|discriminate]. intros [= <- <-]. discriminate. }
  destruct (c =? 116).
  { destruct (JSON.expect _ rest); simpl; [|discriminate]. intros [= <- <-]. discriminate. }
  destruct (c =? 102).
  { destruct (JSON.expect _ rest); simpl; [|discriminate]. intros [= <- <-]. discriminate. }
  destruct (JSON.parse_number (c :: rest)) as [[x r']|]; simpl; [|discriminate].
  intros [= <- <-]. discriminate.
Qed.

(** [JSON.parse] never returns [undefined]. *)
Lemma parse_defined text v : JSON.parse text = Some v -> v <> VUndefined.
Proof.
  unfold JSON.parse.
  destruct (JSON.parse_value _ text) as [[v' r]|] eqn:E; simpl; [|discriminate].
  destruct (JSON.skip_ws r); [|discriminate].
  intros [= <-]. eapply parse_value_defined, E.
Qed.

Lemma falsy_json_spec text v :
  JSON.parse text = Some v -> (truthy v = false <-> falsy_json v).
Proof.
  intros Hp. apply parse_defined in Hp. unfold falsy_json.
  destruct v as [| |[|]|x|s|items|props]; simpl; try congruence.
  - tauto.
  - split; [discriminate|]. intros [H|[H|[(x & H & _)|H]]]; discriminate.
  - tauto.
  - split.
    + intros H. apply negb_false_iff, Z.eqb_eq in H. right; right; left. eauto.
    + intros [H|[H|[(y & [= <-] & ->)|H]]]; try discriminate. reflexivity.
  - destruct s; simpl.
    + tauto.
    + split; [discriminate|]. intros [H|[H|[(x & H & _)|H]]]; discriminate.
  - split; [discriminate|]. intros [H|[H|[(x & H & _)|H]]]; discriminate.
  - split; [discriminate|]. intros [H|[H|[(x & H & _)|H]]]; discriminate.
Qed.

Lemma parse_nonempty j v : JSON.parse j = Some v -> truthy (VString j) = true.
Proof. destruct j; [discriminate|reflexivity]. Qed.

Lemma validateJSON_parsed j v : JSON.parse j = Some v -> validateJSON (VString j) = v.
Proof. unfold validateJSON. simpl. now intros ->. Qed.

Ltac status_not_400 :=
  store_cases;
  match goal with
  | |- ?r = invalid_json_response -> _ => intros [=]
  end.

Lemma flat_create_falsy_json req j v w :
  truthy (get_prop (req_body req) "name") = true ->
  validateSlug (get_prop (req_body req) "slug") = true ->
  truthy (get_prop (req_body req) "slug") = true ->
  get_prop (req_body req) "jsonData" = VString j ->
  JSON.parse j = Some v ->
  fst (Flat.create req w) = invalid_json_response <-> truthy v = false.
Proof.
  intros Hn Hv Hs Hj Hp. unfold Flat.create, Flat.internal_error.
  rewrite Hn, Hv, Hs, Hj, (parse_nonempty j v Hp), (validateJSON_parsed j v Hp).
  cbn [negb orb]. destruct (truthy v); cbn [negb].
  - split; [|discriminate]. status_not_400.
  - split; reflexivity.
Qed.

Lemma prefixed_create_falsy_json req j v w :
  truthy (get_prop (req_body req) "name") = true ->
  validateSlug (get_prop (req_body req) "slug") = true ->
  truthy (get_prop (req_body req) "slug") = true ->
  get_prop (req_body req) "jsonData" = VString j ->
  JSON.parse j = Some v ->
  fst (Prefixed.create req w) = invalid_json_response <-> truthy v = false.
Proof.
  intros Hn Hv Hs Hj Hp. unfold Prefixed.create, Prefixed.internal_error.
  rewrite Hn, Hv, Hs, Hj, (parse_nonempty j v Hp), (validateJSON_parsed j v Hp).
  cbn [negb orb]. destruct (truthy v); cbn [negb].
  - split; [|discriminate]. status_not_400.
  - split; reflexivity.
Qed.

Lemma flat_update_falsy_json req j v w :
  get_prop (req_body req) "jsonData" = VString j ->
  JSON.parse j = Some v ->
  fst (Flat.update req w) = invalid_json_response <-> truthy v = false.
Proof.
  intros Hj Hp. unfold Flat.update, Flat.internal_error.
  rewrite Hj, (parse_nonempty j v Hp), (validateJSON_parsed j v Hp).
  cbn [negb]. destruct (truthy v); cbn [negb].
  - split; [|discriminate]. status_not_400.
  - split; reflexivity.
Qed.

Lemma prefixed_update_falsy_json req j v w :
  validateSlug (param req "slug") = true ->
  get_prop (req_body req) "jsonData" = VString j ->
  JSON.parse j = Some v ->
  fst (Prefixed.update req w) = invalid_json_response <-> truthy v = false.
Proof.
  intros Hv Hj Hp. unfold Prefixed.update, Prefixed.internal_error.
  rewrite Hv, Hj, (validateJSON_parsed j v Hp).
  cbn [negb]. destruct (truthy v); cbn [negb].
  - split; [|discriminate]. status_not_400.
  - split; reflexivity.
Qed.

(** C10. Implicit in the code: for a JSON text that is valid, the create
    and update handlers of both servers answer 400 "Invalid JSON data"
    exactly when the parsed value is falsy, that is [null], [false], a zero
    or the empty string: the validator returns [null] both for a text that
    does not parse and for the text [null], and the handlers test its
    result for truthiness.  The texts [null], [false], [0] and the empty
    string literal are such texts. *)
Theorem falsy_json_rejected (sv : server) (body : value) (s j : jsstring)
    (parsed : value) (w : world) :
  truthy (get_prop body "name") = true ->
  get_prop body "slug" = VString s ->
  validateSlug (VString s) = true ->
  get_prop body "jsonData" = VString j ->
  JSON.parse j = Some parsed ->
  (truthy parsed = false <-> falsy_json parsed)
  /\ (fst (app_of sv (create_request sv body) w) = invalid_json_response
      <-> truthy parsed = false)
  /\ (fst (app_of sv (update_request sv s body) w) = invalid_json_response
      <-> truthy parsed = false)
  /\ validateJSON (text "null") = validateJSON (text "{")
  /\ Forall (fun t => exists v, JSON.parse t = Some v /\ truthy v = false)
       [str "null"; str "false"; str "0"; [34; 34]].
Proof.
  intros Hn Hs Hv Hj Hp.
  pose proof (valid_slug_nonempty s Hv) as Hne.
  assert (Ht : truthy (VString s) = true) by (destruct s; [congruence|reflexivity]).
  split; [exact (falsy_json_spec j parsed Hp)|].
  split; [|split; [|split]].
  - rewrite app_create. destruct sv.
    + apply (flat_create_falsy_json _ j); simpl; rewrite ?Hs; auto.
    + apply (prefixed_create_falsy_json _ j); simpl; rewrite ?Hs; auto.
  - destruct sv; simpl app_of.
    + rewrite flat_app_update by exact Hne. now apply (flat_update_falsy_json _ j).
    + rewrite prefixed_app_update by exact Hne.
      apply (prefixed_update_falsy_json _ j); auto.
  - reflexivity.
  - repeat constructor; eexists; (split; [vm_compute; reflexivity|reflexivity]).
Qed.

Lemma falsy_json_rejected_witness :
  fst (app_of FlatServer (create_request FlatServer (create_body "Zero" "0" "zero")) fresh_world)
    = invalid_json_response
  <-> truthy (VNumber (Num 0 0)) = false.
Proof.
  apply (falsy_json_rejected FlatServer (create_body "Zero" "0" "zero")
           (str "zero") (str "0") (VNumber (Num 0 0)) fresh_world);
    reflexivity.
Defined.

Example create_null_rejected :
  Prefixed.app (create_request PrefixedServer (create_body "Nothing" "null" "nothing"))
    fresh_world
  = (invalid_json_response, fresh_world).
Proof. vm_compute. reflexivity. Qed.

Example create_underflow_rejected :
  Prefixed.app (create_request PrefixedServer (create_body "Tiny" "1e-400" "tiny"))
    fresh_world
  = (invalid_json_response, fresh_world).
Proof. vm_compute. reflexivity. Qed.

(** ** Decimal digits *)

Ltac hide_divmod :=
  repeat match goal with
    | |- context [N.div ?a ?b] =>
        let q := fresh "q" in set (q := N.div a b) in *; clearbody q
    | |- context [N.modulo ?a ?b] =>
        let q := fresh "r" in set (q := N.modulo a b) in *; clearbody q
    | H : context [N.div ?a ?b] |- _ =>
        let q := fresh "q" in set (q := N.div a b) in *; clearbody q
    | H : context [N.modulo ?a ?b] |- _ =>
        let q := fresh "r" in set (q := N.modulo a b) in *; clearbody q
    end.

Lemma digits_value_app ds c :
  JSON.digits_value (ds ++ [c]) = 10 * JSON.digits_value ds + (c - 48).
Proof. unfold JSON.digits_value. now rewrite fold_left_app. Qed.

Lemma digits_value_fold ds : forall acc,
  fold_left (fun a c => 10 * a + (c - 48)) ds acc
  = acc * 10 ^ N.of_nat (length ds) + JSON.digits_value ds.
Proof.
  unfold JSON.digits_value.
  induction ds as [|c ds IH]; intros acc; simpl fold_left.
  - simpl. lia.
  - rewrite IH, (IH (10 * 0 + (c - 48))).
    replace (N.of_nat (length (c :: ds))) with (N.succ (N.of_nat (length ds)))
      by (simpl; lia).
    rewrite N.pow_succ_r'. lia.
Qed.

Lemma digits_value_concat a b :
  JSON.digits_value (a ++ b)
  = JSON.digits_value a * 10 ^ N.of_nat (length b) + JSON.digits_value b.
Proof.
  unfold JSON.digits_value at 1. rewrite fold_left_app.
  fold (JSON.digits_value a). apply digits_value_fold.
Qed.

Lemma digits_value_zeros k : JSON.digits_value (repeat 48 k) = 0.
Proof.
  induction k as [|k IH]; [reflexivity|].
  change (repeat 48 (S k)) with ([48] ++ repeat 48 k).
  rewrite digits_value_concat, IH. reflexivity.
Qed.

Lemma digits_fuel_acc fuel : forall n acc,
  digits_fuel fuel n acc = digits_fuel fuel n [] ++ acc.
Proof.
  induction fuel as [|fuel IH]; intros n acc; simpl; [reflexivity|].
  destruct (n / 10 =? 0); [reflexivity|].
  rewrite IH, (IH _ [_]). now rewrite <- app_assoc.
Qed.

Lemma digits_fuel_step fuel n :
  digits_fuel (S fuel) n []
  = if n / 10 =? 0 then [48 + n mod 10]
    else digits_fuel fuel (n / 10) [] ++ [48 + n mod 10].
Proof. simpl. destruct (n / 10 =? 0); [reflexivity|]. apply digits_fuel_acc. Qed.

Lemma div10_lt_pow2 n k : n < 2 ^ N.succ k -> n / 10 < 2 ^ k.
Proof.
  intros H. rewrite N.pow_succ_r' in H.
  apply N.Div0.div_lt_upper_bound. lia.
Qed.

Lemma digits_fuel_value fuel : forall n,
  n < 2 ^ N.of_nat fuel -> JSON.digits_value (digits_fuel fuel n []) = n.
Proof.
  induction fuel as [|fuel IH]; intros n Hn.
  - simpl in Hn. assert (n = 0) by lia. subst. reflexivity.
  - rewrite digits_fuel_step.
    pose proof (N.div_mod n 10 ltac:(lia)) as Hdm.
    destruct (n / 10 =? 0) eqn:E.
    + apply N.eqb_eq in E. unfold JSON.digits_value. simpl. clear - Hdm E. hide_divmod. lia.
    + rewrite digits_value_app, IH.
      * clear - Hdm. hide_divmod. lia.
      * apply div10_lt_pow2. now rewrite <- Nat2N.inj_succ.
Qed.

Lemma lt_pow2_log2 n : n < 2 ^ N.of_nat (S (N.to_nat (N.log2 n))).
Proof.
  rewrite Nat2N.inj_succ, N2Nat.id.
  destruct (N.eq_dec n 0) as [->|Hn]; [reflexivity|].
  apply N.log2_spec. lia.
Qed.

Lemma digits_value_digits n : JSON.digits_value (digits n) = n.
Proof. apply digits_fuel_value, lt_pow2_log2. Qed.

Lemma digits_fuel_all_digits fuel : forall n,
  Forall (fun c => JSON.is_digit c = true) (digits_fuel fuel n []).
Proof.
  assert (Hd : forall n, JSON.is_digit (48 + n mod 10) = true).
  { intros n. unfold JSON.is_digit.
    pose proof (N.mod_upper_bound n 10 ltac:(lia)).
    apply andb_true_iff. split; apply N.leb_le; hide_divmod; lia. }
  induction fuel as [|fuel IH]; intros n.
  - constructor.
  - rewrite digits_fuel_step. destruct (n / 10 =? 0).
    + repeat constructor. apply Hd.
    + apply Forall_app. split; [apply IH|]. repeat constructor. apply Hd.
Qed.

Lemma digits_all_digits n : Forall (fun c => JSON.is_digit c = true) (digits n).
Proof. apply digits_fuel_all_digits. Qed.

Lemma digits_fuel_head fuel : forall n,
  n <> 0 -> n < 2 ^ N.of_nat fuel ->
  exists d ds, digits_fuel fuel n [] = d :: ds /\ d <> 48.
Proof.
  induction fuel as [|fuel IH]; intros n Hn Hlt.
  - simpl in Hlt. lia.
  - rewrite digits_fuel_step.
    pose proof (N.div_mod n 10 ltac:(lia)) as Hdm.
    destruct (n / 10 =? 0) eqn:E.
    + apply N.eqb_eq in E. exists (48 + n mod 10), []. split; [reflexivity|].
      clear - Hn Hdm E. hide_divmod. lia.
    + apply N.eqb_neq in E.
      destruct (IH (n / 10) E) as (d & ds & Hds & Hd).
      { apply div10_lt_pow2. now rewrite <- Nat2N.inj_succ. }
      rewrite Hds. exists d, (ds ++ [48 + n mod 10]). split; [reflexivity|exact Hd].
Qed.

Lemma digits_head n :
  n <> 0 -> exists d ds, digits n = d :: ds /\ d <> 48.
Proof. intros Hn. apply digits_fuel_head; [exact Hn|apply lt_pow2_log2]. Qed.

Lemma digits_nonempty n : digits n <> [].
Proof.
  unfold digits. rewrite digits_fuel_step.
  destruct (n / 10 =? 0); [discriminate|].
  intros H. apply app_eq_nil in H as [_ H]. discriminate.
Qed.

(** ** Number literals *)

Lemma ends_number_not_digit rest : ends_number rest -> not_digit_head rest.
Proof. destruct rest; simpl; tauto. Qed.

Lemma span_digits_app ds rest :
  Forall (fun c => JSON.is_digit c = true) ds -> not_digit_head rest ->
  JSON.span_digits (ds ++ rest) = (ds, rest).
Proof.
  intros Hds Hrest. induction Hds as [|c ds Hc _ IH]; cbn [JSON.span_digits app].
  - destruct rest as [|c rest]; [reflexivity|].
    cbn [JSON.span_digits]. cbn [not_digit_head] in Hrest. now rewrite Hrest.
  - now rewrite Hc, IH.
Qed.

Lemma parse_int_digits d ds rest :
  JSON.is_digit d = true -> d <> 48 ->
  Forall (fun c => JSON.is_digit c = true) ds -> not_digit_head rest ->
  JSON.parse_int (d :: ds ++ rest) = Some (d :: ds, rest).
Proof.
  intros Hd Hd0 Hds Hrest. unfold JSON.parse_int.
  apply N.eqb_neq in Hd0. rewrite Hd0, Hd.
  change (d :: ds ++ rest) with ((d :: ds) ++ rest).
  rewrite span_digits_app; auto.
Qed.

Lemma eat_other c rest :
  match rest with [] => True | d :: _ => d <> c end -> JSON.eat c rest = None.
Proof.
  destruct rest as [|d rest]; [reflexivity|]. simpl. intros H.
  apply N.eqb_neq in H. now rewrite H.
Qed.

Lemma parse_frac_none rest :
  match rest with [] => True | d :: _ => d <> 46 end ->
  JSON.parse_frac rest = Some ([], rest).
Proof. intros H. unfold JSON.parse_frac. now rewrite eat_other. Qed.

Lemma parse_frac_digits ds rest :
  ds <> [] -> Forall (fun c => JSON.is_digit c = true) ds -> not_digit_head rest ->
  JSON.parse_frac (46 :: ds ++ rest) = Some (ds, rest).
Proof.
  intros Hne Hds Hrest. unfold JSON.parse_frac.
  change (JSON.eat 46 (46 :: ds ++ rest)) with (Some (ds ++ rest)). cbv beta iota.
  rewrite span_digits_app by auto. destruct ds; [congruence|reflexivity].
Qed.

Lemma parse_exp_none rest :
  match rest with [] => True | d :: _ => d <> 101 /\ d <> 69 end ->
  JSON.parse_exp rest = Some (0%Z, rest).
Proof.
  destruct rest as [|d rest]; [reflexivity|]. intros [H1 H2]. simpl.
  apply N.eqb_neq in H1, H2. now rewrite H1, H2.
Qed.

Lemma parse_exp_digits (e : Z) rest :
  not_digit_head rest ->
  JSON.parse_exp (101 :: (if (e <? 0)%Z then str "-" else str "+")
                    ++ digits (Z.abs_N e) ++ rest) = Some (e, rest).
Proof.
  intros Hrest. unfold JSON.parse_exp.
  change ((101 =? 101) || (101 =? 69)) with true. cbv iota.
  pose proof (digits_all_digits (Z.abs_N e)) as Hds.
  pose proof (digits_nonempty (Z.abs_N e)) as Hne.
  destruct (e <? 0)%Z eqn:E; simpl; rewrite span_digits_app by auto;
    destruct (digits (Z.abs_N e)) eqn:Ed; try congruence;
    rewrite <- Ed, digits_value_digits; f_equal; f_equal; lia.
Qed.

(** ** Normal forms of numbers *)

Lemma strip_zeros_pow (j : nat) : forall fuel m e,
  (j < fuel)%nat -> (m mod 10 <> 0)%Z ->
  strip_zeros fuel (m * 10 ^ Z.of_nat j)%Z e = Num m (e + Z.of_nat j)%Z.
Proof.
  induction j as [|j IH]; intros fuel m e Hf Hm; (destruct fuel as [|fuel]; [lia|]).
  - simpl strip_zeros. rewrite Z.mul_1_r.
    apply Z.eqb_neq in Hm. rewrite Hm. f_equal. simpl. lia.
  - cbn [strip_zeros].
    replace (m * 10 ^ Z.of_nat (S j))%Z with ((m * 10 ^ Z.of_nat j) * 10)%Z
      by (rewrite Nat2Z.inj_succ, Z.pow_succ_r by lia; lia).
    rewrite Z.mod_mul by lia. rewrite Z.eqb_refl.
    rewrite Z.div_mul by lia. rewrite IH by (auto; lia). f_equal. lia.
Qed.

Lemma pow10_log2 (m : Z) (j : nat) :
  (m <> 0)%Z -> (j < S (Z.to_nat (Z.log2 (Z.abs (m * 10 ^ Z.of_nat j)))))%nat.
Proof.
  intros Hm.
  assert (H2 : (2 ^ Z.of_nat j <= Z.abs (m * 10 ^ Z.of_nat j))%Z).
  { rewrite Z.abs_mul. rewrite (Z.abs_eq (10 ^ _)) by (apply Z.pow_nonneg; lia).
    assert (2 ^ Z.of_nat j <= 10 ^ Z.of_nat j)%Z
      by (apply Z.pow_le_mono_l; lia).
    assert (0 < 10 ^ Z.of_nat j)%Z by (apply Z.pow_pos_nonneg; lia).
    nia. }
  apply Z.log2_le_mono in H2. rewrite Z.log2_pow2 in H2 by lia. lia.
Qed.

Lemma normalize_pow m j e :
  (m mod 10 <> 0)%Z ->
  normalize (Num (m * 10 ^ Z.of_nat j) e) = Num m (e + Z.of_nat j).
Proof.
  intros Hm. assert (Hm0 : (m <> 0)%Z) by (intros ->; now apply Hm).
  unfold normalize. cbn [mant expo].
  assert (Hne : (m * 10 ^ Z.of_nat j <> 0)%Z).
  { assert (0 < 10 ^ Z.of_nat j)%Z by (apply Z.pow_pos_nonneg; lia). nia. }
  apply Z.eqb_neq in Hne. rewrite Hne.
  apply strip_zeros_pow; [now apply pow10_log2|exact Hm].
Qed.

Lemma normalize_normal x : normal x -> normalize x = x.
Proof.
  destruct x as [m e]. intros [H0 Hn]. cbn [mant expo] in *.
  destruct (Z.eq_dec m 0%Z) as [->|Hm].
  - rewrite (H0 eq_refl). reflexivity.
  - pose proof (normalize_pow m 0%nat e (Hn Hm)) as H.
    simpl Z.of_nat in H. rewrite Z.pow_0_r, Z.mul_1_r, Z.add_0_r in H. exact H.
Qed.

Lemma number_of_literal_spec neg ds (e : Z) (s : N) (j : nat) :
  JSON.digits_value ds = s * 10 ^ N.of_nat j ->
  (Z.of_N s mod 10 <> 0)%Z ->
  underflows (Z.of_N (s * 10 ^ N.of_nat j)) e = false ->
  JSON.number_of_literal neg ds e
  = Num (if neg then - Z.of_N s else Z.of_N s) (e + Z.of_nat j).
Proof.
  intros Hv Hs Hu. unfold JSON.number_of_literal. rewrite Hv, Hu.
  assert (Hs0 : s <> 0) by (intros ->; now apply Hs).
  assert (Hpow : Z.of_N (s * 10 ^ N.of_nat j) = (Z.of_N s * 10 ^ Z.of_nat j)%Z).
  { rewrite N2Z.inj_mul, N2Z.inj_pow. now rewrite nat_N_Z. }
  assert (Hne : (Z.of_N (s * 10 ^ N.of_nat j) <> 0)%Z).
  { rewrite Hpow. assert (0 < 10 ^ Z.of_nat j)%Z by (apply Z.pow_pos_nonneg; lia). nia. }
  apply Z.eqb_neq in Hne. rewrite Hne. rewrite Hpow.
  destruct neg.
  - rewrite <- Z.mul_opp_l. apply normalize_pow.
    intros H. apply Hs. apply Z.mod_divide in H; [|lia]. apply Z.mod_divide; [lia|].
    apply Z.divide_opp_r in H. now rewrite Z.opp_involutive in H.
  - now apply normalize_pow.
Qed.

Lemma number_of_literal_exact neg ds (e : Z) (a : N) :
  JSON.digits_value ds = a ->
  (Z.of_N a mod 10 <> 0)%Z ->
  underflows (Z.of_N a) e = false ->
  JSON.number_of_literal neg ds e = Num (if neg then - Z.of_N a else Z.of_N a) e.
Proof.
  intros Hv Hs Hu.
  rewrite (number_of_literal_spec neg ds e a 0%nat).
  - f_equal. simpl. lia.
  - rewrite Hv. simpl. lia.
  - exact Hs.
  - simpl N.of_nat. now rewrite N.pow_0_r, N.mul_1_r.
Qed.

Lemma ends_number_frac rest :
  ends_number rest -> match rest with [] => True | d :: _ => d <> 46 end.
Proof. destruct rest; simpl; tauto. Qed.

Lemma ends_number_exp rest :
  ends_number rest -> match rest with [] => True | d :: _ => d <> 101 /\ d <> 69 end.
Proof. destruct rest; simpl; tauto. Qed.

Lemma zeros_all_digits k : Forall (fun c => JSON.is_digit c = true) (repeat 48 k).
Proof. induction k; simpl; constructor; auto. Qed.

Lemma underflows_nonneg m e : (0 <= e)%Z -> underflows m e = false.
Proof. intros H. unfold underflows. apply Z.ltb_ge in H. now rewrite H. Qed.

Lemma parse_unsigned_toString neg (a : N) (e : Z) rest :
  a <> 0 -> (Z.of_N a mod 10 <> 0)%Z -> underflows (Z.of_N a) e = false ->
  ends_number rest ->
  let s := digits a in
  let k := Z.of_nat (length s) in
  let n := (k + e)%Z in
  JSON.parse_unsigned neg
    ((if ((k <=? n) && (n <=? 21))%Z then
        s ++ repeat 48 (Z.to_nat (n - k))
      else if ((0 <? n) && (n <=? 21))%Z then
        take (Z.to_nat n) s ++ str "." ++ drop (Z.to_nat n) s
      else if ((-6 <? n) && (n <=? 0))%Z then
        str "0." ++ repeat 48 (Z.to_nat (- n)) ++ s
      else
        let e := (n - 1)%Z in
        let es := (if (e <? 0)%Z then str "-" else str "+") ++ digits (Z.abs_N e) in
        match s with
        | [] => []
        | [d] => d :: str "e" ++ es
        | d :: rest => d :: str "." ++ rest ++ str "e" ++ es
        end) ++ rest)
  = Some (Num (if neg then - Z.of_N a else Z.of_N a) e, rest).
Proof.
  intros Ha Hmod Hu Hrest s k n.
  pose proof (digits_all_digits a) as Hall. fold s in Hall.
  pose proof (digits_value_digits a) as Hval. fold s in Hval.
  destruct (digits_head a Ha) as (d & ds & Hs & Hd). fold s in Hs.
  assert (Hdd : JSON.is_digit d = true /\ Forall (fun c => JSON.is_digit c = true) ds).
  { rewrite Hs in Hall. now apply Forall_cons in Hall. }
  destruct Hdd as [Hdd Hds].
  pose proof (ends_number_not_digit rest Hrest) as Hnd.
  pose proof (ends_number_frac rest Hrest) as Hnf.
  pose proof (ends_number_exp rest Hrest) as Hne.
  assert (Hk : k = Z.of_nat (S (length ds))) by (unfold k; now rewrite Hs).
  unfold JSON.parse_unsigned.
  destruct ((k <=? n) && (n <=? 21))%Z eqn:F1.
  { (* digits followed by zeros *)
    apply andb_true_iff in F1 as [F1 _]. apply Z.leb_le in F1.
    rewrite Hs. rewrite <- app_assoc. cbn [app].
    rewrite (app_assoc ds).
    rewrite parse_int_digits; auto.
    2:{ apply Forall_app. split; [exact Hds|apply zeros_all_digits]. }
    cbn [mbind option_bind]. rewrite parse_frac_none by exact Hnf.
    cbn [mbind option_bind]. rewrite parse_exp_none by exact Hne.
    cbn [mbind option_bind]. rewrite app_nil_r. cbn [length].
    f_equal. f_equal.
    rewrite (number_of_literal_spec neg _ _ a (Z.to_nat (n - k))); auto.
    - f_equal. unfold n. lia.
    - change (d :: ds ++ repeat 48 (Z.to_nat (n - k)))
        with ((d :: ds) ++ repeat 48 (Z.to_nat (n - k))).
      rewrite <- Hs, digits_value_concat, Hval, digits_value_zeros, repeat_length. lia. }
  destruct ((0 <? n) && (n <=? 21))%Z eqn:F2.
  { (* a decimal point inside the digits *)
    apply andb_true_iff in F2 as [F2 F2']. apply Z.ltb_lt in F2. apply Z.leb_le in F2'.
    assert (Hnk : (n < k)%Z).
    { apply andb_false_iff in F1 as [F1|F1]; apply Z.leb_gt in F1; lia. }
    destruct (Z.to_nat n) as [|n'] eqn:En; [lia|].
    rewrite Hs. cbn [take drop]. change (str ".") with [46].
    rewrite <- !app_assoc. cbn [app].
    rewrite parse_int_digits; auto.
    2:{ now apply Forall_take. }
    2:{ reflexivity. }
    cbn [mbind option_bind app]. rewrite parse_frac_digits; auto.
    2:{ intros H. apply (f_equal length) in H. rewrite length_drop in H.
        simpl in H. lia. }
    2:{ now apply Forall_drop. }
    cbn [mbind option_bind]. rewrite parse_exp_none by exact Hne.
    cbn [mbind option_bind]. f_equal. f_equal.
    replace (0 - Z.of_nat (length (drop n' ds)))%Z with e
      by (rewrite length_drop; unfold n in *; lia).
    apply number_of_literal_exact; auto.
    cbn [app]. now rewrite take_drop, <- Hs. }
  destruct ((-6 <? n) && (n <=? 0))%Z eqn:F3.
  { (* zeros between the point and the digits *)
    apply andb_true_iff in F3 as [F3 F3']. apply Z.ltb_lt in F3. apply Z.leb_le in F3'.
    change (str "0.") with [48; 46]. cbn [app].
    change (JSON.parse_int (48 :: 46 :: ?x)) with (Some ([48], 46 :: x)).
    cbn [mbind option_bind].
    rewrite parse_frac_digits; auto.
    2:{ intros H. apply app_eq_nil in H as [_ H]. now rewrite Hs in H. }
    2:{ apply Forall_app. split; [apply zeros_all_digits|exact Hall]. }
    cbn [mbind option_bind]. rewrite parse_exp_none by exact Hne.
    cbn [mbind option_bind]. f_equal. f_equal.
    replace (0 - Z.of_nat (length (repeat 48%N (Z.to_nat (- n)) ++ s)))%Z with e
      by (rewrite length_app, repeat_length; unfold n, k in *; lia).
    apply number_of_literal_exact; auto.
    change ([48] ++ repeat 48 (Z.to_nat (- n)) ++ s)
      with (repeat 48 (S (Z.to_nat (- n))) ++ s).
    rewrite digits_value_concat, digits_value_zeros, Hval. lia. }
  (* exponent notation *)
  cbv zeta. rewrite Hs in *. change (str ".") with [46]. change (str "e") with [101].
  destruct ds as [|d2 ds2].
  - cbn [app]. rewrite <- app_assoc.
    change (d :: 101 :: ?x) with (d :: [] ++ 101 :: x).
    rewrite parse_int_digits; auto; [|reflexivity].
    cbn [mbind option_bind]. rewrite parse_frac_none by (simpl; lia).
    cbn [mbind option_bind]. rewrite (parse_exp_digits (n - 1) rest Hnd).
    cbn [mbind option_bind]. f_equal. f_equal.
    replace (n - 1 - Z.of_nat (length (@nil N)))%Z with e
      by (unfold n, k in *; simpl; simpl in Hk; lia).
    apply number_of_literal_exact; auto.
  - cbn [app]. rewrite <- !app_assoc. cbn [app].
    change (d :: 46 :: ?x) with (d :: [] ++ 46 :: x).
    rewrite parse_int_digits; auto; [|reflexivity].
    cbn [mbind option_bind].
    change (d2 :: ds2 ++ 101 :: ?x) with ((d2 :: ds2) ++ 101 :: x).
    rewrite parse_frac_digits; auto; [|reflexivity].
    cbn [mbind option_bind]. rewrite <- app_assoc.
    rewrite (parse_exp_digits (n - 1) rest Hnd).
    cbn [mbind option_bind]. f_equal. f_equal.
    replace (n - 1 - Z.of_nat (length (d2 :: ds2)))%Z with e
      by (unfold n, k in *; simpl length in *; lia).
    apply number_of_literal_exact; auto.
Qed.


Lemma parse_int_head t int r :
  JSON.parse_int t = Some (int, r) ->
  exists c t', t = c :: t' /\ JSON.is_digit c = true.
Proof.
  destruct t as [|c t']; [discriminate|]. unfold JSON.parse_int.
  destruct (c =? 48) eqn:E.
  - apply N.eqb_eq in E. subst. eauto.
  - destruct (JSON.is_digit c) eqn:Ed; [eauto|discriminate].
Qed.

Lemma parse_unsigned_head neg t x r :
  JSON.parse_unsigned neg t = Some (x, r) ->
  exists c t', t = c :: t' /\ JSON.is_digit c = true.
Proof.
  unfold JSON.parse_unsigned.
  destruct (JSON.parse_int t) as [[int s2]|] eqn:E; [|discriminate].
  intros _. eapply parse_int_head, E.
Qed.

Lemma digit_not_minus c : JSON.is_digit c = true -> (c =? 45) = false.
Proof.
  unfold JSON.is_digit. intros H. apply andb_true_iff in H as [H _].
  apply N.leb_le in H. apply N.eqb_neq. lia.
Qed.

Lemma parse_number_positive t x r :
  JSON.parse_unsigned false t = Some (x, r) -> JSON.parse_number t = Some (x, r).
Proof.
  intros H. destruct (parse_unsigned_head _ _ _ _ H) as (c & t' & -> & Hc).
  unfold JSON.parse_number, JSON.parse_sign, JSON.eat.
  now rewrite (digit_not_minus c Hc).
Qed.

Lemma parse_number_negative t :
  JSON.parse_number (45 :: t) = JSON.parse_unsigned true t.
Proof. reflexivity. Qed.

Lemma underflows_abs m e : underflows (Z.abs m) e = underflows m e.
Proof. unfold underflows. now rewrite Z.abs_idemp. Qed.

(** A representable number is read back from its text. *)
Lemma parse_number_toString x rest :
  representable_number x -> ends_number rest ->
  JSON.parse_number (Number_toString x ++ rest) = Some (x, rest).
Proof.
  intros [Hn Hu] Hrest. unfold Number_toString.
  rewrite (normalize_normal x Hn).
  destruct x as [m e]. cbn [mant expo] in *.
  destruct Hn as [H0 Hmod]. cbn [mant expo] in *.
  destruct (m =? 0)%Z eqn:E.
  - apply Z.eqb_eq in E. subst m. rewrite (H0 eq_refl).
    change (str "0" ++ rest) with (48 :: rest).
    apply parse_number_positive. unfold JSON.parse_unsigned.
    change (JSON.parse_int (48 :: rest)) with (Some ([48], rest)).
    cbn [mbind option_bind].
    rewrite parse_frac_none by (destruct rest; simpl in *; tauto).
    cbn [mbind option_bind].
    rewrite parse_exp_none by (destruct rest; simpl in *; tauto).
    reflexivity.
  - apply Z.eqb_neq in E. specialize (Hmod E).
    assert (Ha : Z.abs_N m <> 0) by lia.
    assert (Habs : Z.of_N (Z.abs_N m) = Z.abs m) by lia.
    assert (Hmod' : (Z.of_N (Z.abs_N m) mod 10 <> 0)%Z).
    { rewrite Habs. intros H. apply Hmod.
      apply Z.mod_divide in H; [|lia]. apply Z.mod_divide; [lia|].
      exact (proj1 (Z.divide_abs_r 10 m) H). }
    assert (Hu' : underflows (Z.of_N (Z.abs_N m)) e = false).
    { now rewrite Habs, underflows_abs. }
    cbv zeta. rewrite <- app_assoc.
    pose proof (fun neg => parse_unsigned_toString neg (Z.abs_N m) e rest Ha Hmod' Hu' Hrest) as H.
    cbv zeta in H.
    destruct (m <? 0)%Z eqn:Es.
    + apply Z.ltb_lt in Es.
      change (JSON.parse_number (str "-" ++ ?t)) with (JSON.parse_unsigned true t).
      rewrite (H true). f_equal. f_equal. f_equal. lia.
    + apply Z.ltb_ge in Es. cbn [app].
      apply parse_number_positive. rewrite (H false). f_equal. f_equal. f_equal. lia.
Qed.

Lemma parse_number_head t x r :
  JSON.parse_number t = Some (x, r) ->
  exists c t', t = c :: t' /\ (c = 45 \/ JSON.is_digit c = true).
Proof.
  unfold JSON.parse_number, JSON.parse_sign.
  destruct t as [|c t']; simpl JSON.eat.
  - intros H. apply parse_unsigned_head in H as (c & t' & H & _). discriminate.
  - destruct (c =? 45) eqn:E.
    + apply N.eqb_eq in E. subst. eauto.
    + intros H. apply parse_unsigned_head in H as (c' & t'' & [= <- <-] & Hc). eauto.
Qed.

(** ** String literals *)

Lemma hex_value_digit n : n < 16 -> JSON.hex_value (JSON.hex_digit n) = Some n.
Proof.
  intros H.
  assert (Hn : In n [0; 1; 2; 3; 4; 5; 6; 7; 8; 9; 10; 11; 12; 13; 14; 15]).
  { simpl. lia. }
  simpl in Hn. repeat (destruct Hn as [<-|Hn]; [reflexivity|]). contradiction.
Qed.

Lemma hex4_escape c :
  c < 65536 ->
  JSON.hex4 (JSON.hex_digit (c / 4096 mod 16)) (JSON.hex_digit (c / 256 mod 16))
    (JSON.hex_digit (c / 16 mod 16)) (JSON.hex_digit (c mod 16)) = Some c.
Proof.
  intros H. unfold JSON.hex4.
  rewrite !hex_value_digit by (apply N.mod_upper_bound; lia).
  cbn [mbind option_bind]. f_equal.
  pose proof (N.div_mod c 16 ltac:(lia)) as H1.
  pose proof (N.div_mod (c / 16) 16 ltac:(lia)) as H2.
  pose proof (N.div_mod (c / 16 / 16) 16 ltac:(lia)) as H3.
  pose proof (N.div_mod (c / 16 / 16 / 16) 16 ltac:(lia)) as H4.
  assert (H5 : c / 16 / 16 / 16 / 16 = 0).
  { rewrite !N.Div0.div_div. apply N.div_small. exact H. }
  replace (c / 4096) with (c / 16 / 16 / 16) by (now rewrite !N.Div0.div_div).
  replace (c / 256) with (c / 16 / 16) by (now rewrite !N.Div0.div_div).
  rewrite H5 in H4. hide_divmod. lia.
Qed.

Lemma parse_chars_escape_u c rest :
  c < 65536 ->
  JSON.parse_chars (JSON.escape_u c ++ rest)
  = '(t, r) ← JSON.parse_chars rest; Some (c :: t, r).
Proof.
  intros H. unfold JSON.escape_u. cbn [app JSON.parse_chars].
  change (92 =? 34) with false. change (92 =? 92) with true.
  change (117 =? 117) with true. cbv iota.
  now rewrite hex4_escape.
Qed.

Lemma parse_chars_literal c rest :
  c <> 34 -> c <> 92 -> 32 <= c ->
  JSON.parse_chars (c :: rest) = '(t, r) ← JSON.parse_chars rest; Some (c :: t, r).
Proof.
  intros H1 H2 H3. cbn [JSON.parse_chars].
  apply N.eqb_neq in H1, H2. rewrite H1, H2.
  assert (H : (c <? 32) = false) by (apply N.ltb_ge; lia). now rewrite H.
Qed.

Lemma parse_chars_escape_char c rest :
  c < 65536 ->
  JSON.parse_chars (JSON.escape_char c ++ rest)
  = '(t, r) ← JSON.parse_chars rest; Some (c :: t, r).
Proof.
  intros H. unfold JSON.escape_char.
  repeat match goal with
    | |- context [if ?x =? ?y then _ else _] =>
        destruct (N.eqb_spec x y) as [->|?]; [reflexivity|]
    end.
  destruct (N.ltb_spec c 32).
  - now apply parse_chars_escape_u.
  - now apply parse_chars_literal.
Qed.

Lemma surrogate_literal c rest :
  55296 <= c ->
  JSON.parse_chars (c :: rest) = '(t, r) ← JSON.parse_chars rest; Some (c :: t, r).
Proof. intros H. apply parse_chars_literal; lia. Qed.

Lemma parse_quote_chars_bounded (n : nat) : forall s rest,
  (length s <= n)%nat -> Forall code_unit s ->
  JSON.parse_chars (JSON.quote_chars s ++ 34 :: rest) = Some (s, rest).
Proof.
  induction n as [|n IH]; intros s rest Hlen Hs.
  - destruct s; [reflexivity|simpl in Hlen; lia].
  - destruct s as [|c s]; [reflexivity|].
    apply Forall_cons in Hs as [Hc Hs]. cbn [JSON.quote_chars].
    assert (IHs : forall rest, JSON.parse_chars (JSON.quote_chars s ++ 34 :: rest)
                               = Some (s, rest)).
    { intros rest'. apply IH; [simpl in Hlen; lia|exact Hs]. }
    destruct (JSON.is_high_surrogate c) eqn:Eh.
    + unfold JSON.is_high_surrogate in Eh. apply andb_true_iff in Eh as [Eh _].
      apply N.leb_le in Eh.
      destruct s as [|d s'].
      * rewrite parse_chars_escape_u by exact Hc. reflexivity.
      * destruct (JSON.is_low_surrogate d) eqn:El.
        -- unfold JSON.is_low_surrogate in El. apply andb_true_iff in El as [El _].
           apply N.leb_le in El. apply Forall_cons in Hs as [Hd Hs'].
           cbn [app]. rewrite surrogate_literal by exact Eh.
           rewrite surrogate_literal by lia.
           rewrite IH; [reflexivity|simpl in Hlen; lia|exact Hs'].
        -- rewrite <- app_assoc, parse_chars_escape_u by exact Hc.
           now rewrite IHs.
    + destruct (JSON.is_low_surrogate c) eqn:El.
      * rewrite <- app_assoc, parse_chars_escape_u by exact Hc. now rewrite IHs.
      * rewrite <- app_assoc, parse_chars_escape_char by exact Hc. now rewrite IHs.
Qed.

(** A string is read back from its quoted form. *)
Lemma parse_quote_chars s rest :
  Forall code_unit s ->
  JSON.parse_chars (JSON.quote_chars s ++ 34 :: rest) = Some (s, rest).
Proof. apply (parse_quote_chars_bounded (length s)). lia. Qed.

(** ** Values *)

Lemma skip_ws_head c t : JSON.is_ws c = false -> JSON.skip_ws (c :: t) = c :: t.
Proof. intros H. simpl. now rewrite H. Qed.

Lemma skip_ws_starts t rest : starts_value t -> JSON.skip_ws (t ++ rest) = t ++ rest.
Proof. intros (c & t' & -> & Hc & _). now apply skip_ws_head. Qed.

Lemma ends_value_number rest : ends_value rest -> ends_number rest.
Proof.
  destruct rest as [|c rest]; simpl; [tauto|].
  intros [H|[H|H]]; subst; repeat split; discriminate.
Qed.

Lemma expect_prefix lit rest : JSON.expect lit (str lit ++ rest) = Some rest.
Proof.
  unfold JSON.expect. rewrite take_app_length, drop_app_length.
  now rewrite decide_True.
Qed.

Lemma reads_back_null : reads_back VNull (str "null").
Proof.
  split; [exists 110, (str "ull"); repeat split; discriminate|].
  intros [|fuel] rest Hf _; [simpl in Hf; lia|].
  change (str "null" ++ rest) with (110 :: str "ull" ++ rest).
  cbn [JSON.parse_value]. rewrite skip_ws_head by reflexivity.
  change (110 =? 123) with false. change (110 =? 91) with false.
  change (110 =? 34) with false. change (110 =? 110) with true. cbv iota.
  now rewrite expect_prefix.
Qed.

Lemma reads_back_true : reads_back (VBool true) (str "true").
Proof.
  split; [exists 116, (str "rue"); repeat split; discriminate|].
  intros [|fuel] rest Hf _; [simpl in Hf; lia|].
  change (str "true" ++ rest) with (116 :: str "rue" ++ rest).
  cbn [JSON.parse_value]. rewrite skip_ws_head by reflexivity.
  change (116 =? 123) with false. change (116 =? 91) with false.
  change (116 =? 34) with false. change (116 =? 110) with false.
  change (116 =? 116) with true. cbv iota.
  now rewrite expect_prefix.
Qed.

Lemma reads_back_false : reads_back (VBool false) (str "false").
Proof.
  split; [exists 102, (str "alse"); repeat split; discriminate|].
  intros [|fuel] rest Hf _; [simpl in Hf; lia|].
  change (str "false" ++ rest) with (102 :: str "alse" ++ rest).
  cbn [JSON.parse_value]. rewrite skip_ws_head by reflexivity.
  change (102 =? 123) with false. change (102 =? 91) with false.
  change (102 =? 34) with false. change (102 =? 110) with false.
  change (102 =? 116) with false. change (102 =? 102) with true. cbv iota.
  now rewrite expect_prefix.
Qed.

Lemma number_head_tests c :
  c = 45 \/ JSON.is_digit c = true ->
  JSON.is_ws c = false /\ (c =? 123) = false /\ (c =? 91) = false
  /\ (c =? 34) = false /\ (c =? 110) = false /\ (c =? 116) = false
  /\ (c =? 102) = false /\ c <> 93 /\ c <> 125.
Proof.
  intros H.
  assert (Hc : 45 <= c <= 57).
  { destruct H as [->|H]; [lia|]. unfold JSON.is_digit in H.
    apply andb_true_iff in H as [H1 H2]. apply N.leb_le in H1, H2. lia. }
  unfold JSON.is_ws.
  repeat match goal with
    | |- context [?x =? ?y] => destruct (N.eqb_spec x y); [lia|]
    end.
  repeat split; lia.
Qed.

Lemma reads_back_number x :
  representable_number x -> reads_back (VNumber x) (Number_toString x).
Proof.
  intros Hx.
  pose proof (parse_number_toString x [] Hx I) as H0. rewrite app_nil_r in H0.
  destruct (parse_number_head _ _ _ H0) as (c & t' & Ht & Hc).
  destruct (number_head_tests c Hc) as (Hws & T1 & T2 & T3 & T4 & T5 & T6 & N1 & N2).
  split; [exists c, t'; auto|].
  intros [|fuel] rest Hf Hrest; [simpl in Hf; lia|].
  pose proof (parse_number_toString x rest Hx (ends_value_number rest Hrest)) as Hp.
  rewrite Ht in *. cbn [app] in *.
  cbn [JSON.parse_value]. rewrite skip_ws_head by exact Hws.
  rewrite T1, T2, T3, T4, T5, T6, Hp. reflexivity.
Qed.

Lemma reads_back_string s :
  Forall code_unit s -> reads_back (VString s) (JSON.quote s).
Proof.
  intros Hs. unfold JSON.quote.
  split; [eexists 34, _; repeat split; discriminate|].
  intros [|fuel] rest Hf _; [simpl in Hf; lia|].
  cbn [app]. rewrite <- app_assoc. cbn [app].
  cbn [JSON.parse_value]. rewrite skip_ws_head by reflexivity.
  change (34 =? 123) with false. change (34 =? 91) with false.
  change (34 =? 34) with true. cbv iota.
  now rewrite parse_quote_chars.
Qed.

Lemma starts_value_nonempty t : starts_value t -> (0 < length t)%nat.
Proof. intros (c & t' & -> & _). simpl. lia. Qed.

Lemma eat_starts c t rest :
  starts_value t -> (c = 93 \/ c = 125) -> JSON.eat c (JSON.skip_ws (t ++ rest)) = None.
Proof.
  intros Ht Hc. rewrite skip_ws_starts by exact Ht.
  destruct Ht as (d & t' & -> & _ & H1 & H2). cbn [app JSON.eat].
  destruct (N.eqb_spec d c); [|reflexivity]. destruct Hc; congruence.
Qed.

Lemma join_cons2 (sep p q : jsstring) (rest : list jsstring) :
  join sep (p :: q :: rest) = p ++ sep ++ join sep (q :: rest).
Proof. reflexivity. Qed.

Lemma parse_elements_join items texts :
  Forall2 reads_back items texts -> items <> [] ->
  forall fuel acc rest,
    (length (join [44%N] texts) + 1 < fuel)%nat ->
    JSON.parse_elements fuel (join [44] texts ++ 93 :: rest) acc
    = Some (VArray (acc ++ items), rest).
Proof.
  induction 1 as [|v t items texts [Hst Hv] Hrest IH]; [congruence|].
  intros _ [|fuel] acc rest Hf; [lia|].
  pose proof (starts_value_nonempty t Hst) as Hlen.
  destruct Hrest as [|v2 t2 items' texts' Hv2 Hrest'].
  - cbn [join] in *. cbn [JSON.parse_elements].
    rewrite Hv by (simpl; auto; lia). cbn [mbind option_bind].
    rewrite skip_ws_head by reflexivity.
    change (93 =? 44) with false. change (93 =? 93) with true. reflexivity.
  - rewrite join_cons2 in *. rewrite length_app in Hf. cbn [app length] in Hf.
    rewrite <- app_assoc. cbn [app]. cbn [JSON.parse_elements].
    rewrite Hv by (simpl; auto; lia). cbn [mbind option_bind].
    rewrite skip_ws_head by reflexivity.
    change (44 =? 44) with true. cbv iota.
    rewrite IH by (try discriminate; lia).
    now rewrite <- app_assoc.
Qed.

Lemma reads_back_array items texts :
  Forall2 reads_back items texts ->
  reads_back (VArray items) (91 :: join [44] texts ++ [93]).
Proof.
  intros H.
  split; [eexists 91, _; repeat split; discriminate|].
  intros [|fuel] rest Hf _; [simpl in Hf; lia|].
  cbn [app]. rewrite <- app_assoc. cbn [app].
  cbn [JSON.parse_value]. rewrite skip_ws_head by reflexivity.
  change (91 =? 123) with false. change (91 =? 91) with true. cbv iota.
  destruct H as [|v t items texts Hv Hrest].
  - reflexivity.
  - assert (Hst : starts_value (join [44] (t :: texts))).
    { destruct Hv as [(c & t' & -> & Hc) _].
      destruct texts; cbn [join app]; exists c; eauto. }
    rewrite (eat_starts 93) by auto.
    apply (parse_elements_join (v :: items) (t :: texts)).
    + constructor; auto.
    + discriminate.
    + cbn [length] in Hf. rewrite length_app in Hf. cbn [length] in Hf. lia.
Qed.

Lemma set_prop_fresh k v acc :
  k ∉ map fst acc -> set_prop k v acc = acc ++ [(k, v)].
Proof.
  induction acc as [|[k' v'] acc IH]; intros Hk; [reflexivity|].
  cbn [set_prop]. rewrite decide_False.
  - cbn [app]. f_equal. apply IH. intros H. apply Hk. now right.
  - intros ->. apply Hk. now left.
Qed.

Lemma member_text_starts kv mt :
  member_text kv mt -> exists t', mt = 34 :: t'.
Proof. intros (t & -> & _). unfold JSON.quote. cbn [app]. eauto. Qed.

Lemma parse_members_join props texts :
  Forall2 member_text props texts -> props <> [] ->
  forall fuel acc rest,
    NoDup (map fst acc ++ map fst props) ->
    (length (join [44%N] texts) + 1 < fuel)%nat ->
    JSON.parse_members fuel (join [44] texts ++ 125 :: rest) acc
    = Some (VObject (acc ++ props), rest).
Proof.
  induction 1 as [|[k v] mt props texts (t & -> & Hk & Hst & Hv) Hrest IH]; [congruence|].
  intros _ [|fuel] acc rest Hnd Hf; [lia|].
  pose proof (starts_value_nonempty t Hst) as Hlen.
  cbn [fst snd] in *.
  assert (Hfresh : k ∉ map fst acc).
  { cbn [map fst] in Hnd. apply NoDup_app in Hnd as (_ & Hd & _).
    intros Hin. apply (Hd k Hin). now left. }
  assert (Hnd' : NoDup (map fst (acc ++ [(k, v)]) ++ map fst props)).
  { rewrite map_app. cbn [map fst]. rewrite <- app_assoc. exact Hnd. }
  assert (Hmember : forall tail,
    (JSON.quote k ++ 58 :: t) ++ tail
    = 34 :: JSON.quote_chars k ++ 34 :: 58 :: t ++ tail).
  { intros tail. unfold JSON.quote. cbn [app].
    rewrite <- !app_assoc. reflexivity. }
  assert (Hmlen : (length (JSON.quote k ++ 58%N :: t) = length (JSON.quote_chars k) + 3 + length t)%nat).
  { unfold JSON.quote. cbn [app length]. rewrite !length_app. simpl. lia. }
  destruct Hrest as [|kv2 mt2 props' texts' Hm2 Hrest'].
  - cbn [join] in *. rewrite Hmember. rewrite Hmlen in Hf.
    cbn [JSON.parse_members]. rewrite skip_ws_head by reflexivity.
    change (JSON.eat 34 (34 :: ?x)) with (Some x). cbn [mbind option_bind].
    rewrite parse_quote_chars by exact Hk. cbn [mbind option_bind].
    rewrite skip_ws_head by reflexivity.
    change (JSON.eat 58 (58 :: ?x)) with (Some x). cbn [mbind option_bind].
    rewrite Hv by (simpl; auto; lia). cbn [mbind option_bind].
    rewrite skip_ws_head by reflexivity.
    change (125 =? 44) with false. change (125 =? 125) with true. cbv iota.
    now rewrite set_prop_fresh.
  - rewrite join_cons2 in *. rewrite length_app, Hmlen in Hf. cbn [app length] in Hf.
    rewrite <- app_assoc. rewrite Hmember. cbn [app].
    cbn [JSON.parse_members]. rewrite skip_ws_head by reflexivity.
    change (JSON.eat 34 (34 :: ?x)) with (Some x). cbn [mbind option_bind].
    rewrite parse_quote_chars by exact Hk. cbn [mbind option_bind].
    rewrite skip_ws_head by reflexivity.
    change (JSON.eat 58 (58 :: ?x)) with (Some x). cbn [mbind option_bind].
    rewrite Hv by (simpl; auto; lia). cbn [mbind option_bind].
    rewrite skip_ws_head by reflexivity.
    change (44 =? 44) with true. cbv iota.
    rewrite set_prop_fresh by exact Hfresh.
    rewrite IH; auto; try discriminate; try lia.
    now rewrite <- app_assoc.
Qed.

Lemma reads_back_object props texts :
  Forall2 member_text props texts -> NoDup (map fst props) ->
  reads_back (VObject props) (123 :: join [44] texts ++ [125]).
Proof.
  intros H Hnd.
  split; [eexists 123, _; repeat split; discriminate|].
  intros [|fuel] rest Hf _; [simpl in Hf; lia|].
  cbn [app]. rewrite <- app_assoc. cbn [app].
  cbn [JSON.parse_value]. rewrite skip_ws_head by reflexivity.
  change (123 =? 123) with true. cbv iota.
  destruct H as [|kv mt props texts Hm Hrest].
  - reflexivity.
  - assert (Hst : starts_value (join [44] (mt :: texts))).
    { destruct (member_text_starts _ _ Hm) as (t' & ->).
      destruct texts; cbn [join app]; eexists 34, _; repeat split; discriminate. }
    rewrite (eat_starts 125) by auto.
    apply (parse_members_join (kv :: props) (mt :: texts)).
    + constructor; auto.
    + discriminate.
    + exact Hnd.
    + cbn [length] in Hf. rewrite length_app in Hf. cbn [length] in Hf. lia.
Qed.

Lemma representable_inv v :
  representable v ->
  match v with
  | VUndefined => False
  | VNull | VBool _ => True
  | VNumber x => representable_number x
  | VString s => Forall code_unit s
  | VArray items => Forall representable items
  | VObject props =>
      NoDup (map fst props)
      /\ Forall (fun kv => Forall code_unit (fst kv) /\ representable (snd kv)) props
  end.
Proof. now destruct 1. Qed.

Lemma array_texts items :
  Forall (fun v => representable v ->
                   exists t, JSON.stringify v = Some t /\ reads_back v t) items ->
  Forall representable items ->
  Forall2 reads_back items
    (map (fun item => default (str "null") (JSON.stringify item)) items).
Proof.
  induction 1 as [|v items Hv _ IH]; intros Hr; [constructor|].
  apply Forall_cons in Hr as [Hrv Hr]. cbn [map].
  destruct (Hv Hrv) as (t & -> & Ht). constructor; [exact Ht|now apply IH].
Qed.

Lemma object_texts props :
  Forall (fun kv => representable (snd kv) ->
                    exists t, JSON.stringify (snd kv) = Some t /\ reads_back (snd kv) t)
    props ->
  Forall (fun kv => Forall code_unit (fst kv) /\ representable (snd kv)) props ->
  Forall2 member_text props
    (omap (fun kv => t ← JSON.stringify (snd kv);
                     Some (JSON.quote (fst kv) ++ 58 :: t)) props).
Proof.
  induction 1 as [|kv props Hv _ IH]; intros Hr; [constructor|].
  apply Forall_cons in Hr as [[Hk Hrv] Hr]. cbn [omap list_omap].
  destruct (Hv Hrv) as (t & -> & Ht). cbn [mbind option_bind].
  constructor; [|now apply IH]. exists t. auto.
Qed.

(** Every representable value has a text, and is read back from it. *)
Lemma stringify_reads_back v :
  representable v -> exists t, JSON.stringify v = Some t /\ reads_back v t.
Proof.
  induction v as [| |b|x|s|items IH|props IH] using value_nested_ind;
    intros Hr; apply representable_inv in Hr; cbn [JSON.stringify].
  - contradiction.
  - eauto using reads_back_null.
  - destruct b; eauto using reads_back_true, reads_back_false.
  - eauto using reads_back_number.
  - eauto using reads_back_string.
  - eexists. split; [reflexivity|].
    apply reads_back_array. now apply array_texts.
  - destruct Hr as [Hnd Hr]. eexists. split; [reflexivity|].
    apply reads_back_object; [|exact Hnd]. now apply object_texts.
Qed.

(** The round trip: a representable value is what [JSON.parse] makes of
    the text [JSON.stringify] gives for it. *)
Lemma parse_stringify v :
  representable v ->
  exists t, JSON.stringify v = Some t /\ JSON.parse t = Some v.
Proof.
  intros Hr. destruct (stringify_reads_back v Hr) as (t & Hs & _ & Hp).
  exists t. split; [exact Hs|]. unfold JSON.parse.
  rewrite <- (app_nil_r t) at 2. rewrite Hp by (simpl; lia). reflexivity.
Qed.

(** ** The fuel of the parser *)

Lemma skip_ws_length s : (length (JSON.skip_ws s) <= length s)%nat.
Proof.
  induction s as [|c s IH]; simpl; [lia|].
  destruct (JSON.is_ws c); simpl; lia.
Qed.

Lemma eat_length c s r : JSON.eat c s = Some r -> (length r < length s)%nat.
Proof.
  destruct s as [|d s]; simpl; [discriminate|].
  destruct (d =? c); [|discriminate]. intros [= <-]. lia.
Qed.

Lemma parse_chars_length_bounded (n : nat) : forall s t r,
  (length s <= n)%nat ->
  JSON.parse_chars s = Some (t, r) -> (length r < length s)%nat.
Proof.
  induction n as [|n IH]; intros s t r Hn;
    (destruct s as [|c s]; cbn [JSON.parse_chars]; [discriminate|]);
    [simpl in Hn; lia|].
  assert (IH' : forall s' t' r', (length s' <= length s)%nat ->
                  JSON.parse_chars s' = Some (t', r') -> (length r' < length s')%nat).
  { intros s' t' r' Hs'. apply IH. simpl in Hn. lia. }
  destruct (c =? 34); [intros [= <- <-]; simpl; lia|].
  destruct (c =? 92).
  - destruct s as [|e s1]; [discriminate|].
    destruct (e =? 117).
    + destruct s1 as [|h1 [|h2 [|h3 [|h4 s2]]]]; try discriminate.
      destruct (JSON.hex4 h1 h2 h3 h4); cbn [mbind option_bind]; [|discriminate].
      destruct (JSON.parse_chars s2) as [[t' r']|] eqn:E; cbn [mbind option_bind];
        [|discriminate].
      intros [= <- <-]. apply IH' in E; simpl in *; lia.
    + destruct (JSON.simple_escape e); cbn [mbind option_bind]; [|discriminate].
      destruct (JSON.parse_chars s1) as [[t' r']|] eqn:E; cbn [mbind option_bind];
        [|discriminate].
      intros [= <- <-]. apply IH' in E; simpl in *; lia.
  - destruct (c <? 32); [discriminate|].
    destruct (JSON.parse_chars s) as [[t' r']|] eqn:E; cbn [mbind option_bind];
      [|discriminate].
    intros [= <- <-]. apply IH' in E; simpl in *; lia.
Qed.

Lemma parse_chars_length s t r :
  JSON.parse_chars s = Some (t, r) -> (length r < length s)%nat.
Proof. apply (parse_chars_length_bounded (length s)). lia. Qed.

Lemma span_digits_length s ds r :
  JSON.span_digits s = (ds, r) -> (length s = length ds + length r)%nat.
Proof.
  revert ds r. induction s as [|c s IH]; intros ds r; cbn [JSON.span_digits].
  - intros [= <- <-]. reflexivity.
  - destruct (JSON.is_digit c).
    + destruct (JSON.span_digits s) as [ds' r'] eqn:E. intros [= <- <-].
      specialize (IH ds' r' eq_refl). simpl. lia.
    + intros [= <- <-]. reflexivity.
Qed.

Lemma parse_unsigned_length neg s x r :
  JSON.parse_unsigned neg s = Some (x, r) -> (length r < length s)%nat.
Proof.
  unfold JSON.parse_unsigned.
  destruct (JSON.parse_int s) as [[int s2]|] eqn:Ei; cbn [mbind option_bind]; [|discriminate].
  destruct (JSON.parse_frac s2) as [[frac s3]|] eqn:Ef; cbn [mbind option_bind]; [|discriminate].
  destruct (JSON.parse_exp s3) as [[e s4]|] eqn:Ee; cbn [mbind option_bind]; [|discriminate].
  intros [= _ <-].
  assert (H1 : (length s2 < length s)%nat).
  { unfold JSON.parse_int in Ei. destruct s as [|c s']; [discriminate|].
    destruct (c =? 48); [injection Ei as <- <-; simpl; lia|].
    destruct (JSON.is_digit c) eqn:Ed; [|discriminate].
    injection Ei as Ei. cbn [JSON.span_digits] in Ei. rewrite Ed in Ei.
    destruct (JSON.span_digits s') as [ds' r'] eqn:E. injection Ei as <- <-.
    apply span_digits_length in E. simpl. lia. }
  assert (H2 : (length s3 <= length s2)%nat).
  { unfold JSON.parse_frac in Ef. destruct (JSON.eat 46 s2) as [rest|] eqn:E.
    - apply eat_length in E.
      destruct (JSON.span_digits rest) as [ds r'] eqn:Es.
      apply span_digits_length in Es.
      destruct ds; [discriminate|]. injection Ef as <- <-. lia.
    - injection Ef as <- <-. lia. }
  assert (H3 : (length s4 <= length s3)%nat).
  { unfold JSON.parse_exp in Ee. destruct s3 as [|c s3']; [injection Ee as <- <-; lia|].
    destruct ((c =? 101) || (c =? 69)); [|injection Ee as <- <-; lia].
    destruct (JSON.parse_exp_sign s3') as [eneg rest1] eqn:Esg.
    assert (length rest1 <= length s3')%nat.
    { unfold JSON.parse_exp_sign in Esg.
      destruct (JSON.eat 45 s3') eqn:E1.
      - apply eat_length in E1. injection Esg as <- <-. lia.
      - destruct (JSON.eat 43 s3') eqn:E2.
        + apply eat_length in E2. injection Esg as <- <-. lia.
        + injection Esg as <- <-. lia. }
    destruct (JSON.span_digits rest1) as [ds r'] eqn:Es.
    apply span_digits_length in Es.
    destruct ds; [discriminate|]. injection Ee as <- <-. simpl. lia. }
  lia.
Qed.

Lemma parse_number_length s x r :
  JSON.parse_number s = Some (x, r) -> (length r < length s)%nat.
Proof.
  unfold JSON.parse_number, JSON.parse_sign.
  destruct (JSON.eat 45 s) as [rest|] eqn:E.
  - apply eat_length in E. intros H. apply parse_unsigned_length in H. lia.
  - apply parse_unsigned_length.
Qed.

Lemma expect_length lit s r : JSON.expect lit s = Some r -> (length r <= length s)%nat.
Proof.
  unfold JSON.expect. destruct (decide _); [|discriminate].
  intros [= <-]. rewrite length_drop. lia.
Qed.

Lemma parser_consumes fuel : consumes fuel.
Proof.
  induction fuel as [|fuel (IHv & IHe & IHm)]; [repeat split; discriminate|].
  split; [|split].
  - intros s v r. cbn [JSON.parse_value].
    pose proof (skip_ws_length s) as Hws.
    destruct (JSON.skip_ws s) as [|c rest]; [discriminate|]. simpl in Hws.
    pose proof (skip_ws_length rest) as Hws'.
    destruct (c =? 123).
    { destruct (JSON.eat 125 _) as [rest'|] eqn:E.
      - apply eat_length in E. intros [= <- <-]. lia.
      - intros H. apply IHm in H. lia. }
    destruct (c =? 91).
    { destruct (JSON.eat 93 _) as [rest'|] eqn:E.
      - apply eat_length in E. intros [= <- <-]. lia.
      - intros H. apply IHe in H. lia. }
    destruct (c =? 34).
    { destruct (JSON.parse_chars rest) as [[t r']|] eqn:E; cbn [mbind option_bind];
        [|discriminate].
      apply parse_chars_length in E. intros [= <- <-]. lia. }
    destruct (c =? 110).
    { destruct (JSON.expect _ rest) eqn:E; cbn [mbind option_bind]; [|discriminate].
      apply expect_length in E. intros [= <- <-]. lia. }
    destruct (c =? 116).
    { destruct (JSON.expect _ rest) eqn:E; cbn [mbind option_bind]; [|discriminate].
      apply expect_length in E. intros [= <- <-]. lia. }
    destruct (c =? 102).
    { destruct (JSON.expect _ rest) eqn:E; cbn [mbind option_bind]; [|discriminate].
      apply expect_length in E. intros [= <- <-]. lia. }
    destruct (JSON.parse_number (c :: rest)) as [[x r']|] eqn:E; cbn [mbind option_bind];
      [|discriminate].
    apply parse_number_length in E. intros [= <- <-]. simpl in E. lia.
  - intros s acc v r. cbn [JSON.parse_elements].
    destruct (JSON.parse_value fuel s) as [[v' r']|] eqn:E; cbn [mbind option_bind];
      [|discriminate].
    apply IHv in E. pose proof (skip_ws_length r') as Hws.
    destruct (JSON.skip_ws r') as [|c r'']; [discriminate|]. simpl in Hws.
    destruct (c =? 44); [intros H; apply IHe in H; lia|].
    destruct (c =? 93); [|discriminate]. intros [= <- <-]. lia.
  - intros s acc v r. cbn [JSON.parse_members].
    pose proof (skip_ws_length s) as Hws.
    destruct (JSON.eat 34 (JSON.skip_ws s)) as [s1|] eqn:E1; cbn [mbind option_bind];
      [|discriminate].
    apply eat_length in E1.
    destruct (JSON.parse_chars s1) as [[k s2]|] eqn:E2; cbn [mbind option_bind];
      [|discriminate].
    apply parse_chars_length in E2. pose proof (skip_ws_length s2) as Hws2.
    destruct (JSON.eat 58 (JSON.skip_ws s2)) as [s3|] eqn:E3; cbn [mbind option_bind];
      [|discriminate].
    apply eat_length in E3.
    destruct (JSON.parse_value fuel s3) as [[v' r']|] eqn:E; cbn [mbind option_bind];
      [|discriminate].
    apply IHv in E. pose proof (skip_ws_length r') as Hws'.
    destruct (JSON.skip_ws r') as [|c r'']; [discriminate|]. simpl in Hws'.
    destruct (c =? 44); [intros H; apply IHm in H; lia|].
    destruct (c =? 125); [|discriminate]. intros [= <- <-]. lia.
Qed.

Lemma parser_enough fuel' : enough fuel'.
Proof.
  induction fuel' as [|fuel' (IHv & IHe & IHm)]; [repeat split; discriminate|].
  destruct (parser_consumes fuel') as (Cv & Ce & Cm).
  split; [|split].
  - intros s [|fuel] res; [lia|]. cbn [JSON.parse_value].
    pose proof (skip_ws_length s) as Hws.
    destruct (JSON.skip_ws s) as [|c rest]; [discriminate|]. simpl in Hws.
    pose proof (skip_ws_length rest) as Hws'.
    destruct (c =? 123).
    { destruct (JSON.eat 125 _) as [rest'|] eqn:E; [auto|].
      intros H Hf. apply IHm; [exact H|lia]. }
    destruct (c =? 91).
    { destruct (JSON.eat 93 _) as [rest'|] eqn:E; [auto|].
      intros H Hf. apply IHe; [exact H|lia]. }
    auto.
  - intros s acc [|fuel] res; [lia|]. cbn [JSON.parse_elements].
    destruct (JSON.parse_value fuel' s) as [[v' r']|] eqn:E; cbn [mbind option_bind];
      [|discriminate].
    intros H Hf. rewrite (IHv s fuel _ E) by lia. cbn [mbind option_bind].
    apply Cv in E. pose proof (skip_ws_length r') as Hws.
    destruct (JSON.skip_ws r') as [|c r'']; [discriminate|]. simpl in Hws.
    destruct (c =? 44); [apply IHe; [exact H|lia]|exact H].
  - intros s acc [|fuel] res; [lia|]. cbn [JSON.parse_members].
    pose proof (skip_ws_length s) as Hws.
    destruct (JSON.eat 34 (JSON.skip_ws s)) as [s1|] eqn:E1; cbn [mbind option_bind];
      [|discriminate].
    apply eat_length in E1.
    destruct (JSON.parse_chars s1) as [[k s2]|] eqn:E2; cbn [mbind option_bind];
      [|discriminate].
    apply parse_chars_length in E2. pose proof (skip_ws_length s2) as Hws2.
    destruct (JSON.eat 58 (JSON.skip_ws s2)) as [s3|] eqn:E3; cbn [mbind option_bind];
      [|discriminate].
    apply eat_length in E3.
    destruct (JSON.parse_value fuel' s3) as [[v' r']|] eqn:E; cbn [mbind option_bind];
      [|discriminate].
    intros H Hf. rewrite (IHv s3 fuel _ E) by lia. cbn [mbind option_bind].
    apply Cv in E. pose proof (skip_ws_length r') as Hws'.
    destruct (JSON.skip_ws r') as [|c r'']; [discriminate|]. simpl in Hws'.
    destruct (c =? 44); [apply IHm; [exact H|lia]|exact H].
Qed.

Lemma parser_stable fuel : stable fuel.
Proof.
  induction fuel as [|fuel (IHv & IHe & IHm)]; [repeat split; discriminate|].
  remember (S fuel) as fuel1 eqn:Hf1.
  split; [|split].
  - intros s res. rewrite Hf1 at 1. cbn [JSON.parse_value]. subst fuel1.
    destruct (JSON.skip_ws s) as [|c rest]; [discriminate|].
    destruct (c =? 123); [destruct (JSON.eat 125 _); auto|].
    destruct (c =? 91); [destruct (JSON.eat 93 _); auto|].
    auto.
  - intros s acc res. rewrite Hf1 at 1. cbn [JSON.parse_elements]. subst fuel1.
    destruct (JSON.parse_value fuel s) as [[v' r']|] eqn:E; cbn [mbind option_bind];
      [|discriminate].
    rewrite (IHv _ _ E). cbn [mbind option_bind].
    destruct (JSON.skip_ws r') as [|c r'']; [discriminate|].
    destruct (c =? 44); auto.
  - intros s acc res. rewrite Hf1 at 1. cbn [JSON.parse_members]. subst fuel1.
    destruct (JSON.eat 34 (JSON.skip_ws s)) as [s1|]; cbn [mbind option_bind];
      [|discriminate].
    destruct (JSON.parse_chars s1) as [[k s2]|]; cbn [mbind option_bind];
      [|discriminate].
    destruct (JSON.eat 58 (JSON.skip_ws s2)) as [s3|]; cbn [mbind option_bind];
      [|discriminate].
    destruct (JSON.parse_value fuel s3) as [[v' r']|] eqn:E; cbn [mbind option_bind];
      [|discriminate].
    rewrite (IHv _ _ E). cbn [mbind option_bind].
    destruct (JSON.skip_ws r') as [|c r'']; [discriminate|].
    destruct (c =? 44); auto.
Qed.

Lemma parse_value_more_fuel fuel fuel' s res :
  (fuel <= fuel')%nat ->
  JSON.parse_value fuel s = Some res -> JSON.parse_value fuel' s = Some res.
Proof.
  induction 1 as [|fuel' _ IH]; [auto|].
  intros H. apply parser_stable, IH, H.
Qed.

(** The fuel [JSON.parse] gives is enough: no amount of fuel gives another
    answer. *)
Lemma parse_value_fuel s fuel :
  (2 * length s < fuel)%nat ->
  JSON.parse_value fuel s = JSON.parse_value (S (2 * length s)) s.
Proof.
  intros Hf. destruct (JSON.parse_value fuel s) as [res|] eqn:E.
  - symmetry. apply (proj1 (parser_enough fuel) s _ res E). lia.
  - destruct (JSON.parse_value (S (2 * length s)) s) as [res|] eqn:E'; [|reflexivity].
    apply (parse_value_more_fuel _ fuel) in E'; [congruence|lia].
Qed.

(** ** The parser and the grammar *)

Import Grammar.

Lemma skip_ws_split s :
  exists w, s = w ++ JSON.skip_ws s /\ whitespace w.
Proof.
  induction s as [|c s (w & Hw & Hws)]; [exists []; split; [reflexivity|constructor]|].
  cbn [JSON.skip_ws]. destruct (JSON.is_ws c) eqn:E.
  - exists (c :: w). split; [simpl; congruence|now constructor].
  - exists []. split; [reflexivity|constructor].
Qed.

Lemma skip_ws_app w s : whitespace w -> JSON.skip_ws (w ++ s) = JSON.skip_ws s.
Proof.
  induction 1 as [|c w Hc _ IH]; [reflexivity|].
  cbn [app JSON.skip_ws]. now rewrite Hc.
Qed.

Lemma skip_ws_whitespace w : whitespace w -> JSON.skip_ws w = [].
Proof.
  intros H. rewrite <- (app_nil_r w). now rewrite skip_ws_app.
Qed.

Lemma skip_ws_nil_whitespace s : JSON.skip_ws s = [] -> whitespace s.
Proof.
  intros H. destruct (skip_ws_split s) as (w & Hs & Hw).
  rewrite H, app_nil_r in Hs. now subst.
Qed.

Lemma eat_spec c s r : JSON.eat c s = Some r -> s = c :: r.
Proof.
  destruct s as [|d s]; cbn [JSON.eat]; [discriminate|].
  destruct (N.eqb_spec d c); [|discriminate]. now intros [= <-]; subst.
Qed.

Lemma eat_head c r : JSON.eat c (c :: r) = Some r.
Proof. cbn [JSON.eat]. now rewrite N.eqb_refl. Qed.

Lemma expect_spec lit s r : JSON.expect lit s = Some r -> s = str lit ++ r.
Proof.
  unfold JSON.expect. destruct (decide _) as [E|]; [|discriminate].
  intros [= <-]. rewrite <- (take_drop (length (str lit)) s) at 1. now rewrite E.
Qed.

Lemma parse_chars_sound_bounded (n : nat) : forall s t r,
  (length s <= n)%nat ->
  JSON.parse_chars s = Some (t, r) ->
  exists body, s = body ++ 34 :: r /\ string_body body t.
Proof.
  induction n as [|n IH]; intros s t r Hn;
    (destruct s as [|c s]; cbn [JSON.parse_chars]; [discriminate|]);
    [simpl in Hn; lia|].
  assert (IH' : forall s' t' r', (length s' <= length s)%nat ->
                  JSON.parse_chars s' = Some (t', r') ->
                  exists body, s' = body ++ 34 :: r' /\ string_body body t').
  { intros s' t' r' Hs'. apply IH. simpl in Hn. lia. }
  destruct (N.eqb_spec c 34) as [->|Hq].
  { intros [= <- <-]. exists []. split; [reflexivity|constructor]. }
  destruct (N.eqb_spec c 92) as [->|Hb].
  - destruct s as [|e s1]; [discriminate|].
    destruct (N.eqb_spec e 117) as [->|He].
    + destruct s1 as [|h1 [|h2 [|h3 [|h4 s2]]]]; try discriminate.
      destruct (JSON.hex4 h1 h2 h3 h4) as [u|] eqn:Eh; cbn [mbind option_bind];
        [|discriminate].
      destruct (JSON.parse_chars s2) as [[t' r']|] eqn:E; cbn [mbind option_bind];
        [|discriminate].
      intros [= <- <-]. apply IH' in E as (body & -> & Hbody); [|simpl; lia].
      exists (92 :: 117 :: h1 :: h2 :: h3 :: h4 :: body).
      split; [reflexivity|now constructor].
    + destruct (JSON.simple_escape e) as [u|] eqn:Ee; cbn [mbind option_bind];
        [|discriminate].
      destruct (JSON.parse_chars s1) as [[t' r']|] eqn:E; cbn [mbind option_bind];
        [|discriminate].
      intros [= <- <-]. apply IH' in E as (body & -> & Hbody); [|simpl; lia].
      exists (92 :: e :: body). split; [reflexivity|now constructor].
  - destruct (N.ltb_spec c 32); [discriminate|].
    destruct (JSON.parse_chars s) as [[t' r']|] eqn:E; cbn [mbind option_bind];
      [|discriminate].
    intros [= <- <-]. apply IH' in E as (body & -> & Hbody); [|lia].
    exists (c :: body). split; [reflexivity|now constructor].
Qed.

Lemma parse_chars_sound s t r :
  JSON.parse_chars s = Some (t, r) ->
  exists body, s = body ++ 34 :: r /\ string_body body t.
Proof. apply (parse_chars_sound_bounded (length s)). lia. Qed.

Lemma simple_escape_not_u e u : JSON.simple_escape e = Some u -> e <> 117.
Proof. intros H ->. discriminate. Qed.

Lemma parse_chars_complete body t r :
  string_body body t -> JSON.parse_chars (body ++ 34 :: r) = Some (t, r).
Proof.
  induction 1 as [|c body s Hq Hb Hc _ IH|e u body s He _ IH|h1 h2 h3 h4 u body s Hh _ IH].
  - reflexivity.
  - cbn [app JSON.parse_chars].
    destruct (N.eqb_spec c 34); [contradiction|].
    destruct (N.eqb_spec c 92); [contradiction|].
    destruct (N.ltb_spec c 32); [lia|].
    now rewrite IH.
  - cbn [app JSON.parse_chars]. cbn [N.eqb Pos.eqb].
    destruct (N.eqb_spec e 117) as [E|_]; [now apply simple_escape_not_u in He|].
    now rewrite He, IH.
  - cbn [app JSON.parse_chars]. cbn [N.eqb Pos.eqb].
    now rewrite Hh, IH.
Qed.

Lemma span_digits_spec s ds r :
  JSON.span_digits s = (ds, r) -> s = ds ++ r /\ all_digits ds /\ not_digit_head r.
Proof.
  revert ds r. induction s as [|c s IH]; intros ds r; cbn [JSON.span_digits].
  - intros [= <- <-]. repeat split. constructor.
  - destruct (JSON.is_digit c) eqn:Ec.
    + destruct (JSON.span_digits s) as [ds' r'] eqn:E. intros [= <- <-].
      destruct (IH ds' r' eq_refl) as (-> & Hds & Hr).
      repeat split; [now constructor|exact Hr].
    + intros [= <- <-]. repeat split; [constructor|exact Ec].
Qed.

Lemma parse_int_sound s int r :
  JSON.parse_int s = Some (int, r) ->
  s = int ++ r /\ int_part int
  /\ (int = [48] \/ not_digit_head r).
Proof.
  unfold JSON.parse_int. destruct s as [|c s]; [discriminate|].
  destruct (N.eqb_spec c 48) as [->|Hz].
  - intros [= <- <-]. repeat split; [constructor|now left].
  - destruct (JSON.is_digit c) eqn:Ec; [|discriminate].
    intros [= H]. cbn [JSON.span_digits] in H. rewrite Ec in H.
    destruct (JSON.span_digits s) as [ds r'] eqn:E. injection H as <- <-.
    apply span_digits_spec in E as (-> & Hds & Hr).
    repeat split; [now constructor|now right].
Qed.

Lemma parse_frac_sound s frac r :
  JSON.parse_frac s = Some (frac, r) ->
  exists frac_text, s = frac_text ++ r /\ frac_part frac_text frac.
Proof.
  unfold JSON.parse_frac. destruct (JSON.eat 46 s) as [rest|] eqn:E.
  - apply eat_spec in E as ->.
    destruct (JSON.span_digits rest) as [ds r'] eqn:Es.
    apply span_digits_spec in Es as (-> & Hds & _).
    destruct ds as [|d ds]; [discriminate|]. intros [= <- <-].
    exists (46 :: d :: ds). split; [reflexivity|now constructor].
  - intros [= <- <-]. exists []. split; [reflexivity|constructor].
Qed.

Lemma parse_exp_sign_sound s neg r :
  JSON.parse_exp_sign s = (neg, r) ->
  exists sign, s = sign ++ r /\ exp_sign sign neg.
Proof.
  unfold JSON.parse_exp_sign. destruct (JSON.eat 45 s) as [rest|] eqn:E1.
  - apply eat_spec in E1 as ->. intros [= <- <-].
    exists [45]. split; [reflexivity|constructor].
  - destruct (JSON.eat 43 s) as [rest|] eqn:E2.
    + apply eat_spec in E2 as ->. intros [= <- <-].
      exists [43]. split; [reflexivity|constructor].
    + intros [= <- <-]. exists []. split; [reflexivity|constructor].
Qed.

Lemma parse_exp_sound s e r :
  JSON.parse_exp s = Some (e, r) ->
  exists exp_text, s = exp_text ++ r /\ exp_part exp_text e.
Proof.
  unfold JSON.parse_exp. destruct s as [|c s].
  { intros [= <- <-]. exists []. split; [reflexivity|constructor]. }
  destruct ((c =? 101) || (c =? 69)) eqn:Ec.
  - destruct (JSON.parse_exp_sign s) as [neg rest1] eqn:Esg.
    apply parse_exp_sign_sound in Esg as (sign & -> & Hsign).
    destruct (JSON.span_digits rest1) as [ds r'] eqn:Es.
    apply span_digits_spec in Es as (-> & Hds & _).
    destruct ds as [|d ds]; [discriminate|]. intros [= <- <-].
    exists (c :: sign ++ d :: ds).
    split; [cbn [app]; rewrite <- app_assoc; reflexivity|].
    apply exp_some; [|exact Hsign|discriminate|exact Hds].
    apply orb_true_iff in Ec as [Ec|Ec]; apply N.eqb_eq in Ec; tauto.
  - intros [= <- <-]. exists []. split; [reflexivity|constructor].
Qed.

Lemma parse_number_sound s x r :
  JSON.parse_number s = Some (x, r) -> exists t, s = t ++ r /\ number_text t x.
Proof.
  unfold JSON.parse_number.
  assert (Hu : forall neg s1, JSON.parse_unsigned neg s1 = Some (x, r) ->
            exists t, (if neg then [45] else []) ++ s1 = t ++ r /\ number_text t x).
  { intros neg s1. unfold JSON.parse_unsigned.
    destruct (JSON.parse_int s1) as [[int s2]|] eqn:Ei; cbn [mbind option_bind];
      [|discriminate].
    destruct (JSON.parse_frac s2) as [[frac s3]|] eqn:Ef; cbn [mbind option_bind];
      [|discriminate].
    destruct (JSON.parse_exp s3) as [[e s4]|] eqn:Ee; cbn [mbind option_bind];
      [|discriminate].
    intros [= <- <-].
    apply parse_int_sound in Ei as (-> & Hint & _).
    apply parse_frac_sound in Ef as (ft & -> & Hfrac).
    apply parse_exp_sound in Ee as (et & -> & Hexp).
    exists ((if neg then [45] else []) ++ int ++ ft ++ et).
    split; [now rewrite <- !app_assoc|now constructor]. }
  unfold JSON.parse_sign. destruct (JSON.eat 45 s) as [rest|] eqn:E.
  - apply eat_spec in E as ->. apply (Hu true).
  - apply (Hu false).
Qed.

(** The other direction.  The parser reads the longest literal, so the
    text of a number is read back when what follows cannot continue it. *)
Lemma int_part_head int : int_part int ->
  exists d ds, int = d :: ds /\ JSON.is_digit d = true.
Proof. destruct 1; eauto. Qed.

Lemma parse_int_complete int r :
  int_part int -> not_digit_head r -> JSON.parse_int (int ++ r) = Some (int, r).
Proof.
  intros [|d ds Hd Hz Hds] Hr; [reflexivity|].
  unfold JSON.parse_int. cbn [app].
  destruct (N.eqb_spec d 48); [contradiction|]. rewrite Hd.
  change (d :: ds ++ r) with ((d :: ds) ++ r).
  rewrite span_digits_app; [reflexivity|now constructor|exact Hr].
Qed.

Lemma eat_none c r : head_is_not c r -> JSON.eat c r = None.
Proof.
  destruct r as [|d r]; [reflexivity|]. cbn [head_is_not JSON.eat].
  intros H. now destruct (N.eqb_spec d c).
Qed.

Lemma parse_frac_complete frac_text frac r :
  frac_part frac_text frac -> not_digit_head r -> head_is_not 46 r ->
  JSON.parse_frac (frac_text ++ r) = Some (frac, r).
Proof.
  intros [|ds Hne Hds] Hr Hdot; unfold JSON.parse_frac.
  - cbn [app]. now rewrite eat_none.
  - cbn [app]. rewrite eat_head, span_digits_app by assumption.
    destruct ds; [contradiction|reflexivity].
Qed.

Lemma digit_head_cases d :
  JSON.is_digit d = true -> d <> 45 /\ d <> 43 /\ d <> 46 /\ d <> 101 /\ d <> 69.
Proof.
  unfold JSON.is_digit. intros H. apply andb_true_iff in H as [H1 H2].
  apply N.leb_le in H1, H2. lia.
Qed.

Lemma parse_exp_sign_complete sign neg d ds r :
  exp_sign sign neg -> JSON.is_digit d = true ->
  JSON.parse_exp_sign (sign ++ d :: ds ++ r) = (neg, d :: ds ++ r).
Proof.
  intros Hs Hd. apply digit_head_cases in Hd as (H1 & H2 & _).
  destruct Hs; unfold JSON.parse_exp_sign; cbn [app JSON.eat];
    try reflexivity.
  destruct (N.eqb_spec d 45); [contradiction|].
  now destruct (N.eqb_spec d 43).
Qed.

Lemma parse_exp_complete exp_text e r :
  exp_part exp_text e -> not_digit_head r ->
  head_is_not 101 r -> head_is_not 69 r ->
  JSON.parse_exp (exp_text ++ r) = Some (e, r).
Proof.
  intros [|c sign neg ds Hc Hs Hne Hds] Hr He1 He2; unfold JSON.parse_exp.
  - cbn [app]. destruct r as [|c r]; [reflexivity|].
    cbn [head_is_not] in He1, He2.
    destruct (N.eqb_spec c 101); [contradiction|].
    now destruct (N.eqb_spec c 69).
  - cbn [app]. replace ((c =? 101) || (c =? 69)) with true
      by (destruct Hc as [->| ->]; reflexivity).
    destruct ds as [|d ds]; [contradiction|].
    rewrite <- app_assoc. cbn [app].
    rewrite (parse_exp_sign_complete sign neg d ds r Hs)
      by now inversion Hds.
    change (d :: ds ++ r) with ((d :: ds) ++ r).
    now rewrite span_digits_app.
Qed.

Lemma ends_number_heads r :
  ends_number r ->
  not_digit_head r /\ head_is_not 46 r /\ head_is_not 101 r /\ head_is_not 69 r.
Proof. destruct r as [|c r]; cbn; tauto. Qed.

Lemma frac_part_follows frac_text frac r :
  frac_part frac_text frac -> not_digit_head r -> not_digit_head (frac_text ++ r).
Proof. intros [|ds _ _] Hr; [exact Hr|reflexivity]. Qed.

Lemma exp_part_follows exp_text e r :
  exp_part exp_text e -> ends_number r ->
  not_digit_head (exp_text ++ r) /\ head_is_not 46 (exp_text ++ r).
Proof.
  intros [|c sign neg ds Hc _ _ _] Hr.
  - apply ends_number_heads in Hr. tauto.
  - cbn. destruct Hc as [-> | ->]; split; (reflexivity || discriminate).
Qed.

Lemma parse_number_complete t x r :
  number_text t x -> ends_number r -> JSON.parse_number (t ++ r) = Some (x, r).
Proof.
  intros [neg int ft frac et e Hint Hfrac Hexp] Hr.
  destruct (exp_part_follows et e r Hexp Hr) as (Hd & Hdot).
  destruct (ends_number_heads r Hr) as (Hrd & _ & He1 & He2).
  assert (Hu : JSON.parse_unsigned neg (int ++ ft ++ et ++ r)
               = Some (JSON.number_of_literal neg (int ++ frac)
                         (e - Z.of_nat (length frac)), r)).
  { unfold JSON.parse_unsigned.
    rewrite parse_int_complete; [|exact Hint|].
    2:{ destruct Hfrac; [exact Hd|reflexivity]. }
    cbn [mbind option_bind].
    rewrite (parse_frac_complete ft frac) by assumption.
    cbn [mbind option_bind].
    now rewrite (parse_exp_complete et e) by assumption. }
  unfold JSON.parse_number, JSON.parse_sign. rewrite <- !app_assoc.
  destruct neg; cbn [app].
  - now rewrite eat_head.
  - destruct (int_part_head int Hint) as (d & ds & -> & Hd').
    apply digit_head_cases in Hd' as (Hm & _).
    cbn [app JSON.eat]. destruct (N.eqb_spec d 45); [contradiction|].
    exact Hu.
Qed.

Ltac list_eq :=
  repeat first [rewrite <- app_assoc | progress cbn [app]]; reflexivity.

(** What the parser accepts is a text of the grammar, with the value the
    grammar gives it. *)
Lemma parser_sound fuel :
  (forall s v r, JSON.parse_value fuel s = Some (v, r) ->
     exists w t, s = w ++ t ++ r /\ whitespace w /\ value_text t v)
  /\ (forall s acc v r, JSON.parse_elements fuel s acc = Some (v, r) ->
        exists t items, v = VArray items /\ s = t ++ 93 :: r /\ elements_text t acc items)
  /\ (forall s acc v r, JSON.parse_members fuel s acc = Some (v, r) ->
        exists t props, v = VObject props /\ s = t ++ 125 :: r /\ members_text t acc props).
Proof.
  induction fuel as [|fuel (IHv & IHe & IHm)]; [repeat split; discriminate|].
  split; [|split].
  - intros s v r. cbn [JSON.parse_value].
    destruct (skip_ws_split s) as (w & Hs & Hw).
    destruct (JSON.skip_ws s) as [|c rest]; [discriminate|].
    rewrite Hs. clear Hs.
    destruct (N.eqb_spec c 123) as [->|_].
    { destruct (skip_ws_split rest) as (w' & Hrest & Hw').
      destruct (JSON.eat 125 _) as [rest'|] eqn:E.
      - apply eat_spec in E. rewrite E in Hrest. intros [= <- <-].
        exists w, (123 :: w' ++ [125]). subst rest.
        split; [list_eq|]. split; [exact Hw|now constructor].
      - intros H. apply IHm in H as (t & props & -> & -> & Ht).
        exists w, (123 :: t ++ [125]).
        split; [list_eq|]. split; [exact Hw|now constructor]. }
    destruct (N.eqb_spec c 91) as [->|_].
    { destruct (skip_ws_split rest) as (w' & Hrest & Hw').
      destruct (JSON.eat 93 _) as [rest'|] eqn:E.
      - apply eat_spec in E. rewrite E in Hrest. intros [= <- <-].
        exists w, (91 :: w' ++ [93]). subst rest.
        split; [list_eq|]. split; [exact Hw|now constructor].
      - intros H. apply IHe in H as (t & items & -> & -> & Ht).
        exists w, (91 :: t ++ [93]).
        split; [list_eq|]. split; [exact Hw|now constructor]. }
    destruct (N.eqb_spec c 34) as [->|_].
    { destruct (JSON.parse_chars rest) as [[t r']|] eqn:E; cbn [mbind option_bind];
        [|discriminate].
      apply parse_chars_sound in E as (body & -> & Hbody). intros [= <- <-].
      exists w, (34 :: body ++ [34]).
      split; [list_eq|]. split; [exact Hw|now constructor]. }
    destruct (N.eqb_spec c 110) as [->|_].
    { destruct (JSON.expect _ rest) as [r'|] eqn:E; cbn [mbind option_bind];
        [|discriminate].
      apply expect_spec in E as ->. intros [= <- <-].
      exists w, (str "null"). split; [reflexivity|]. split; [exact Hw|constructor]. }
    destruct (N.eqb_spec c 116) as [->|_].
    { destruct (JSON.expect _ rest) as [r'|] eqn:E; cbn [mbind option_bind];
        [|discriminate].
      apply expect_spec in E as ->. intros [= <- <-].
      exists w, (str "true"). split; [reflexivity|]. split; [exact Hw|constructor]. }
    destruct (N.eqb_spec c 102) as [->|_].
    { destruct (JSON.expect _ rest) as [r'|] eqn:E; cbn [mbind option_bind];
        [|discriminate].
      apply expect_spec in E as ->. intros [= <- <-].
      exists w, (str "false"). split; [reflexivity|]. split; [exact Hw|constructor]. }
    destruct (JSON.parse_number (c :: rest)) as [[x r']|] eqn:E; cbn [mbind option_bind];
      [|discriminate].
    apply parse_number_sound in E as (t & -> & Ht). intros [= <- <-].
    exists w, t. split; [reflexivity|]. split; [exact Hw|now constructor].
  - intros s acc v r. cbn [JSON.parse_elements].
    destruct (JSON.parse_value fuel s) as [[v' r']|] eqn:E; cbn [mbind option_bind];
      [|discriminate].
    apply IHv in E as (w1 & t & -> & Hw1 & Ht).
    destruct (skip_ws_split r') as (w2 & Hr' & Hw2).
    destruct (JSON.skip_ws r') as [|c r'']; [discriminate|]. rewrite Hr'. clear Hr'.
    destruct (N.eqb_spec c 44) as [->|_].
    { intros H. apply IHe in H as (rest & items & -> & -> & Hrest).
      exists (w1 ++ t ++ w2 ++ 44 :: rest), items.
      split; [reflexivity|]. split; [list_eq|].
      now apply elements_more with (v := v'). }
    destruct (N.eqb_spec c 93) as [->|_]; [|discriminate]. intros [= <- <-].
    exists (w1 ++ t ++ w2), (acc ++ [v']).
    split; [reflexivity|]. split; [list_eq|]. now constructor.
  - intros s acc v r. cbn [JSON.parse_members].
    destruct (skip_ws_split s) as (w1 & Hs & Hw1).
    destruct (JSON.eat 34 (JSON.skip_ws s)) as [s1|] eqn:E1; cbn [mbind option_bind];
      [|discriminate].
    apply eat_spec in E1. rewrite E1 in Hs. rewrite Hs. clear Hs E1.
    destruct (JSON.parse_chars s1) as [[k s2]|] eqn:E2; cbn [mbind option_bind];
      [|discriminate].
    apply parse_chars_sound in E2 as (body & -> & Hbody).
    destruct (skip_ws_split s2) as (w2 & Hs2 & Hw2).
    destruct (JSON.eat 58 (JSON.skip_ws s2)) as [s3|] eqn:E3; cbn [mbind option_bind];
      [|discriminate].
    apply eat_spec in E3. rewrite E3 in Hs2. rewrite Hs2. clear Hs2 E3.
    destruct (JSON.parse_value fuel s3) as [[v' r']|] eqn:E; cbn [mbind option_bind];
      [|discriminate].
    apply IHv in E as (w3 & t & -> & Hw3 & Ht).
    destruct (skip_ws_split r') as (w4 & Hr' & Hw4).
    destruct (JSON.skip_ws r') as [|c r'']; [discriminate|]. rewrite Hr'. clear Hr'.
    destruct (N.eqb_spec c 44) as [->|_].
    { intros H. apply IHm in H as (rest & props & -> & -> & Hrest).
      exists (w1 ++ 34 :: body ++ 34 :: w2 ++ 58 :: w3 ++ t ++ w4 ++ 44 :: rest), props.
      split; [reflexivity|]. split; [list_eq|].
      now apply members_more with (k := k) (v := v'). }
    destruct (N.eqb_spec c 125) as [->|_]; [|discriminate]. intros [= <- <-].
    exists (w1 ++ 34 :: body ++ 34 :: w2 ++ 58 :: w3 ++ t ++ w4), (set_prop k v' acc).
    split; [reflexivity|]. split; [list_eq|]. now constructor.
Qed.

Lemma parser_more_fuel fuel fuel' :
  (fuel <= fuel')%nat ->
  (forall s res, JSON.parse_value fuel s = Some res -> JSON.parse_value fuel' s = Some res)
  /\ (forall s acc res, JSON.parse_elements fuel s acc = Some res ->
        JSON.parse_elements fuel' s acc = Some res)
  /\ (forall s acc res, JSON.parse_members fuel s acc = Some res ->
        JSON.parse_members fuel' s acc = Some res).
Proof.
  induction 1 as [|fuel' _ (IHv & IHe & IHm)]; [auto|].
  destruct (parser_stable fuel') as (Sv & Se & Sm).
  repeat split; auto.
Qed.

Lemma number_text_head t x :
  number_text t x -> exists c t', t = c :: t' /\ (c = 45 \/ JSON.is_digit c = true).
Proof.
  intros [neg int ft frac et e Hint _ _].
  destruct neg; [cbn [app]; eauto|].
  destruct (int_part_head int Hint) as (d & ds & -> & Hd). cbn [app]. eauto.
Qed.

Lemma value_text_starts t v : value_text t v -> starts_value t.
Proof.
  intros [| | |n x Hx|body s _|w _|e items _|w _|m props _];
    try (eexists _, _; repeat split; discriminate).
  destruct (number_text_head n x Hx) as (c & t' & -> & Hc).
  destruct (number_head_tests c Hc) as (Hws & _ & _ & _ & _ & _ & _ & N1 & N2).
  exists c, t'. auto.
Qed.

Lemma whitespace_ends_number w r :
  whitespace w -> ends_value r -> ends_number (w ++ r).
Proof.
  intros [|c w' Hc _] Hr; [now apply ends_value_number|].
  cbn. unfold JSON.is_ws, JSON.is_digit in *.
  repeat match goal with
    | H : context [?x =? ?y] |- _ => destruct (N.eqb_spec x y); cbn in H
    end; try discriminate; subst; repeat split; discriminate.
Qed.

Lemma skip_ws_value w t r :
  whitespace w -> starts_value t -> JSON.skip_ws (w ++ t ++ r) = t ++ r.
Proof. intros Hw Ht. rewrite skip_ws_app by exact Hw. now apply skip_ws_starts. Qed.

Lemma skip_ws_then w c r :
  whitespace w -> JSON.is_ws c = false -> JSON.skip_ws (w ++ c :: r) = c :: r.
Proof. intros Hw Hc. rewrite skip_ws_app by exact Hw. now apply skip_ws_head. Qed.

(** The text of the elements of an array does not start with the closing
    bracket, nor that of the members of an object with the closing brace. *)
Lemma elements_text_open t acc items r :
  elements_text t acc items -> JSON.eat 93 (JSON.skip_ws (t ++ 93 :: r)) = None.
Proof.
  intros [w1 t' w2 v acc' Hw1 _ Ht|w1 t' w2 v rest acc' items' Hw1 _ Ht _];
    rewrite <- !app_assoc, skip_ws_app by exact Hw1;
    (apply eat_starts; [now apply value_text_starts in Ht|now left]).
Qed.

Lemma members_text_open t acc props r :
  members_text t acc props -> JSON.eat 125 (JSON.skip_ws (t ++ 125 :: r)) = None.
Proof.
  intros [w1 body k w2 w3 t' w4 v acc' Hw1 _ _ _ _ _
         |w1 body k w2 w3 t' w4 v rest acc' props' Hw1 _ _ _ _ _ _];
    rewrite <- !app_assoc, skip_ws_app by exact Hw1; reflexivity.
Qed.

(** A text of the grammar is accepted by the parser, with the value the
    grammar gives it, when what follows the text cannot continue a number;
    in an array or an object, what follows is white space, a comma or the
    closing bracket. *)
Lemma parser_complete t v :
  value_text t v ->
  forall w r, whitespace w -> ends_number r ->
    exists fuel, JSON.parse_value fuel (w ++ t ++ r) = Some (v, r).
Proof.
  intros Hv.
  induction Hv using value_text_mut with
    (P0 := fun t acc items => forall r,
       exists fuel, JSON.parse_elements fuel (t ++ 93 :: r) acc = Some (VArray items, r))
    (P1 := fun t acc props => forall r,
       exists fuel, JSON.parse_members fuel (t ++ 125 :: r) acc = Some (VObject props, r)).
  - intros w r Hw _. exists 1%nat. cbn [JSON.parse_value].
    rewrite skip_ws_app by exact Hw.
    change (str "null" ++ r) with (110 :: str "ull" ++ r).
    rewrite skip_ws_head by reflexivity.
    change (110 =? 123) with false. change (110 =? 91) with false.
    change (110 =? 34) with false. change (110 =? 110) with true. cbv iota.
    now rewrite expect_prefix.
  - intros w r Hw _. exists 1%nat. cbn [JSON.parse_value].
    rewrite skip_ws_app by exact Hw.
    change (str "true" ++ r) with (116 :: str "rue" ++ r).
    rewrite skip_ws_head by reflexivity.
    change (116 =? 123) with false. change (116 =? 91) with false.
    change (116 =? 34) with false. change (116 =? 110) with false.
    change (116 =? 116) with true. cbv iota.
    now rewrite expect_prefix.
  - intros w r Hw _. exists 1%nat. cbn [JSON.parse_value].
    rewrite skip_ws_app by exact Hw.
    change (str "false" ++ r) with (102 :: str "alse" ++ r).
    rewrite skip_ws_head by reflexivity.
    change (102 =? 123) with false. change (102 =? 91) with false.
    change (102 =? 34) with false. change (102 =? 110) with false.
    change (102 =? 116) with false. change (102 =? 102) with true. cbv iota.
    now rewrite expect_prefix.
  - intros w r Hw Hr. exists 1%nat. cbn [JSON.parse_value].
    rewrite skip_ws_app by exact Hw.
    pose proof (parse_number_complete t x r H Hr) as Hp.
    destruct (number_text_head t x H) as (c & t' & -> & Hc).
    destruct (number_head_tests c Hc) as (Hws & T1 & T2 & T3 & T4 & T5 & T6 & _).
    cbn [app] in *. rewrite skip_ws_head by exact Hws.
    now rewrite T1, T2, T3, T4, T5, T6, Hp.
  - intros w r Hw _. exists 1%nat. cbn [JSON.parse_value].
    rewrite skip_ws_app by exact Hw. cbn [app]. rewrite <- app_assoc. cbn [app].
    rewrite skip_ws_head by reflexivity.
    change (34 =? 123) with false. change (34 =? 91) with false.
    change (34 =? 34) with true. cbv iota.
    erewrite parse_chars_complete by eassumption. reflexivity.
  - intros w' r Hw' _. exists 1%nat. cbn [JSON.parse_value].
    rewrite skip_ws_app by exact Hw'. cbn [app]. rewrite <- app_assoc. cbn [app].
    rewrite skip_ws_head by reflexivity.
    change (91 =? 123) with false. change (91 =? 91) with true. cbv iota.
    rewrite skip_ws_then by (assumption || reflexivity).
    now rewrite eat_head.
  - intros w r Hw _. destruct (IHHv r) as (fuel & Hfuel).
    exists (S fuel). cbn [JSON.parse_value].
    rewrite skip_ws_app by exact Hw. cbn [app]. rewrite <- app_assoc. cbn [app].
    rewrite skip_ws_head by reflexivity.
    change (91 =? 123) with false. change (91 =? 91) with true. cbv iota.
    erewrite elements_text_open by eassumption. exact Hfuel.
  - intros w' r Hw' _. exists 1%nat. cbn [JSON.parse_value].
    rewrite skip_ws_app by exact Hw'. cbn [app]. rewrite <- app_assoc. cbn [app].
    rewrite skip_ws_head by reflexivity.
    change (123 =? 123) with true. cbv iota.
    rewrite skip_ws_then by (assumption || reflexivity).
    now rewrite eat_head.
  - intros w r Hw _. destruct (IHHv r) as (fuel & Hfuel).
    exists (S fuel). cbn [JSON.parse_value].
    rewrite skip_ws_app by exact Hw. cbn [app]. rewrite <- app_assoc. cbn [app].
    rewrite skip_ws_head by reflexivity.
    change (123 =? 123) with true. cbv iota.
    erewrite members_text_open by eassumption. exact Hfuel.
  - intros r. 
    destruct (IHHv w1 (w2 ++ 93 :: r)) as (fuel & Hfuel);
      [assumption|apply whitespace_ends_number; [assumption|cbn; tauto]|].
    exists (S fuel). cbn [JSON.parse_elements]. rewrite <- !app_assoc.
    rewrite Hfuel. cbn [mbind option_bind].
    rewrite skip_ws_then by (assumption || reflexivity).
    change (93 =? 44) with false. change (93 =? 93) with true. reflexivity.
  - intros r.
    destruct (IHHv w1 (w2 ++ 44 :: rest ++ 93 :: r)) as (fuel1 & Hfuel1);
      [assumption|apply whitespace_ends_number; [assumption|cbn; tauto]|].
    destruct (IHHv0 r) as (fuel2 & Hfuel2).
    exists (S (Nat.max fuel1 fuel2)). cbn [JSON.parse_elements].
    repeat first [rewrite <- app_assoc | progress cbn [app]].
    rewrite (proj1 (parser_more_fuel fuel1 _ (Nat.le_max_l _ _)) _ _ Hfuel1).
    cbn [mbind option_bind].
    rewrite skip_ws_then by (assumption || reflexivity).
    change (44 =? 44) with true. cbv iota.
    apply (proj1 (proj2 (parser_more_fuel fuel2 _ (Nat.le_max_r _ _)))), Hfuel2.
  - intros r.
    destruct (IHHv w3 (w4 ++ 125 :: r)) as (fuel & Hfuel);
      [assumption|apply whitespace_ends_number; [assumption|cbn; tauto]|].
    exists (S fuel). cbn [JSON.parse_members].
    repeat first [rewrite <- app_assoc | progress cbn [app]].
    rewrite skip_ws_then, eat_head by (assumption || reflexivity).
    cbn [mbind option_bind]. erewrite parse_chars_complete by eassumption.
    cbn [mbind option_bind].
    rewrite skip_ws_then, eat_head by (assumption || reflexivity).
    cbn [mbind option_bind]. rewrite Hfuel. cbn [mbind option_bind].
    rewrite skip_ws_then by (assumption || reflexivity).
    change (125 =? 44) with false. change (125 =? 125) with true. reflexivity.
  - intros r.
    destruct (IHHv w3 (w4 ++ 44 :: rest ++ 125 :: r)) as (fuel1 & Hfuel1);
      [assumption|apply whitespace_ends_number; [assumption|cbn; tauto]|].
    destruct (IHHv0 r) as (fuel2 & Hfuel2).
    exists (S (Nat.max fuel1 fuel2)). cbn [JSON.parse_members].
    repeat first [rewrite <- app_assoc | progress cbn [app]].
    rewrite skip_ws_then, eat_head by (assumption || reflexivity).
    cbn [mbind option_bind]. erewrite parse_chars_complete by eassumption.
    cbn [mbind option_bind].
    rewrite skip_ws_then, eat_head by (assumption || reflexivity).
    cbn [mbind option_bind].
    rewrite (proj1 (parser_more_fuel fuel1 _ (Nat.le_max_l _ _)) _ _ Hfuel1).
    cbn [mbind option_bind].
    rewrite skip_ws_then by (assumption || reflexivity).
    change (44 =? 44) with true. cbv iota.
    apply (proj2 (proj2 (parser_more_fuel fuel2 _ (Nat.le_max_r _ _)))), Hfuel2.
Qed.

(** [JSON.parse] accepts exactly the texts of the grammar, with the value
    the grammar gives them. *)
Lemma parse_json_text s v : JSON.parse s = Some v <-> json_text s v.
Proof.
  unfold JSON.parse. split.
  - destruct (JSON.parse_value _ s) as [[v' rest]|] eqn:E; cbn [mbind option_bind];
      [|discriminate].
    destruct (JSON.skip_ws rest) eqn:Er; [|discriminate]. intros [= <-].
    apply (proj1 (parser_sound _)) in E as (w & t & -> & Hw & Ht).
    exists w, t, rest. repeat split; auto. now apply skip_ws_nil_whitespace.
  - intros (w1 & t & w2 & -> & Hw1 & Hw2 & Ht).
    destruct (parser_complete t v Ht w1 w2 Hw1) as (fuel & Hfuel).
    { rewrite <- (app_nil_r w2). now apply whitespace_ends_number. }
    apply (proj1 (parser_enough fuel) _ (S (2 * length (w1 ++ t ++ w2)))) in Hfuel;
      [|lia].
    rewrite Hfuel. cbn [mbind option_bind].
    now rewrite skip_ws_whitespace.
Qed.

(** A text of the grammar has one value. *)
Lemma json_text_functional s v v' : json_text s v -> json_text s v' -> v = v'.
Proof.
  intros H H'. apply parse_json_text in H, H'. congruence.
Qed.

Example json_text_examples :
  json_text (str " [1, 2.50e1 ,true] ")
    (VArray [VNumber (Num 1 0); VNumber (Num 25 0); VBool true])
  /\ (forall v, ~ json_text (str "01") v)
  /\ (forall v, ~ json_text (str "1.") v)
  /\ (forall v, ~ json_text (str "[1,]") v)
  /\ (forall v, ~ json_text (str "{a:1}") v)
  /\ (forall v, ~ json_text (str "nulll") v).
Proof.
  split; [now apply parse_json_text|].
  repeat split; intros v H; apply parse_json_text in H; discriminate.
Qed.

(** ** The JSON validator *)

(** C6, as the code has it. For every string [s], [validateJSON(s)] is
    what [JSON.parse] returns for [s], and [null] when [JSON.parse] throws;
    so it is the value of [s] when [s] is a text of the JSON grammar and
    [null] when [s] is not one.  A result other than [null] is the value
    of [s], which is then a text of the grammar; [null] is returned both
    for the text [null] and for a text that is not JSON.  Round trip: for
    every JSON-representable value [v], [validateJSON(JSON.stringify(v))]
    is [v]. *)
Theorem validateJSON_spec (s : jsstring) (v : value) :
  representable v ->
  match JSON.parse s with
  | Some parsed => validateJSON (VString s) = parsed
  | None => validateJSON (VString s) = VNull
  end
  /\ (forall parsed, json_text s parsed -> validateJSON (VString s) = parsed)
  /\ ((forall parsed, ~ json_text s parsed) -> validateJSON (VString s) = VNull)
  /\ (validateJSON (VString s) <> VNull -> json_text s (validateJSON (VString s)))
  /\ exists t, JSON.stringify v = Some t /\ validateJSON (VString t) = v.
Proof.
  intros Hr. unfold validateJSON. cbn [ToString].
  split; [|split; [|split; [|split]]].
  - now destruct (JSON.parse s).
  - intros parsed Hp. apply parse_json_text in Hp. now rewrite Hp.
  - intros Hn. destruct (JSON.parse s) as [parsed|] eqn:E; [|reflexivity].
    apply parse_json_text in E. now apply Hn in E.
  - destruct (JSON.parse s) as [parsed|] eqn:E; [|congruence].
    intros _. now apply parse_json_text.
  - destruct (parse_stringify v Hr) as (t & Hs & Hp).
    exists t. now rewrite Hp.
Qed.

Lemma validateJSON_spec_witness :
  match JSON.parse (str "[1.5]") with
  | Some parsed => validateJSON (VString (str "[1.5]")) = parsed
  | None => validateJSON (VString (str "[1.5]")) = VNull
  end
  /\ (forall parsed, json_text (str "[1.5]") parsed ->
      validateJSON (VString (str "[1.5]")) = parsed)
  /\ ((forall parsed, ~ json_text (str "[1.5]") parsed) ->
      validateJSON (VString (str "[1.5]")) = VNull)
  /\ (validateJSON (VString (str "[1.5]")) <> VNull ->
      json_text (str "[1.5]") (validateJSON (VString (str "[1.5]"))))
  /\ exists t,
       JSON.stringify (VObject [(str "a", VArray [VNumber (Num 15 (-1)); VNull]);
                                (str "b", VString (str "x"))]) = Some t
       /\ validateJSON (VString t)
          = VObject [(str "a", VArray [VNumber (Num 15 (-1)); VNull]);
                     (str "b", VString (str "x"))].
Proof.
  apply (validateJSON_spec (str "[1.5]")
           (VObject [(str "a", VArray [VNumber (Num 15 (-1)); VNull]);
                     (str "b", VString (str "x"))])).
  apply rep_object.
  - apply (bool_decide_unpack _). vm_compute. exact I.
  - repeat constructor; vm_compute; try reflexivity; discriminate.
Defined.

(** The claim C6 as the spec words it fails: the sentinel is the value of
    a valid text.  [null] is a text of the grammar, with value [null];
    [nul] is not one; [validateJSON] returns [null] for both. *)
Lemma validateJSON_sentinel_ambiguous :
  json_text (str "null") VNull
  /\ (forall v, ~ json_text (str "nul") v)
  /\ validateJSON (text "null") = VNull
  /\ validateJSON (text "nul") = VNull.
Proof.
  split; [|split; [|split]]; try reflexivity.
  - now apply parse_json_text.
  - intros v H. apply parse_json_text in H. discriminate.
Qed.

Example validateJSON_round_trip_text :
  JSON.stringify (VObject [(str "a", VArray [VNumber (Num 15 (-1)); VNull]);
                           (str "b", VString (str "x" ++ [10]))])
  = Some (str "{" ++ [34] ++ str "a" ++ [34] ++ str ":[1.5,null],"
            ++ [34] ++ str "b" ++ [34] ++ str ":" ++ [34] ++ str "x\n" ++ [34] ++ str "}").
Proof. vm_compute. reflexivity. Qed.

(** * Further properties of the handlers *)

(** ** A slug that has no document *)


Ltac first_call_ok Hok :=
  unfold next_call_ok in Hok;
  match type of Hok with
  | match faults ?w with _ => _ end =>
      destruct (faults w) as [|[?|] ?] eqn:?; try contradiction
  end.


Lemma flat_remove_missing req s w :
  param req "slug" = VString s -> doc (VString s) w = (Ok s, w) ->
  api w !! s = None -> next_call_ok w ->
  Flat.remove req w = (not_found_response, after_call (CallGet s) w).
Proof.
  intros Hs Hdoc Hnone Hok. unfold Flat.remove. rewrite Hs.
  unfold_store. rewrite Hdoc. unfold after_call.
  first_call_ok Hok; cbn [api]; now rewrite Hnone.
Qed.







(** ** Delete *)





(** ** Create on a free slug *)

Ltac solve_create_free :=
  match goal with
  | Hacc : create_input_accepted _, Hslug : get_prop _ "slug" = VString ?s,
    Hfree : api ?w !! ?s = None, Hok : next_calls_ok ?w |- _ =>
      let Hv := fresh "Hv" in
      pose proof Hacc as (_ & _ & _ & Hv & _);
      apply accepted_checks in Hacc as (-> & -> & ->);
      rewrite Hslug in Hv |- *;
      unfold_store; rewrite (valid_slug_doc s w Hv);
      unfold next_calls_ok in Hok;
      let Ef := fresh "Ef" in
      destruct (faults w) as [|[?|] [|[?|] ?]] eqn:Ef; try contradiction;
      cbn [api faults tail]; rewrite Hfree; cbn [ToString];
      unfold after_calls, after_call, created_response, flat_envelope;
      cbn [api faults tail calls healthcheck store_time local_time development];
      rewrite <- ?app_assoc, ?Ef; reflexivity
  end.

Lemma flat_create_free req w s :
  create_input_accepted (req_body req) ->
  get_prop (req_body req) "slug" = VString s ->
  api w !! s = None ->
  next_calls_ok w ->
  Flat.create req w
  = (created_response FlatServer s,
     set_api (insert s (Document (get_prop (req_body req) "name")
                          (flat_envelope (validateJSON (get_prop (req_body req) "jsonData")))
                          (VString s) (store_time w) (store_time w)))
       (after_calls (CallGet s) (CallSet s) w)).
Proof. intros Hacc Hslug Hfree Hok. unfold Flat.create. solve_create_free. Qed.

Lemma prefixed_create_free req w s :
  create_input_accepted (req_body req) ->
  get_prop (req_body req) "slug" = VString s ->
  api w !! s = None ->
  next_calls_ok w ->
  Prefixed.create req w
  = (created_response PrefixedServer s,
     set_api (insert s (Document (get_prop (req_body req) "name")
                          (validateJSON (get_prop (req_body req) "jsonData"))
                          (VString s) (store_time w) (store_time w)))
       (after_calls (CallGet s) (CallSet s) w)).
Proof. intros Hacc Hslug Hfree Hok. unfold Prefixed.create. solve_create_free. Qed.

(** X3. A create whose input passes the checks, for a slug that is free,
    is answered 201 when its two calls to the store go through: the
    document is written under the slug, with the name and slug of the
    request, the data as the server stores it and both timestamps at the
    store's time; the answer names the path of the new endpoint, [/slug] on
    the first server and [/api/slug] on the second. *)
Theorem create_on_free_slug (sv : server) (body : value) (s : jsstring) (w : world) :
  create_input_accepted body ->
  get_prop body "slug" = VString s ->
  api w !! s = None ->
  next_calls_ok w ->
  app_of sv (create_request sv body) w
  = (created_response sv s,
     set_api (insert s (Document (get_prop body "name")
                          (stored_at_create sv (validateJSON (get_prop body "jsonData")))
                          (VString s) (store_time w) (store_time w)))
       (after_calls (CallGet s) (CallSet s) w)).
Proof.
  intros Hacc Hslug Hfree Hok. rewrite app_create. destruct sv.
  - now apply flat_create_free.
  - now apply prefixed_create_free.
Qed.

Lemma create_on_free_slug_witness :
  app_of FlatServer (create_request FlatServer (create_body "Widgets" "[1]" "widgets"))
    fresh_world
  = (created_response FlatServer (str "widgets"),
     set_api (insert (str "widgets")
                (Document (get_prop (create_body "Widgets" "[1]" "widgets") "name")
                   (stored_at_create FlatServer
                      (validateJSON (get_prop (create_body "Widgets" "[1]" "widgets")
                                       "jsonData")))
                   (VString (str "widgets")) (store_time fresh_world)
                   (store_time fresh_world)))
       (after_calls (CallGet (str "widgets")) (CallSet (str "widgets")) fresh_world)).
Proof.
  apply (create_on_free_slug FlatServer (create_body "Widgets" "[1]" "widgets")
           (str "widgets") fresh_world).
  - repeat split.
  - reflexivity.
  - reflexivity.
  - exact I.
Defined.

(** ** Update, then read *)








(** ** Refusals and failures *)

(** A property of the answer and the world after it that every route and
    the fallback have, the router has. *)
Lemma dispatch_all (Q : world -> response * world -> Prop) routes fallback :
  Forall (fun r => forall req w, Q w (route_handler r req w)) routes ->
  (forall req w, Q w (fallback req w)) ->
  forall req w, Q w (dispatch routes fallback req w).
Proof.
  intros Hr Hf. induction Hr as [|r routes Hh _ IH]; intros req w; simpl.
  - apply Hf.
  - destruct (if decide (route_method r = req_method req) then _ else None).
    + apply Hh.
    + apply IH.
Qed.

Ltac solve_refusal :=
  intros req w; unfold is_refusal;
  repeat (case_match_goal; [intros _; left; reflexivity|]);
  store_cases; cbn [fst snd res_status];
  (let R := fresh "Hrefusal" in intros [R|[R|R]]; try discriminate R);
  first [ left; reflexivity
        | right; eexists; unfold after_call;
          repeat match goal with H : faults _ = _ |- _ => rewrite H end;
          cbn; reflexivity ].

Lemma flat_create_refuses : refuses_without_writing Flat.create.
Proof. unfold Flat.create, Flat.internal_error. solve_refusal. Qed.

Lemma flat_read_refuses : refuses_without_writing Flat.read.
Proof. unfold Flat.read, Flat.internal_error. solve_refusal. Qed.

Lemma flat_update_refuses : refuses_without_writing Flat.update.
Proof. unfold Flat.update, Flat.internal_error. solve_refusal. Qed.

Lemma flat_remove_refuses : refuses_without_writing Flat.remove.
Proof. unfold Flat.remove, Flat.internal_error. solve_refusal. Qed.

Lemma flat_list_refuses : refuses_without_writing Flat.list_all.
Proof. unfold Flat.list_all, Flat.internal_error. solve_refusal. Qed.

Lemma prefixed_create_refuses : refuses_without_writing Prefixed.create.
Proof. unfold Prefixed.create, Prefixed.internal_error. solve_refusal. Qed.

Lemma prefixed_read_refuses : refuses_without_writing Prefixed.read.
Proof. unfold Prefixed.read, Prefixed.internal_error. solve_refusal. Qed.

Lemma prefixed_update_refuses : refuses_without_writing Prefixed.update.
Proof. unfold Prefixed.update, Prefixed.internal_error. solve_refusal. Qed.

Lemma prefixed_remove_refuses : refuses_without_writing Prefixed.remove.
Proof. unfold Prefixed.remove, Prefixed.internal_error. solve_refusal. Qed.

Lemma prefixed_list_refuses : refuses_without_writing Prefixed.list_all.
Proof. unfold Prefixed.list_all, Prefixed.internal_error. solve_refusal. Qed.

Lemma prefixed_health_refuses : refuses_without_writing Prefixed.health.
Proof. unfold Prefixed.health. solve_refusal. Qed.

Lemma static_refuses (h : handler) :
  (forall req w, snd (h req w) = w) -> refuses_without_writing h.
Proof. intros H req w _. left. apply H. Qed.

(** X5. A request that either server answers 400, 404 or 409 has written
    nothing: the world after it is the world before, or the world after
    one look-up of a document that went through.  This holds for every
    request, whatever its method, path and body. *)
Theorem refusals_do_not_write (sv : server) (req : request) (w : world) :
  is_refusal (res_status (fst (app_of sv req w))) ->
  snd (app_of sv req w) = w
  \/ exists id, snd (app_of sv req w) = after_call (CallGet id) w.
Proof.
  revert req w.
  destruct sv;
    apply (dispatch_all
             (fun w rw => is_refusal (res_status (fst rw)) ->
                          snd rw = w \/ exists id, snd rw = after_call (CallGet id) w));
    try (intros req w _; left; reflexivity);
    repeat apply List.Forall_cons; try apply List.Forall_nil; cbn [route_handler];
    first [ apply flat_create_refuses | apply flat_read_refuses
          | apply flat_update_refuses | apply flat_remove_refuses
          | apply flat_list_refuses | apply prefixed_create_refuses
          | apply prefixed_read_refuses | apply prefixed_update_refuses
          | apply prefixed_remove_refuses | apply prefixed_list_refuses
          | apply prefixed_health_refuses
          | now apply static_refuses ].
Qed.

Lemma refusals_do_not_write_witness :
  snd (app_of FlatServer (delete_request FlatServer (str "nothing")) fresh_world)
    = fresh_world
  \/ exists id,
       snd (app_of FlatServer (delete_request FlatServer (str "nothing")) fresh_world)
       = after_call (CallGet id) fresh_world.
Proof.
  apply (refusals_do_not_write FlatServer (delete_request FlatServer (str "nothing"))
           fresh_world).
  right; left. reflexivity.
Defined.

Ltac solve_failure :=
  intros req w msg fs Hfaults;
  repeat (case_match_goal; [left; reflexivity|]);
  unfold_store;
  repeat match goal with
    | |- context [doc ?v ?w] =>
        let H := fresh "Hdoc" in
        destruct (doc v w) as [[?ref|?m] ?w] eqn:H;
        [apply doc_Ok in H as [? ->] | apply doc_world in H as ->]
    end;
  rewrite ?Hfaults; cbn [fst snd calls api];
  first [ left; reflexivity
        | right; eexists; split; [reflexivity|]; split; reflexivity ].

Lemma flat_create_fails : fails_with flat_failure Flat.create.
Proof. unfold Flat.create, Flat.internal_error. solve_failure. Qed.

Lemma flat_read_fails : fails_with flat_failure Flat.read.
Proof. unfold Flat.read, Flat.internal_error. solve_failure. Qed.

Lemma flat_update_fails : fails_with flat_failure Flat.update.
Proof. unfold Flat.update, Flat.internal_error. solve_failure. Qed.

Lemma flat_remove_fails : fails_with flat_failure Flat.remove.
Proof. unfold Flat.remove, Flat.internal_error. solve_failure. Qed.

Lemma flat_list_fails : fails_with flat_failure Flat.list_all.
Proof. unfold Flat.list_all, Flat.internal_error. solve_failure. Qed.

Lemma prefixed_create_fails : fails_with prefixed_failure Prefixed.create.
Proof. unfold Prefixed.create, Prefixed.internal_error. solve_failure. Qed.

Lemma prefixed_read_fails : fails_with prefixed_failure Prefixed.read.
Proof. unfold Prefixed.read, Prefixed.internal_error. solve_failure. Qed.

Lemma prefixed_update_fails : fails_with prefixed_failure Prefixed.update.
Proof. unfold Prefixed.update, Prefixed.internal_error. solve_failure. Qed.

Lemma prefixed_remove_fails : fails_with prefixed_failure Prefixed.remove.
Proof. unfold Prefixed.remove, Prefixed.internal_error. solve_failure. Qed.

Lemma prefixed_list_fails : fails_with prefixed_failure Prefixed.list_all.
Proof. unfold Prefixed.list_all, Prefixed.internal_error. solve_failure. Qed.

Lemma prefixed_health_fails : fails_with prefixed_failure Prefixed.health.
Proof. unfold Prefixed.health. solve_failure. Qed.

Lemma static_fails on_error (h : handler) :
  (forall req w, snd (h req w) = w) -> fails_with on_error h.
Proof. intros H req w msg fs _. left. now rewrite H. Qed.

(** X6. When the store rejects the first call a request leads to, with a
    message [msg], both servers answer 500 and make no further call.  The
    first server sends ["Internal server error"] and nothing else; the
    second adds the message as [details] in development only, except on
    [/health], whose answer carries the message whatever the environment.
    A request that leads to no call is not concerned. *)
Theorem store_failure_answers (sv : server) (req : request) (w : world)
    (msg : jsstring) (fs : list (option jsstring)) :
  faults w = Some msg :: fs ->
  calls (snd (app_of sv req w)) = calls w
  \/ exists c,
       calls (snd (app_of sv req w)) = calls w ++ [c]
       /\ api (snd (app_of sv req w)) = api w
       /\ fst (app_of sv req w) = failure_of sv c msg w.
Proof.
  revert req w msg fs.
  destruct sv; cbn [failure_of app_of]; unfold Flat.app, Prefixed.app.
  - apply (dispatch_all
             (fun w rw => forall msg fs, faults w = Some msg :: fs ->
                calls (snd rw) = calls w
                \/ exists c, calls (snd rw) = calls w ++ [c]
                     /\ api (snd rw) = api w /\ fst rw = flat_failure c msg w)).
    + repeat apply List.Forall_cons; try apply List.Forall_nil; cbn [route_handler];
        first [ apply flat_create_fails | apply flat_read_fails
              | apply flat_update_fails | apply flat_remove_fails
              | apply flat_list_fails
              | now apply (static_fails flat_failure) ].
    + now apply (static_fails flat_failure).
  - apply (dispatch_all
             (fun w rw => forall msg fs, faults w = Some msg :: fs ->
                calls (snd rw) = calls w
                \/ exists c, calls (snd rw) = calls w ++ [c]
                     /\ api (snd rw) = api w /\ fst rw = prefixed_failure c msg w)).
    + repeat apply List.Forall_cons; try apply List.Forall_nil; cbn [route_handler];
        first [ apply prefixed_create_fails | apply prefixed_read_fails
              | apply prefixed_update_fails | apply prefixed_remove_fails
              | apply prefixed_list_fails | apply prefixed_health_fails
              | now apply (static_fails prefixed_failure) ].
    + now apply (static_fails prefixed_failure).
Qed.

Lemma store_failure_answers_witness :
  calls (snd (app_of PrefixedServer (read_request PrefixedServer (str "x")) failing_world))
    = calls failing_world
  \/ exists c,
       calls (snd (app_of PrefixedServer (read_request PrefixedServer (str "x"))
                     failing_world)) = calls failing_world ++ [c]
       /\ api (snd (app_of PrefixedServer (read_request PrefixedServer (str "x"))
                      failing_world)) = api failing_world
       /\ fst (app_of PrefixedServer (read_request PrefixedServer (str "x")) failing_world)
          = failure_of PrefixedServer c (str "unavailable") failing_world.
Proof.
  apply (store_failure_answers PrefixedServer (read_request PrefixedServer (str "x"))
           failing_world (str "unavailable") []).
  reflexivity.
Defined.

(** ** The health check of the second server *)

(** X7. [GET /health] on the second server writes a time stamp to the
    document [healthcheck/test] and reads it back; it never touches the
    collection of endpoints.  When both calls go through it answers 200
    with [database: true]; when the write is rejected it answers 500 with
    the store's message and makes no second call; when the read is
    rejected it answers 500 with the store's message, the stamp being
    written. *)
Theorem extended_health_check (body : value) (params : list (jsstring * value))
    (w : world) :
  let '(r, w') := Prefixed.app (Request GET [str "health"] body params) w in
  api w' = api w
  /\ match faults w with
     | Some msg :: _ =>
         r = Response 500 (health_error_body msg w)
         /\ calls w' = calls w ++ [CallHealthSet]
         /\ healthcheck w' = healthcheck w
     | _ :: Some msg :: _ =>
         r = Response 500 (health_error_body msg w)
         /\ calls w' = calls w ++ [CallHealthSet; CallHealthGet]
         /\ healthcheck w' = Some (health_stamp w)
     | _ =>
         r = Response 200 (health_ok_body w)
         /\ calls w' = calls w ++ [CallHealthSet; CallHealthGet]
         /\ healthcheck w' = Some (health_stamp w)
     end.
Proof.
  change (Prefixed.app (Request GET [str "health"] body params) w)
    with (Prefixed.health (Request GET [str "health"] body []) w).
  unfold Prefixed.health, health_error_body, health_ok_body, health_stamp.
  unfold_store. simpl.
  destruct (faults w) as [|[m|] [|[m'|] fs]]; simpl;
    repeat split; auto; now rewrite <- app_assoc.
Qed.

(** ** The slug ["health"] on the second server *)



(** ** The documents of a server *)

Lemma documents_ok_same sv w w' :
  api w' = api w -> documents_ok sv w -> documents_ok sv w'.
Proof. intros Hapi H id d. rewrite Hapi. apply H. Qed.

Lemma documents_ok_insert sv w w' s d :
  api w' = <[s := d]> (api w) -> document_ok sv s d ->
  documents_ok sv w -> documents_ok sv w'.
Proof.
  intros Hapi Hd H id d'. rewrite Hapi.
  destruct (decide (s = id)) as [->|Hne].
  - rewrite lookup_insert_eq. now intros [= <-].
  - rewrite lookup_insert_ne by exact Hne. apply H.
Qed.

Lemma documents_ok_delete sv w w' s :
  api w' = delete s (api w) -> documents_ok sv w -> documents_ok sv w'.
Proof.
  intros Hapi H id d. rewrite Hapi.
  destruct (decide (s = id)) as [->|Hne].
  - rewrite lookup_delete_eq. discriminate.
  - rewrite lookup_delete_ne by exact Hne. apply H.
Qed.

Ltac solve_documents_ok :=
  intros req w Hwf;
  repeat match goal with
    | |- context [if ?b then _ else _] =>
        let E := fresh "Hcheck" in destruct b eqn:E; [exact Hwf|]
    end;
  repeat match goal with
    | H : _ || _ = false |- _ => apply orb_false_iff in H as [? ?]
    | H : negb _ = false |- _ => apply negb_false_iff in H
    end;
  store_cases;
  first [ exact Hwf
        | apply (documents_ok_same _ w); [reflexivity|exact Hwf]
        | eapply (documents_ok_delete _ w); [reflexivity|exact Hwf]
        | eapply (documents_ok_insert _ w); [reflexivity| |exact Hwf];
          repeat split; cbn [doc_slug doc_name doc_jsonData stored_data_ok];
          try match goal with
            | Hd : api w !! ?s = Some ?d |- _ =>
                destruct (Hwf s d Hd) as (? & ? & ? & ?)
            end;
          try match goal with
            | H : get_prop _ _ = VString _ |- _ => rewrite <- ?H
            end;
          eauto ].

Lemma flat_create_keeps : keeps_documents_ok FlatServer Flat.create.
Proof. unfold Flat.create, Flat.internal_error. solve_documents_ok. Qed.

Lemma flat_read_keeps : keeps_documents_ok FlatServer Flat.read.
Proof. unfold Flat.read, Flat.internal_error. solve_documents_ok. Qed.

Lemma flat_update_keeps : keeps_documents_ok FlatServer Flat.update.
Proof. unfold Flat.update, Flat.internal_error. solve_documents_ok. Qed.

Lemma flat_remove_keeps : keeps_documents_ok FlatServer Flat.remove.
Proof. unfold Flat.remove, Flat.internal_error. solve_documents_ok. Qed.

Lemma flat_list_keeps : keeps_documents_ok FlatServer Flat.list_all.
Proof. unfold Flat.list_all, Flat.internal_error. solve_documents_ok. Qed.

Lemma prefixed_create_keeps : keeps_documents_ok PrefixedServer Prefixed.create.
Proof. unfold Prefixed.create, Prefixed.internal_error. solve_documents_ok. Qed.

Lemma prefixed_read_keeps : keeps_documents_ok PrefixedServer Prefixed.read.
Proof. unfold Prefixed.read, Prefixed.internal_error. solve_documents_ok. Qed.

Lemma prefixed_update_keeps : keeps_documents_ok PrefixedServer Prefixed.update.
Proof. unfold Prefixed.update, Prefixed.internal_error. solve_documents_ok. Qed.

Lemma prefixed_remove_keeps : keeps_documents_ok PrefixedServer Prefixed.remove.
Proof. unfold Prefixed.remove, Prefixed.internal_error. solve_documents_ok. Qed.

Lemma prefixed_list_keeps : keeps_documents_ok PrefixedServer Prefixed.list_all.
Proof. unfold Prefixed.list_all, Prefixed.internal_error. solve_documents_ok. Qed.

Lemma prefixed_health_keeps : keeps_documents_ok PrefixedServer Prefixed.health.
Proof. unfold Prefixed.health. solve_documents_ok. Qed.

Lemma static_keeps sv (h : handler) :
  (forall req w, snd (h req w) = w) -> keeps_documents_ok sv h.
Proof. intros H req w Hwf. now rewrite H. Qed.

Lemma app_keeps_documents_ok sv : keeps_documents_ok sv (app_of sv).
Proof.
  unfold keeps_documents_ok.
  destruct sv; cbn [app_of]; unfold Flat.app, Prefixed.app;
    [apply (dispatch_all (fun w rw => documents_ok FlatServer w ->
                                      documents_ok FlatServer (snd rw)))
    |apply (dispatch_all (fun w rw => documents_ok PrefixedServer w ->
                                      documents_ok PrefixedServer (snd rw)))];
    try (now apply static_keeps);
    repeat apply List.Forall_cons; try apply List.Forall_nil; cbn [route_handler];
    first [ apply flat_create_keeps | apply flat_read_keeps
          | apply flat_update_keeps | apply flat_remove_keeps
          | apply flat_list_keeps | apply prefixed_create_keeps
          | apply prefixed_read_keeps | apply prefixed_update_keeps
          | apply prefixed_remove_keeps | apply prefixed_list_keeps
          | apply prefixed_health_keeps
          | now apply static_keeps ].
Qed.

Lemma reachable_documents_ok sv w : reachable sv w -> documents_ok sv w.
Proof.
  induction 1 as [w Hempty|req w _ IH|ds dl w _ IH|fs w _ IH].
  - intros id d. rewrite Hempty, lookup_empty. discriminate.
  - now apply app_keeps_documents_ok.
  - exact IH.
  - exact IH.
Qed.

(** X9. In every world a server can reach from an empty collection, each
    document is filed under a slug of the slug format, its [slug] field is
    that slug, its [name] is truthy, and its [jsonData] is, on the first
    server, the envelope [{result: "SUCCESS", data, message: "Success"}]
    around truthy data and, on the second, a truthy value. *)
Theorem stored_documents_well_formed (sv : server) (w : world) (id : jsstring)
    (d : document) :
  reachable sv w ->
  api w !! id = Some d ->
  validateSlug (VString id) = true
  /\ doc_slug d = VString id
  /\ truthy (doc_name d) = true
  /\ match sv with
     | FlatServer =>
         exists data,
           doc_jsonData d
           = obj [prop "result" (text "SUCCESS"); prop "data" data;
                  prop "message" (text "Success")]
           /\ truthy data = true
     | PrefixedServer => truthy (doc_jsonData d) = true
     end.
Proof.
  intros Hr Hd. destruct (reachable_documents_ok sv w Hr id d Hd) as (H1 & H2 & H3 & H4).
  repeat split; auto.
Qed.

Lemma created_world_reachable : reachable PrefixedServer created_world.
Proof. apply reach_request, reach_start. reflexivity. Qed.

Lemma stored_documents_well_formed_witness :
  validateSlug (VString (str "widgets")) = true
  /\ doc_slug (Document (text "Widgets") (VArray [VNumber (Num 1 0)]) (text "widgets") 0 0)
     = VString (str "widgets")
  /\ truthy (doc_name (Document (text "Widgets") (VArray [VNumber (Num 1 0)])
                         (text "widgets") 0 0)) = true
  /\ truthy (doc_jsonData (Document (text "Widgets") (VArray [VNumber (Num 1 0)])
                             (text "widgets") 0 0)) = true.
Proof.
  apply (stored_documents_well_formed PrefixedServer created_world (str "widgets")
           (Document (text "Widgets") (VArray [VNumber (Num 1 0)]) (text "widgets") 0 0)).
  - exact created_world_reachable.
  - vm_compute. reflexivity.
Defined.




Lemma flat_created_world_reachable : reachable FlatServer flat_created_world.
Proof. apply reach_request, reach_start. reflexivity. Qed.


(** ** The listing and the collection *)

Lemma collection_docs_list w :
  ids_are_slugs w -> collection_docs w = map_to_list (api w).
Proof.
  intros Hinv. unfold collection_docs. apply filter_all.
  apply Forall_forall. intros [id d] Hin.
  apply elem_of_map_to_list in Hin.
  eapply valid_slug_in_collection, Hinv, Hin.
Qed.

Lemma listed_slugs_prefixed docs :
  listed_slugs (map prefixed_entry docs) = map (fun e => VString (fst e)) docs.
Proof. unfold listed_slugs. rewrite map_map. reflexivity. Qed.

Lemma listed_slugs_flat sv w docs :
  documents_ok sv w -> docs ≡ₚ map_to_list (api w) ->
  listed_slugs (map flat_entry docs) = map (fun e => VString (fst e)) docs.
Proof.
  intros Hwf Hperm. unfold listed_slugs. rewrite map_map.
  apply map_ext_in. intros [id d] Hin.
  apply list_elem_of_In in Hin. rewrite Hperm in Hin.
  apply elem_of_map_to_list in Hin.
  destruct (Hwf id d Hin) as (_ & Hs & _).
  change (get_prop (flat_entry (id, d)) "slug") with (doc_slug d). exact Hs.
Qed.

Lemma slugs_of_documents (m : gmap jsstring document) docs :
  docs ≡ₚ map_to_list m ->
  NoDup (map (fun e : jsstring * document => VString (fst e)) docs)
  /\ length docs = size m
  /\ forall s, VString s ∈ map (fun e : jsstring * document => VString (fst e)) docs
               <-> is_Some (m !! s).
Proof.
  intros Hperm. split; [|split].
  - change (NoDup ((fun e : jsstring * document => VString (fst e)) <$> docs)).
    rewrite Hperm. apply (NoDup_fmap_2_strong _).
    + intros [i x] [j y] Hi Hj [= E]. simpl in E. subst j.
      apply elem_of_map_to_list in Hi, Hj. congruence.
    + apply NoDup_map_to_list.
  - rewrite Hperm. apply length_map_to_list.
  - intros s.
    change (VString s ∈ (fun e : jsstring * document => VString (fst e)) <$> docs
            <-> is_Some (m !! s)).
    rewrite Hperm, list_elem_of_fmap. split.
    + intros ([i x] & [= ->] & Hin). apply elem_of_map_to_list in Hin. eauto.
    + intros [x Hx]. exists (s, x). split; [reflexivity|].
      now apply elem_of_map_to_list.
Qed.

(** X11. In a world a server can reach, when the call to the store goes
    through, the listing names every document of the collection once and
    nothing else: the [slug]s of its entries are distinct, there are as
    many as documents, and a slug is listed exactly when it has a
    document. *)
Theorem list_names_documents (sv : server) (w : world) :
  reachable sv w ->
  next_call_ok w ->
  exists entries,
    get_prop (res_body (fst (app_of sv (list_request sv) w))) "endpoints" = VArray entries
    /\ NoDup (listed_slugs entries)
    /\ length entries = size (api w)
    /\ forall s, VString s ∈ listed_slugs entries <-> is_Some (api w !! s).
Proof.
  intros Hr Hok.
  pose proof (reachable_documents_ok sv w Hr) as Hwf.
  pose proof (collection_docs_list w (reachable_ids_are_slugs sv w Hr)) as Hdocs.
  destruct sv; cbn [app_of].
  - rewrite (flat_list_ok w Hok). cbn [fst res_body].
    exists (map flat_entry (merge_sort newer (collection_docs w))).
    split; [reflexivity|].
    assert (Hperm : merge_sort newer (collection_docs w) ≡ₚ map_to_list (api w))
      by (rewrite merge_sort_Permutation; now rewrite Hdocs).
    rewrite (listed_slugs_flat FlatServer w _ Hwf Hperm), length_map.
    apply slugs_of_documents, Hperm.
  - rewrite (prefixed_list_ok w Hok). cbn [fst res_body].
    exists (map prefixed_entry (collection_docs w)).
    split; [reflexivity|].
    rewrite listed_slugs_prefixed, length_map, Hdocs.
    now apply slugs_of_documents.
Qed.

Lemma list_names_documents_witness :
  exists entries,
    get_prop (res_body (fst (app_of FlatServer (list_request FlatServer)
                               flat_created_world))) "endpoints" = VArray entries
    /\ NoDup (listed_slugs entries)
    /\ length entries = size (api flat_created_world)
    /\ forall s, VString s ∈ listed_slugs entries <-> is_Some (api flat_created_world !! s).
Proof.
  apply (list_names_documents FlatServer flat_created_world).
  - exact flat_created_world_reachable.
  - exact I.
Defined.

(** ** The form of the answers *)

Ltac solve_answer :=
  unfold well_formed_answer, is_refusal;
  first [ left; reflexivity
        | right; left; reflexivity
        | right; right; split;
          [ first [ left; left; reflexivity | left; right; left; reflexivity
                  | left; right; right; reflexivity | right; reflexivity ]
          | eexists; split; [reflexivity|];
            first [ left; discriminate | right; reflexivity ] ] ].

Ltac solve_answers :=
  intros req w;
  repeat (case_match_goal; [solve_answer|]);
  store_cases; cbn [fst]; solve_answer.

Lemma flat_create_answers req w : well_formed_answer (fst (Flat.create req w)).
Proof. revert req w. unfold Flat.create, Flat.internal_error. solve_answers. Qed.

Lemma flat_read_answers req w : well_formed_answer (fst (Flat.read req w)).
Proof. revert req w. unfold Flat.read, Flat.internal_error. solve_answers. Qed.

Lemma flat_update_answers req w : well_formed_answer (fst (Flat.update req w)).
Proof. revert req w. unfold Flat.update, Flat.internal_error. solve_answers. Qed.

Lemma flat_remove_answers req w : well_formed_answer (fst (Flat.remove req w)).
Proof. revert req w. unfold Flat.remove, Flat.internal_error. solve_answers. Qed.

Lemma flat_list_answers req w : well_formed_answer (fst (Flat.list_all req w)).
Proof. revert req w. unfold Flat.list_all, Flat.internal_error. solve_answers. Qed.

Lemma prefixed_create_answers req w : well_formed_answer (fst (Prefixed.create req w)).
Proof. revert req w. unfold Prefixed.create, Prefixed.internal_error. solve_answers. Qed.

Lemma prefixed_read_answers req w : well_formed_answer (fst (Prefixed.read req w)).
Proof. revert req w. unfold Prefixed.read, Prefixed.internal_error. solve_answers. Qed.

Lemma prefixed_update_answers req w : well_formed_answer (fst (Prefixed.update req w)).
Proof. revert req w. unfold Prefixed.update, Prefixed.internal_error. solve_answers. Qed.

Lemma prefixed_remove_answers req w : well_formed_answer (fst (Prefixed.remove req w)).
Proof. revert req w. unfold Prefixed.remove, Prefixed.internal_error. solve_answers. Qed.

Lemma prefixed_list_answers req w : well_formed_answer (fst (Prefixed.list_all req w)).
Proof. revert req w. unfold Prefixed.list_all, Prefixed.internal_error. solve_answers. Qed.

Lemma prefixed_health_answers req w : well_formed_answer (fst (Prefixed.health req w)).
Proof. revert req w. unfold Prefixed.health. solve_answers. Qed.

(** X12. Every answer of either server, to any request, has one of the
    statuses 200, 201, 400, 404, 409 and 500; and every answer that is not
    a 200 or a 201 has a body whose [error] is a string, which is not
    empty except, possibly, when it is the store's message in the answer
    of the health check of the second server. *)
Theorem answers_have_status_and_error (sv : server) (req : request) (w : world) :
  well_formed_answer (fst (app_of sv req w)).
Proof.
  revert req w.
  destruct sv; cbn [app_of]; unfold Flat.app, Prefixed.app;
    apply (dispatch_all (fun w rw => well_formed_answer (fst rw)));
    try (intros req w; solve_answer);
    repeat apply List.Forall_cons; try apply List.Forall_nil; cbn [route_handler];
    first [ apply flat_create_answers | apply flat_read_answers
          | apply flat_update_answers | apply flat_remove_answers
          | apply flat_list_answers | apply prefixed_create_answers
          | apply prefixed_read_answers | apply prefixed_update_answers
          | apply prefixed_remove_answers | apply prefixed_list_answers
          | apply prefixed_health_answers
          | intros req w; solve_answer ].
Qed.

(** ** What the parser returns *)

Lemma hex_value_bound c n : JSON.hex_value c = Some n -> n < 16.
Proof.
  unfold JSON.hex_value.
  repeat match goal with
    | |- context [if ?b then _ else _] => destruct b eqn:?
    end; intros [= <-];
    repeat match goal with
      | H : _ && _ = true |- _ => apply andb_true_iff in H as [? ?]
      | H : (_ <=? _) = true |- _ => apply N.leb_le in H
      end; lia.
Qed.

Lemma hex4_bound a b c d u : JSON.hex4 a b c d = Some u -> code_unit u.
Proof.
  unfold JSON.hex4, code_unit.
  destruct (JSON.hex_value a) as [a'|] eqn:Ea; cbn [mbind option_bind]; [|discriminate].
  destruct (JSON.hex_value b) as [b'|] eqn:Eb; cbn [mbind option_bind]; [|discriminate].
  destruct (JSON.hex_value c) as [c'|] eqn:Ec; cbn [mbind option_bind]; [|discriminate].
  destruct (JSON.hex_value d) as [d'|] eqn:Ed; cbn [mbind option_bind]; [|discriminate].
  apply hex_value_bound in Ea, Eb, Ec, Ed. intros [= <-]. lia.
Qed.

Lemma simple_escape_bound e u : JSON.simple_escape e = Some u -> code_unit u.
Proof.
  unfold JSON.simple_escape, code_unit.
  repeat match goal with
    | |- context [if ?b then _ else _] => destruct b
    end; intros [= <-]; lia.
Qed.

Lemma string_body_code_units body s :
  string_body body s -> Forall code_unit body -> Forall code_unit s.
Proof.
  induction 1 as [|c body s _ _ _ _ IH|e u body s He _ IH|h1 h2 h3 h4 u body s Hh _ IH];
    intros Hb.
  - constructor.
  - apply Forall_cons in Hb as [Hc Hb]. constructor; auto.
  - apply Forall_cons in Hb as [_ Hb]. apply Forall_cons in Hb as [_ Hb].
    constructor; [now apply simple_escape_bound in He|auto].
  - do 6 (apply Forall_cons in Hb as [_ Hb]).
    constructor; [now apply hex4_bound in Hh|auto].
Qed.

(** A number that is not zero is a power of ten times a number that does
    not end in zero. *)
Lemma factor_tens_bounded (n : nat) : forall m : Z,
  (Z.abs m < Z.of_nat n)%Z -> (m <> 0)%Z ->
  exists (m' : Z) (j : nat), (m = m' * 10 ^ Z.of_nat j /\ m' mod 10 <> 0)%Z.
Proof.
  induction n as [|n IH]; intros m Hn Hm; [lia|].
  destruct (Z.eq_dec (m mod 10)%Z 0%Z) as [E|E].
  - apply Z.mod_divide in E; [|lia]. destruct E as [q ->].
    destruct (IH q) as (m' & j & -> & Hm'); [lia|lia|].
    exists m', (S j). split; [|exact Hm'].
    rewrite Nat2Z.inj_succ, Z.pow_succ_r by lia. lia.
  - exists m, 0%nat. split; [|exact E]. simpl. lia.
Qed.

Lemma factor_tens (m : Z) :
  (m <> 0)%Z ->
  exists (m' : Z) (j : nat), (m = m' * 10 ^ Z.of_nat j /\ m' mod 10 <> 0)%Z.
Proof. apply (factor_tens_bounded (S (Z.to_nat (Z.abs m)))). lia. Qed.

(** Scaling the significand and the exponent together does not change
    whether a decimal underflows. *)
Lemma underflows_scaled (m' : Z) (j : nat) (e : Z) :
  (m' <> 0)%Z ->
  underflows m' (e + Z.of_nat j) = underflows (m' * 10 ^ Z.of_nat j) e.
Proof.
  intros Hm. unfold underflows.
  assert (Hp : (0 < 10 ^ Z.of_nat j)%Z) by (apply Z.pow_pos_nonneg; lia).
  rewrite Z.abs_mul, (Z.abs_eq (10 ^ _)) by lia.
  assert (H2 : (1 < 2 ^ 1075)%Z) by (apply Z.pow_gt_1; lia).
  set (p := (2 ^ 1075)%Z) in *. clearbody p.
  destruct (Z.ltb_spec (e + Z.of_nat j) 0) as [He'|He'].
  - destruct (Z.ltb_spec e 0) as [He|He]; [|lia]. cbn [andb].
    replace (10 ^ (- e))%Z with (10 ^ (- (e + Z.of_nat j)) * 10 ^ Z.of_nat j)%Z
      by (rewrite <- Z.pow_add_r by lia; f_equal; lia).
    set (a := (10 ^ (- (e + Z.of_nat j)))%Z). set (t := (10 ^ Z.of_nat j)%Z) in *.
    clearbody a t.
    destruct (Z.leb_spec (Z.abs m' * p) a), (Z.leb_spec (Z.abs m' * t * p) (a * t));
      try reflexivity; nia.
  - cbn [andb]. destruct (Z.ltb_spec e 0) as [He|He]; [|reflexivity]. cbn [andb].
    symmetry. apply Z.leb_gt.
    assert (Hle : (10 ^ (- e) <= 10 ^ Z.of_nat j)%Z) by (apply Z.pow_le_mono_r; lia).
    assert (0 < Z.abs m')%Z by lia.
    set (t := (10 ^ Z.of_nat j)%Z) in *. set (a := (10 ^ (- e))%Z) in *.
    clearbody a t.
    assert (t <= Z.abs m' * t)%Z by nia.
    assert (Z.abs m' * t < Z.abs m' * t * p)%Z by nia.
    lia.
Qed.

Lemma number_of_literal_representable neg ds e :
  representable_number (JSON.number_of_literal neg ds e).
Proof.
  unfold JSON.number_of_literal, representable_number.
  set (m := Z.of_N (JSON.digits_value ds)).
  destruct (Z.eqb_spec m 0) as [E|Hm]; [split; [split; cbn; lia|reflexivity]|].
  destruct (underflows m e) eqn:Hu; [split; [split; cbn; lia|reflexivity]|].
  set (sm := if neg then (- m)%Z else m).
  assert (Hsm : sm <> 0%Z) by (subst sm; destruct neg; lia).
  assert (Hus : underflows sm e = false).
  { rewrite <- underflows_abs. subst sm.
    replace (Z.abs (if neg then (- m)%Z else m)) with (Z.abs m) by (destruct neg; lia).
    now rewrite underflows_abs. }
  destruct (factor_tens sm Hsm) as (m' & j & Hsplit & Hm').
  assert (Hm0 : m' <> 0%Z) by (intros ->; now apply Hm').
  rewrite Hsplit in Hus |- *. rewrite (normalize_pow m' j e Hm'). cbn [mant expo].
  split; [split; cbn [mant expo]; [lia|auto]|].
  now rewrite underflows_scaled.
Qed.

Lemma number_text_representable t x : number_text t x -> representable_number x.
Proof. intros []. apply number_of_literal_representable. Qed.

Lemma set_prop_names k v acc :
  map fst (set_prop k v acc)
  = if decide (k ∈ map fst acc) then map fst acc else map fst acc ++ [k].
Proof.
  induction acc as [|[k' v'] acc IH]; [reflexivity|].
  cbn [set_prop map fst]. destruct (decide (k' = k)) as [->|Hne].
  - rewrite decide_True by (now left). reflexivity.
  - cbn [map fst]. rewrite IH.
    destruct (decide (k ∈ map fst acc)) as [Hin|Hin].
    + rewrite decide_True by (now right). reflexivity.
    + rewrite decide_False; [reflexivity|].
      intros H. apply elem_of_cons in H as [H|H]; [congruence|contradiction].
Qed.

Lemma set_prop_representable k v acc :
  Forall code_unit k -> representable v ->
  representable_props acc -> representable_props (set_prop k v acc).
Proof.
  intros Hk Hv [Hnd Hall]. split.
  - rewrite set_prop_names. destruct (decide _) as [Hin|Hin]; [exact Hnd|].
    apply NoDup_app. split; [exact Hnd|]. split.
    + intros x Hx Hx'. apply list_elem_of_singleton in Hx'. now subst.
    + apply NoDup_singleton.
  - clear Hnd. induction Hall as [|[k' v'] acc Hkv Hacc IH]; cbn [set_prop].
    + repeat constructor; assumption.
    + destruct (decide (k' = k)); constructor; auto.
Qed.

(** The value of a text of the grammar that is made of code units is a
    value JSON can represent. *)
Lemma value_text_representable t v :
  value_text t v -> Forall code_unit t -> representable v.
Proof.
  intros Hv.
  induction Hv using value_text_mut with
    (P0 := fun t acc items =>
       Forall code_unit t -> Forall representable acc -> Forall representable items)
    (P1 := fun t acc props =>
       Forall code_unit t -> representable_props acc -> representable_props props);
    intros Ht.
  - constructor.
  - constructor.
  - constructor.
  - constructor. eapply number_text_representable; eassumption.
  - constructor. eapply string_body_code_units; [eassumption|].
    apply Forall_cons in Ht as [_ Ht]. now apply Forall_app in Ht as [Ht _].
  - constructor. constructor.
  - constructor. apply IHHv; [|constructor].
    apply Forall_cons in Ht as [_ Ht]. now apply Forall_app in Ht as [Ht _].
  - constructor; constructor.
  - apply Forall_cons in Ht as [_ Ht]. apply Forall_app in Ht as [Ht _].
    destruct (IHHv Ht) as [Hnd Hall]; [split; constructor|].
    now constructor.
  - intros Hacc. apply Forall_app. split; [exact Hacc|]. constructor; [|constructor].
    apply IHHv. apply Forall_app in Ht as [_ Ht]. now apply Forall_app in Ht as [Ht _].
  - intros Hacc.
    apply Forall_app in Ht as [_ Ht]. apply Forall_app in Ht as [Ht1 Ht].
    apply Forall_app in Ht as [_ Ht]. apply Forall_cons in Ht as [_ Ht].
    apply IHHv0; [exact Ht|]. apply Forall_app. split; [exact Hacc|].
    constructor; [auto|constructor].
  - intros Hacc.
    apply Forall_app in Ht as [_ Ht]. apply Forall_cons in Ht as [_ Ht].
    apply Forall_app in Ht as [Hbody Ht]. apply Forall_cons in Ht as [_ Ht].
    apply Forall_app in Ht as [_ Ht]. apply Forall_cons in Ht as [_ Ht].
    apply Forall_app in Ht as [_ Ht]. apply Forall_app in Ht as [Ht _].
    apply set_prop_representable; auto.
    eapply string_body_code_units; eassumption.
  - intros Hacc.
    apply Forall_app in Ht as [_ Ht]. apply Forall_cons in Ht as [_ Ht].
    apply Forall_app in Ht as [Hbody Ht]. apply Forall_cons in Ht as [_ Ht].
    apply Forall_app in Ht as [_ Ht]. apply Forall_cons in Ht as [_ Ht].
    apply Forall_app in Ht as [_ Ht]. apply Forall_app in Ht as [Ht1 Ht].
    apply Forall_app in Ht as [_ Ht]. apply Forall_cons in Ht as [_ Ht].
    apply IHHv0; [exact Ht|].
    apply set_prop_representable; auto.
    eapply string_body_code_units; eassumption.
Qed.

(** What [JSON.parse] makes of a string is a value JSON can represent. *)
Lemma parse_representable s v :
  Forall code_unit s -> JSON.parse s = Some v -> representable v.
Proof.
  intros Hs Hp. apply parse_json_text in Hp as (w1 & t & w2 & -> & _ & _ & Ht).
  apply (value_text_representable t v Ht).
  apply Forall_app in Hs as [_ Hs]. now apply Forall_app in Hs as [Hs _].
Qed.

(** Parsing, writing and parsing again gives the value of the first
    parse. *)
Lemma parse_stringify_parse s v :
  Forall code_unit s -> JSON.parse s = Some v ->
  exists t, JSON.stringify v = Some t /\ JSON.parse t = Some v.
Proof. intros Hs Hp. eapply parse_stringify, parse_representable; eassumption. Qed.

(** ** Indented texts are texts of the grammar *)













(** * The frontend *)

Lemma calls_ok_next w : calls_ok 1 w -> next_call_ok w.
Proof.
  unfold calls_ok, next_call_ok. destruct (faults w) as [|[m|] fs]; auto.
  cbn [take]. intros H. now apply Forall_cons in H as [[=] _].
Qed.

Lemma calls_ok_next2 n w : calls_ok (S (S n)) w -> next_calls_ok w.
Proof.
  unfold calls_ok, next_calls_ok. destruct (faults w) as [|[m|] [|[m'|] fs]]; auto;
    cbn [take]; intros H; apply Forall_cons in H as [H1 H]; try discriminate;
    now apply Forall_cons in H as [[=] _].
Qed.

Lemma calls_ok_tail n w w' :
  faults w' = tail (faults w) -> calls_ok (S n) w -> calls_ok n w'.
Proof.
  unfold calls_ok. intros ->. destruct (faults w) as [|f fs]; cbn [take tail].
  - intros _. destruct n; constructor.
  - intros H. now apply Forall_cons in H as [_ H].
Qed.

Lemma calls_ok_less n w : calls_ok (S n) w -> calls_ok n w.
Proof.
  unfold calls_ok. generalize (faults w). clear w.
  induction n as [|n IH]; intros fs; [constructor|].
  destruct fs as [|f fs]; [constructor|]. cbn [take].
  intros H. apply Forall_cons in H as [Hf H]. constructor; [exact Hf|].
  apply IH. exact H.
Qed.


Lemma str_code_units (s : string) : Forall code_unit (str s).
Proof.
  unfold str. induction (list_ascii_of_string s) as [|a l IH]; [constructor|].
  cbn [map]. constructor; [|exact IH].
  unfold code_unit. pose proof (N_ascii_bounded a). lia.
Qed.


Lemma flat_app_create body w :
  Flat.app (Request POST [str "create"] body []) w
  = Flat.create (Request POST [str "create"] body []) w.
Proof. reflexivity. Qed.




(** X14. When the component does not get an endpoint generated, against
    the first server, nothing is stored and the reason is shown: an editor
    text that is not JSON is refused by the component, and no request is
    sent; a name that is not of the slug format is refused by the server
    with "Invalid slug format"; JSON whose value is falsy, which the
    component takes for valid, is refused by the server with "Invalid JSON
    data".  The response is empty and [loading] is off. *)
Theorem generate_refused (eng : engine) (u : App.state) (w : world) :
  App.name u <> [] ->
  Forall code_unit (App.jsonInput u) ->
  let '(u', w') := App.handleGenerate eng Flat.app u w in
  match JSON.parse (App.jsonInput u) with
  | None =>
      w' = w
      /\ u' = App.State (App.name u) (App.jsonInput u) (VString [])
                (VString (App.invalid_json eng u)) false (App.endpoints u)
  | Some v =>
      (validateSlug (VString (App.name u)) = false ->
       w' = w
       /\ u' = App.State (App.name u) (App.jsonInput u) (VString [])
                 (text "Invalid slug format") false (App.endpoints u))
      /\ (validateSlug (VString (App.name u)) = true -> truthy v = false ->
          w' = w
          /\ u' = App.State (App.name u) (App.jsonInput u) (VString [])
                    (text "Invalid JSON data") false (App.endpoints u))
  end.
Proof.
  intros Hne Hcu.
  unfold App.handleGenerate, App.validateJson.
  cbn [App.setLoading App.setError App.setResponse App.jsonInput App.name App.response
       App.error App.loading App.endpoints].
  destruct (JSON.parse (App.jsonInput u)) as [v|] eqn:Hp; [|split; reflexivity].
  destruct (parse_stringify_parse _ _ Hcu Hp) as (t & Hs & Hpt).
  rewrite Hs. cbn [App.stringified]. rewrite flat_app_create.
  assert (Ht : truthy (VString (App.name u)) = true) by now destruct (App.name u).
  pose proof (parse_nonempty t v Hpt) as Htt.
  unfold Flat.create.
  change (get_prop (req_body _) "name") with (VString (App.name u)).
  change (get_prop (req_body _) "jsonData") with (VString t).
  change (get_prop (req_body _) "slug") with (VString (App.name u)).
  rewrite Ht, Htt. cbn [negb orb].
  rewrite (validateJSON_parsed t v Hpt).
  destruct (validateSlug (VString (App.name u))); cbn [negb].
  - destruct (truthy v); cbn [negb].
    + match goal with |- let '(_, _) := ?e in _ => destruct e as [u' w'] end.
      split; intros; discriminate.
    + split; [discriminate|]. intros _ _. split; reflexivity.
  - split; [|discriminate]. intros _. split; reflexivity.
Qed.

Lemma generate_refused_witness :
  let '(u', w') := App.handleGenerate some_engine Flat.app (typed "zero" "0") fresh_world in
  match JSON.parse (App.jsonInput (typed "zero" "0")) with
  | None =>
      w' = fresh_world
      /\ u' = App.State (App.name (typed "zero" "0")) (App.jsonInput (typed "zero" "0"))
                (VString []) (VString (App.invalid_json some_engine (typed "zero" "0")))
                false (App.endpoints (typed "zero" "0"))
  | Some v =>
      (validateSlug (VString (App.name (typed "zero" "0"))) = false ->
       w' = fresh_world
       /\ u' = App.State (App.name (typed "zero" "0")) (App.jsonInput (typed "zero" "0"))
                 (VString []) (text "Invalid slug format") false
                 (App.endpoints (typed "zero" "0")))
      /\ (validateSlug (VString (App.name (typed "zero" "0"))) = true ->
          truthy v = false ->
          w' = fresh_world
          /\ u' = App.State (App.name (typed "zero" "0"))
                    (App.jsonInput (typed "zero" "0")) (VString [])
                    (text "Invalid JSON data") false (App.endpoints (typed "zero" "0")))
  end.
Proof.
  apply (generate_refused some_engine (typed "zero" "0") fresh_world).
  - discriminate.
  - apply str_code_units.
Defined.

(** ** Format JSON *)



Example prettify_text :
  App.jsonInput (App.handlePrettify (typed "widgets" "[1, 2]"))
  = str "[" ++ [10] ++ str "  1," ++ [10] ++ str "  2" ++ [10] ++ str "]".
Proof. vm_compute. reflexivity. Qed.

(** ** The delete button *)

Lemma slug_url_path s : validateSlug (VString s) = true -> url_path s = Some [s].
Proof.
  intros Hv. pose proof (valid_slug_nonempty s Hv) as Hne.
  apply validateSlug_chars in Hv as [_ Hall]. unfold url_path.
  replace (forallb is_path_char s) with true.
  - now destruct s.
  - symmetry. apply forallb_forall. intros c Hc. rewrite Forall_forall in Hall.
    unfold is_path_char. rewrite (Hall c); [reflexivity|]. now apply list_elem_of_In.
Qed.

Lemma flat_remove_found req s w d :
  param req "slug" = VString s -> doc (VString s) w = (Ok s, w) ->
  api w !! s = Some d -> next_calls_ok w ->
  Flat.remove req w
  = (deleted_response FlatServer,
     set_api (delete s) (after_calls (CallGet s) (CallDelete s) w)).
Proof.
  intros Hs Hdoc Hd Hok. unfold Flat.remove. rewrite Hs.
  unfold_store. rewrite Hdoc. unfold next_calls_ok in Hok.
  destruct (faults w) as [|[?|] [|[?|] ?]] eqn:Ef; try contradiction;
    cbn [api faults tail]; rewrite Hd;
    unfold after_calls, after_call, deleted_response;
    cbn [api faults tail calls healthcheck store_time local_time development];
    rewrite <- ?app_assoc, ?Ef; reflexivity.
Qed.

(** The listing of the first server, in a world it can reach. *)
Lemma flat_listing w :
  reachable FlatServer w -> next_call_ok w ->
  exists entries,
    Flat.app (list_request FlatServer) w
    = (Response 200 (obj [prop "endpoints" (VArray entries)]), after_call CallList w)
    /\ NoDup (listed_slugs entries)
    /\ length entries = size (api w)
    /\ forall s, VString s ∈ listed_slugs entries <-> is_Some (api w !! s).
Proof.
  intros Hr Hok.
  pose proof (reachable_documents_ok FlatServer w Hr) as Hwf.
  pose proof (collection_docs_list w (reachable_ids_are_slugs FlatServer w Hr)) as Hdocs.
  exists (map flat_entry (merge_sort newer (collection_docs w))).
  split; [now rewrite (flat_list_ok w Hok)|].
  assert (Hperm : merge_sort newer (collection_docs w) ≡ₚ map_to_list (api w))
    by (rewrite merge_sort_Permutation; now rewrite Hdocs).
  rewrite (listed_slugs_flat FlatServer w _ Hwf Hperm), length_map.
  apply slugs_of_documents, Hperm.
Qed.

(** X16. The delete button of an entry of the list, against the first
    server in a world it can reach, the calls to the store going through.
    When the entry's slug has a document, the document is deleted and the
    list is fetched again: it shows the other documents, each once, and no
    entry for the slug.  When the slug has no document any more, the
    request is answered 404 and the component stays as it is: no error is
    shown and the list is not fetched. *)
Theorem delete_click (eng : engine) (u : App.state) (ep : value) (s : jsstring)
    (w : world) :
  reachable FlatServer w ->
  get_prop ep "slug" = VString s ->
  validateSlug (VString s) = true ->
  calls_ok 3 w ->
  match api w !! s with
  | Some _ =>
      exists w' entries,
        App.onDeleteClick eng Flat.app ep u w
        = Some (App.setEndpoints (VArray entries) u, w')
        /\ api w' = delete s (api w)
        /\ calls w' = calls w ++ [CallGet s; CallDelete s; CallList]
        /\ NoDup (listed_slugs entries)
        /\ S (length entries) = size (api w)
        /\ forall s', VString s' ∈ listed_slugs entries
                      <-> s' <> s /\ is_Some (api w !! s')
  | None =>
      App.onDeleteClick eng Flat.app ep u w = Some (u, after_call (CallGet s) w)
  end.
Proof.
  intros Hr Hslug Hv Hok.
  pose proof (valid_slug_nonempty s Hv) as Hne.
  pose proof (valid_slug_doc s w Hv) as Hdoc.
  unfold App.onDeleteClick. rewrite Hslug. cbn [ToString].
  rewrite (slug_url_path s Hv). cbn [mbind option_bind].
  change (Request DELETE [s] (obj []) []) with (delete_request FlatServer s).
  destruct (api w !! s) as [d|] eqn:Hd.
  - assert (Hr1 : reachable FlatServer (snd (Flat.app (delete_request FlatServer s) w)))
      by apply (reach_request FlatServer), Hr.
    rewrite flat_app_delete in * by exact Hne.
    rewrite (flat_remove_found _ s w d (param_with_slug _ s) Hdoc Hd
               (calls_ok_next2 _ _ Hok)) in *.
    cbn [snd] in Hr1. set (w1 := set_api _ _) in *.
    change (App.resolved (deleted_response FlatServer)) with true. cbv iota.
    assert (Hok1 : next_call_ok w1).
    { apply calls_ok_next. apply (calls_ok_tail 1 (after_call (CallGet s) w));
        [reflexivity|]. now apply (calls_ok_tail 2 w). }
    destruct (flat_listing w1 Hr1 Hok1) as (entries & Hlist & Hnd & Hlen & Hmem).
    exists (after_call CallList w1), entries.
    unfold App.fetchEndpoints.
    change (Request GET [] (obj []) []) with (list_request FlatServer).
    rewrite Hlist. change (App.resolved (Response 200 _)) with true. cbv iota.
    cbn [App.data res_body obj]. split; [reflexivity|].
    split; [reflexivity|].
    split; [subst w1; cbn; now rewrite <- !app_assoc|].
    split; [exact Hnd|]. split.
    + rewrite Hlen. subst w1. cbn [set_api api after_calls after_call].
      rewrite map_size_delete_Some by eauto.
      assert (size (api w) <> 0%nat); [|lia].
      intros E. apply map_size_empty_iff in E. rewrite E, lookup_empty in Hd. discriminate.
    + intros s'. rewrite Hmem. subst w1. cbn [set_api api after_calls after_call].
      rewrite lookup_delete_is_Some. split; intros [H1 H2]; split; auto.
  - rewrite flat_app_delete by exact Hne.
    rewrite (flat_remove_missing _ s w (param_with_slug _ s) Hdoc Hd
               (calls_ok_next _ (calls_ok_less _ _ (calls_ok_less _ _ Hok)))).
    reflexivity.
Qed.

Lemma delete_click_witness :
  match api flat_created_world !! str "widgets" with
  | Some _ =>
      exists w' entries,
        App.onDeleteClick some_engine Flat.app (entry_for "widgets")
          (typed "widgets" "[1]") flat_created_world
        = Some (App.setEndpoints (VArray entries) (typed "widgets" "[1]"), w')
        /\ api w' = delete (str "widgets") (api flat_created_world)
        /\ calls w' = calls flat_created_world
                      ++ [CallGet (str "widgets"); CallDelete (str "widgets"); CallList]
        /\ NoDup (listed_slugs entries)
        /\ S (length entries) = size (api flat_created_world)
        /\ forall s', VString s' ∈ listed_slugs entries
                      <-> s' <> str "widgets" /\ is_Some (api flat_created_world !! s')
  | None =>
      App.onDeleteClick some_engine Flat.app (entry_for "widgets")
        (typed "widgets" "[1]") flat_created_world
      = Some (typed "widgets" "[1]", after_call (CallGet (str "widgets")) flat_created_world)
  end.
Proof.
  apply (delete_click some_engine (typed "widgets" "[1]") (entry_for "widgets")
           (str "widgets") flat_created_world).
  - exact flat_created_world_reachable.
  - reflexivity.
  - reflexivity.
  - repeat constructor.
Defined.

(** * The start of the servers *)

Lemma no_escaped_newline_spec s :
  no_escaped_newline s = false <-> has_escaped_newline s.
Proof.
  induction s as [|c s IH]; cbn [no_escaped_newline].
  - split; [discriminate|]. intros (b & a & E). now destruct b.
  - destruct s as [|d s'].
    + split; [discriminate|]. intros (b & a & E). destruct b as [|? [|? ?]]; discriminate.
    + rewrite andb_false_iff, negb_false_iff, andb_true_iff, !N.eqb_eq, IH. split.
      * intros [[-> ->]|(b & a & E)]; [now exists [], s'|].
        exists (c :: b), a. now rewrite E.
      * intros (b & a & E). destruct b as [|c' b].
        -- injection E as -> -> _. now left.
        -- injection E as -> E. right. now exists b, a.
Qed.

Lemma unescape_newlines_head d r :
  exists t, unescape_newlines (d :: r) = 10 :: t \/ unescape_newlines (d :: r) = d :: t.
Proof.
  cbn [unescape_newlines]. destruct r as [|e r']; [eauto|].
  destruct ((d =? 92) && (e =? 110)); eauto.
Qed.

Lemma unescape_newlines_free_bounded (n : nat) : forall s,
  (length s <= n)%nat -> no_escaped_newline (unescape_newlines s) = true.
Proof.
  induction n as [|n IH]; intros s Hn; (destruct s as [|c s]; [reflexivity|]);
    [simpl in Hn; lia|].
  cbn [unescape_newlines]. destruct s as [|d s']; [reflexivity|].
  cbn [length] in Hn.
  destruct ((c =? 92) && (d =? 110)) eqn:E.
  - pose proof (IH s' ltac:(lia)) as H.
    destruct (unescape_newlines s') as [|e t]; [reflexivity|].
    change (no_escaped_newline (10 :: e :: t))
      with (negb ((10 =? 92) && (e =? 110)) && no_escaped_newline (e :: t)).
    now rewrite H.
  - pose proof (IH (d :: s') ltac:(simpl; lia)) as H.
    destruct (unescape_newlines_head d s') as (t & [Ht|Ht]); rewrite Ht in *.
    + change (no_escaped_newline (c :: 10 :: t))
        with (negb ((c =? 92) && (10 =? 110)) && no_escaped_newline (10 :: t)).
      rewrite H. change (10 =? 110) with false. now rewrite andb_false_r.
    + change (no_escaped_newline (c :: d :: t))
        with (negb ((c =? 92) && (d =? 110)) && no_escaped_newline (d :: t)).
      now rewrite H, E.
Qed.

Lemma unescape_newlines_same s :
  no_escaped_newline s = true -> unescape_newlines s = s.
Proof.
  induction s as [|c s IH]; [reflexivity|].
  cbn [no_escaped_newline unescape_newlines]. destruct s as [|d s']; [reflexivity|].
  intros H. apply andb_true_iff in H as [H1 H2]. apply negb_true_iff in H1.
  rewrite H1. now rewrite IH.
Qed.

Lemma unescape_newlines_length_bounded (n : nat) : forall s,
  (length s <= n)%nat -> (length (unescape_newlines s) <= length s)%nat.
Proof.
  induction n as [|n IH]; intros s Hn; (destruct s as [|c s]; [reflexivity|]);
    [simpl in Hn; lia|].
  cbn [unescape_newlines]. destruct s as [|d s']; [reflexivity|].
  cbn [length] in Hn.
  destruct ((c =? 92) && (d =? 110)).
  - pose proof (IH s' ltac:(lia)). cbn [length]. lia.
  - pose proof (IH (d :: s') ltac:(simpl; lia)) as H. cbn [length] in *. lia.
Qed.

Lemma trim_start_suffix s : exists w, s = w ++ trim_start s.
Proof.
  induction s as [|c s (w & Hw)]; [now exists []|].
  cbn [trim_start]. destruct (is_trimmed_char c).
  - exists (c :: w). cbn [app]. now rewrite <- Hw.
  - now exists [].
Qed.

Lemma trim_start_head s c rest : trim_start s = c :: rest -> is_trimmed_char c = false.
Proof.
  induction s as [|d s IH]; cbn [trim_start]; [discriminate|].
  destruct (is_trimmed_char d) eqn:E; [exact IH|]. now intros [= <- _].
Qed.

(** [trim] cuts a string at both ends. *)
Lemma trim_middle s : exists w1 w2, s = w1 ++ trim s ++ w2.
Proof.
  unfold trim. destruct (trim_start_suffix s) as (w1 & H1).
  destruct (trim_start_suffix (rev (trim_start s))) as (w2 & H2).
  exists w1, (rev w2). rewrite <- rev_app_distr, <- H2, rev_involutive. exact H1.
Qed.

Lemma trim_first s c rest : trim s = c :: rest -> is_trimmed_char c = false.
Proof.
  unfold trim. intros H.
  destruct (trim_start_suffix (rev (trim_start s))) as (w2 & H2).
  apply (f_equal (@rev _)) in H2. rewrite rev_involutive, rev_app_distr, H in H2.
  cbn [app] in H2. now apply trim_start_head in H2.
Qed.

Lemma trim_last s c front : trim s = front ++ [c] -> is_trimmed_char c = false.
Proof.
  unfold trim. intros H. apply (f_equal (@rev _)) in H.
  rewrite rev_involutive, rev_app_distr in H. cbn [rev app] in H.
  now apply trim_start_head in H.
Qed.

(** X17. The private key as the start hands it to the library: whatever
    the variable holds, the key has no double quote, neither begins nor
    ends with white space or a line break, and is no longer than the
    variable.  The first step, the only one of [server.js], leaves no
    backslash followed by [n], and changes nothing in a key that has
    none. *)
Theorem private_key_cleaned (raw : jsstring) :
  (34 ∉ clean_private_key raw)
  /\ (forall c rest, clean_private_key raw = c :: rest -> is_trimmed_char c = false)
  /\ (forall c front, clean_private_key raw = front ++ [c] -> is_trimmed_char c = false)
  /\ (length (clean_private_key raw) <= length raw)%nat
  /\ ~ has_escaped_newline (unescape_newlines raw)
  /\ (~ has_escaped_newline raw -> unescape_newlines raw = raw).
Proof.
  unfold clean_private_key.
  destruct (trim_middle (remove_quotes (unescape_newlines raw))) as (w1 & w2 & Hm).
  split; [|split; [|split; [|split; [|split]]]].
  - intros Hin.
    assert (H : 34 ∈ remove_quotes (unescape_newlines raw)).
    { rewrite Hm. rewrite !elem_of_app. auto. }
    unfold remove_quotes in H. apply list_elem_of_filter in H as [H _]. now apply H.
  - intros c rest. apply trim_first.
  - intros c front. apply trim_last.
  - pose proof (unescape_newlines_length_bounded _ raw (le_n _)) as H1.
    assert (H2 : (length (remove_quotes (unescape_newlines raw))
                  <= length (unescape_newlines raw))%nat)
      by apply length_filter.
    apply (f_equal (@length _)) in Hm. rewrite !length_app in Hm. lia.
  - intros H. apply no_escaped_newline_spec in H.
    now rewrite (unescape_newlines_free_bounded _ raw (le_n _)) in H.
  - intros H. apply unescape_newlines_same.
    destruct (no_escaped_newline raw) eqn:E; [reflexivity|].
    now apply no_escaped_newline_spec in E.
Qed.

Example private_key_example :
  clean_private_key (default [] (FIREBASE_PRIVATE_KEY some_environment))
  = str "-----BEGIN-----" ++ [10] ++ str "key" ++ [10] ++ str "-----END-----".
Proof. vm_compute. reflexivity. Qed.

(** X18. [initializeFirebase] ends in one of two ways: it returns, with
    credentials the library has accepted, whose private key is the
    cleaned key; or it exits with code 1.  When one of the four variables
    is not set or is empty it exits whatever the library would do.  The
    value of the private key variable is written to the console exactly
    when the start fails and [NODE_ENV] is not ["production"]. *)
Theorem initializeFirebase_outcome (library : credentials -> option jsstring)
    (env : environment) :
  let '(log, result) := initializeFirebase library env in
  (result = Exit 1
   \/ exists c,
        result = Initialized c /\ library c = None
        /\ privateKey c = clean_private_key (default [] (FIREBASE_PRIVATE_KEY env)))
  /\ (unset (FIREBASE_PROJECT_ID env) || unset (FIREBASE_CLIENT_EMAIL env)
      || unset (FIREBASE_PRIVATE_KEY env) || unset (FIREBASE_DATABASE_URL env) = true ->
      result = Exit 1
      /\ forall library', initializeFirebase library' env = (log, result))
  /\ (forall v, LogPrivateKeyValue v ∈ log
                <-> result = Exit 1
                    /\ NODE_ENV env <> Some (str "production")
                    /\ v = FIREBASE_PRIVATE_KEY env).
Proof.
  unfold initializeFirebase.
  destruct (unset _ || unset _ || unset _ || unset _) eqn:Hunset.
  - split; [now left|]. split; [now split|].
    intros v. cbn [app]. destruct (decide (NODE_ENV env = _)) as [E|E].
    + split.
      * intros H. apply list_elem_of_singleton in H. discriminate.
      * intros (_ & H & _). contradiction.
    + split.
      * intros H. apply elem_of_cons in H as [H|H]; [discriminate|].
        apply list_elem_of_singleton in H. injection H as ->. auto.
      * intros (_ & _ & ->). right. now left.
  - destruct (library _) as [message|] eqn:Hlib.
    + split; [now left|]. split; [discriminate|].
      intros v. cbn [app]. destruct (decide (NODE_ENV env = _)) as [E|E].
      * split.
        -- intros H. apply elem_of_cons in H as [H|H]; [discriminate|].
           apply list_elem_of_singleton in H. discriminate.
        -- intros (_ & H & _). contradiction.
      * split.
        -- intros H. apply elem_of_cons in H as [H|H]; [discriminate|].
           apply elem_of_cons in H as [H|H]; [discriminate|].
           apply list_elem_of_singleton in H. injection H as ->. auto.
        -- intros (_ & _ & ->). right. right. now left.
    + split; [right; eexists; split; [reflexivity|]; split; [exact Hlib|reflexivity]|].
      split; [discriminate|].
      intros v. cbn [app]. split.
      * intros H. apply elem_of_cons in H as [H|H]; [discriminate|].
        apply list_elem_of_singleton in H. discriminate.
      * intros (H & _). discriminate.
Qed.
